(** * wordle/script.js: the word list, the guess evaluation and the turn logic

    A shallow embedding of the browser game in [wordle/script.js].

    Conventions of the model.
    - A JavaScript string is a [string]; the model covers ASCII text, where a
      UTF-16 code unit, a code point and an [ascii] coincide. A letter taken
      out of a string ([WORD[i]], [for (let ch of WORD)]) is a one-character
      string.
    - [undefined] is [None]: an array or string indexed out of range, a
      property that an object does not have.
    - The DOM is part of the state: the text and class list of every tile,
      the class list of every on-screen key, the message box. The grid is
      there once [setupGrid] has run; [wellFormed_run] shows that the script
      then never looks up a tile that is missing. The model follows the
      script on the pages where every lookup of a tile finds it ([sound]);
      [run_sound] shows that these are the pages of a session.
    - A run is the course of one session: its events are key presses and
      clicks on the on-screen keys and on the help elements. A click on the
      play-again button is [resetGame] and starts the next session.
    - The script is event driven. A handler or a callback is a function
      from the game to the game and the timers it starts; the event loop
      ([Page], [advance], [run]) keeps the pending timers with their due
      times and fires them in order as time passes between the input
      events. A callback takes no time. *)

From Stdlib Require Import Ascii String ZArith.
From stdpp Require Import base decidable option list gmap strings.

Open Scope Z_scope.
Open Scope nat_scope.

(* stdpp's solvers clear hypotheses by name; the note about it is noise. *)
#[local] Set Warnings "-clear-no-such-hyp".

(** ** Constants (script.js, lines 1-2) *)

Definition MAX_GUESSES : nat := 6.
Definition WORD_LENGTH : nat := 5.

(** ** JavaScript strings *)

Module Js.

(** [s.length]. *)
Definition length (s : string) : nat := String.length s.

(** The letters of a string, each a one-character string: what
    [for (let ch of s)] iterates over and what [s[i]] indexes. *)
Fixpoint letters (s : string) : list string :=
  match s with
  | EmptyString => []
  | String a s' => String a EmptyString :: letters s'
  end.

(** [arr.join('')]. *)
Definition join (arr : list string) : string :=
  foldr String.append EmptyString arr.

Definition is_lower (a : ascii) : bool :=
  let n := nat_of_ascii a in (97 <=? n) && (n <=? 122).

Definition is_upper (a : ascii) : bool :=
  let n := nat_of_ascii a in (65 <=? n) && (n <=? 90).

Definition upper_ascii (a : ascii) : ascii :=
  if is_lower a then ascii_of_nat (nat_of_ascii a - 32) else a.

Definition lower_ascii (a : ascii) : ascii :=
  if is_upper a then ascii_of_nat (nat_of_ascii a + 32) else a.

(** [s.toUpperCase()] and [s.toLowerCase()] on ASCII text. *)
Fixpoint toUpperCase (s : string) : string :=
  match s with
  | EmptyString => EmptyString
  | String a s' => String (upper_ascii a) (toUpperCase s')
  end.

Fixpoint toLowerCase (s : string) : string :=
  match s with
  | EmptyString => EmptyString
  | String a s' => String (lower_ascii a) (toLowerCase s')
  end.

(** [s.trim()]: white space is removed at both ends (tab, line feed,
    vertical tab, form feed, carriage return and space in ASCII). *)
Fixpoint trimStart (s : string) : string :=
  match s with
  | EmptyString => EmptyString
  | String a s' => if Ascii.is_space a then trimStart s' else s
  end.

Fixpoint trimEnd (s : string) : string :=
  match s with
  | EmptyString => EmptyString
  | String a s' =>
      match trimEnd s' with
      | EmptyString => if Ascii.is_space a then EmptyString else String a EmptyString
      | t => String a t
      end
  end.

Definition trim (s : string) : string := trimEnd (trimStart s).

Definition is_lf (a : ascii) : bool := bool_decide (a = "010"%char).
Definition is_cr (a : ascii) : bool := bool_decide (a = "013"%char).

(** Puts a character in front of the first piece of a split. *)
Definition cons_first (a : ascii) (pieces : list string) : list string :=
  match pieces with
  | [] => [String a EmptyString]
  | p :: ps => String a p :: ps
  end.

(** [s.split(/\r?\n/)]: the pieces between line ends, a line end being a
    line feed with the carriage return before it, if there is one. The
    empty string splits into one empty piece. *)
Fixpoint splitLines (s : string) : list string :=
  match s with
  | EmptyString => [EmptyString]
  | String a s' =>
      if is_lf a then EmptyString :: splitLines s'
      else
        match s' with
        | String b s'' =>
            if is_cr a && is_lf b then EmptyString :: splitLines s''
            else cons_first a (splitLines s')
        | EmptyString => cons_first a (splitLines s')
        end
  end.

(** [/^[a-zA-Z]$/.test(s)]. *)
Definition isLetter (s : string) : bool :=
  match s with
  | String a EmptyString => is_lower a || is_upper a
  | _ => false
  end.

(** The text is ASCII: the text the model of [toUpperCase] and [trim]
    covers. (Outside ASCII [toUpperCase] can lengthen a string and [trim]
    strips more kinds of space.) *)
Fixpoint isAscii (s : string) : bool :=
  match s with
  | EmptyString => true
  | String a s' => (nat_of_ascii a <? 128) && isAscii s'
  end.

(** The characters that do not stand for themselves between the double
    quotes of a CSS string: the double quote, the backslash, the line
    breaks (line feed, form feed, carriage return) and the null character. *)
Definition breaks_selector (a : ascii) : bool :=
  let n := nat_of_ascii a in
  (n =? 34) || (n =? 92) || (n =? 10) || (n =? 12) || (n =? 13) || (n =? 0).

(** The selector [[data-key="s"]] built by interpolation is the attribute
    selector for the value [s]. *)
Fixpoint selectorSafe (s : string) : bool :=
  match s with
  | EmptyString => true
  | String a s' => negb (breaks_selector a) && selectorSafe s'
  end.

End Js.

(** ** Loading the word list (script.js, lines 19-38) *)

(** The response of [fetch('valid-words.txt')]: [res.ok] and [res.text()]. *)
Record Response := { ok : bool; body : string }.

(** Lines 26-29: the entries of length [WORD_LENGTH] are kept, and each of
    them is then trimmed and upper-cased. *)
Definition parseWords (text : string) : list string :=
  map (fun w => Js.toUpperCase (Js.trim w))
      (filter (fun w => Js.length w = WORD_LENGTH) (Js.splitLines text)).

(** The promise chain up to the assignment of [validWords]: the first
    callback throws when the response is not ok, the second one parses. *)
Inductive LoadResult :=
  | LoadError (msg : string)
  | Loaded (words : list string).

Definition fetchWords (res : Response) : LoadResult :=
  if ok res then Loaded (parseWords (body res))
  else LoadError "Network error loading word list".

(** Lines 189-191: [validWords.includes(w)]. *)
Definition isValidWord (validWords : list string) (w : string) : bool :=
  bool_decide (w ∈ validWords).

(** ** The guess evaluation (script.js, lines 219-237) *)

(** The three values the entries of [states] take: the strings ['absent'],
    ['present'] and ['correct']. *)
Inductive LetterState := absent | present | correct.

Global Instance LetterState_eq_dec : EqDecision LetterState.
Proof. solve_decision. Defined.

(** The class name a state is written as. *)
Definition className (st : LetterState) : string :=
  match st with
  | absent => "absent"
  | present => "present"
  | correct => "correct"
  end.

(** The numbers stored in [letterCount]. A decrement of a property that is
    not there stores [NaN]. *)
Inductive JsNum := Num (n : Z) | NaN.

(** [v || 0], for [v] a property of [letterCount]: [undefined], [NaN] and [0]
    are falsy. *)
Definition orZero (v : option JsNum) : Z :=
  match v with
  | Some (Num n) => n
  | _ => 0%Z
  end.

(** [v > 0]: false on [undefined] and on [NaN]. *)
Definition isPositive (v : option JsNum) : bool :=
  match v with
  | Some (Num n) => (0 <? n)%Z
  | _ => false
  end.

(** [letterCount[k]--]. *)
Definition decrement (k : string) (letterCount : gmap string JsNum) : gmap string JsNum :=
  match letterCount !! k with
  | Some (Num n) => <[k := Num (n - 1)]> letterCount
  | _ => <[k := NaN]> letterCount
  end.

(** The property name an index expression denotes: the string itself, and
    the name [undefined] for [undefined]. *)
Definition propKey (v : option string) : string := default "undefined" v.

(** [a === b] on values that are strings or [undefined]. *)
Definition strictEq (a b : option string) : bool := bool_decide (a = b).

(** [for (let i = 0; i < n; i++) body]. *)
Definition forLoop {A : Type} (n : nat) (body : A -> nat -> A) (s : A) : A :=
  foldl body s (seq 0 n).

(** Line 221: [for (let ch of WORD) letterCount[ch] = (letterCount[ch]||0) + 1]. *)
Definition countLetters (WORD : string) : gmap string JsNum :=
  foldl (fun lc ch => <[ch := Num (orZero (lc !! ch) + 1)]> lc) ∅ (Js.letters WORD).

(** Lines 225-230, the body of the first pass. *)
Definition firstPass (WORD : string) (guessArr : list string)
    (acc : list LetterState * gmap string JsNum) (i : nat)
    : list LetterState * gmap string JsNum :=
  let '(states, letterCount) := acc in
  if strictEq (guessArr !! i) (Js.letters WORD !! i)
  then (<[i := correct]> states, decrement (propKey (guessArr !! i)) letterCount)
  else (states, letterCount).

(** Lines 232-237, the body of the second pass. *)
Definition secondPass (guessArr : list string)
    (acc : list LetterState * gmap string JsNum) (i : nat)
    : list LetterState * gmap string JsNum :=
  let '(states, letterCount) := acc in
  if bool_decide (states !! i = Some absent)
     && isPositive (letterCount !! propKey (guessArr !! i))
  then (<[i := present]> states, decrement (propKey (guessArr !! i)) letterCount)
  else (states, letterCount).

(** Lines 220-237: the states of the guess held in [guessArr] against [WORD]. *)
Definition evaluate (WORD : string) (guessArr : list string) : list LetterState :=
  let letterCount := countLetters WORD in
  let states := replicate WORD_LENGTH absent in
  let afterFirst := forLoop WORD_LENGTH (firstPass WORD guessArr) (states, letterCount) in
  let afterSecond := forLoop WORD_LENGTH (secondPass guessArr) afterFirst in
  afterSecond.1.

(** ** The page and the globals of the script *)

(** A tile of the grid, [#tile-r-c]: its [textContent] and its [classList]. *)
Record Tile := { textContent : string; classList : gset string }.

(** The message box: the text of [#message-text], whether [#message] is
    shown and whether the play-again button is. *)
Record Message := {
  messageText : string;
  messageShown : bool;
  playAgainShown : bool
}.

(** The globals of lines 4-9 with the part of the document the script reads
    and writes. [tiles] maps (r, c) to the element [#tile-r-c], [keys] maps a
    [data-key] to the class list of the on-screen key that carries it (the
    keyboard markup is not part of the script: it is whatever the page has),
    [helpShown] says whether the help modal has the class [show]. *)
Record Game := mkGame {
  validWords : list string;
  WORD : option string;
  currentRow : nat;
  currentTile : nat;
  gameOver : bool;
  isAnimating : bool;
  tiles : gmap (nat * nat) Tile;
  keys : gmap string (gset string);
  helpShown : bool;
  message : Message
}.

Definition set_WORD (v : option string) (g : Game) : Game :=
  mkGame (validWords g) v (currentRow g) (currentTile g) (gameOver g)
    (isAnimating g) (tiles g) (keys g) (helpShown g) (message g).
Definition set_currentRow (v : nat) (g : Game) : Game :=
  mkGame (validWords g) (WORD g) v (currentTile g) (gameOver g)
    (isAnimating g) (tiles g) (keys g) (helpShown g) (message g).
Definition set_currentTile (v : nat) (g : Game) : Game :=
  mkGame (validWords g) (WORD g) (currentRow g) v (gameOver g)
    (isAnimating g) (tiles g) (keys g) (helpShown g) (message g).
Definition set_gameOver (v : bool) (g : Game) : Game :=
  mkGame (validWords g) (WORD g) (currentRow g) (currentTile g) v
    (isAnimating g) (tiles g) (keys g) (helpShown g) (message g).
Definition set_isAnimating (v : bool) (g : Game) : Game :=
  mkGame (validWords g) (WORD g) (currentRow g) (currentTile g) (gameOver g)
    v (tiles g) (keys g) (helpShown g) (message g).
Definition set_tiles (v : gmap (nat * nat) Tile) (g : Game) : Game :=
  mkGame (validWords g) (WORD g) (currentRow g) (currentTile g) (gameOver g)
    (isAnimating g) v (keys g) (helpShown g) (message g).
Definition set_keys (v : gmap string (gset string)) (g : Game) : Game :=
  mkGame (validWords g) (WORD g) (currentRow g) (currentTile g) (gameOver g)
    (isAnimating g) (tiles g) v (helpShown g) (message g).
Definition set_helpShown (v : bool) (g : Game) : Game :=
  mkGame (validWords g) (WORD g) (currentRow g) (currentTile g) (gameOver g)
    (isAnimating g) (tiles g) (keys g) v (message g).
Definition set_message (v : Message) (g : Game) : Game :=
  mkGame (validWords g) (WORD g) (currentRow g) (currentTile g) (gameOver g)
    (isAnimating g) (tiles g) (keys g) (helpShown g) v.

(** A tile as [setupGrid] creates it and as [resetGame] leaves it. *)
Definition blankTile : Tile := {| textContent := ""; classList := {["tile"]} |}.

(** Lines 41-55: one tile for every row and column. *)
Definition setupGrid : gmap (nat * nat) Tile :=
  forLoop MAX_GUESSES (fun grid r =>
    forLoop WORD_LENGTH (fun grid c => <[(r, c) := blankTile]> grid) grid) ∅.

(** [f] applied to the element [#tile-r-c]. *)
Definition withTile (r c : nat) (f : Tile -> Tile) (g : Game) : Game :=
  set_tiles (alter f (r, c) (tiles g)) g.

(** [document.getElementById(`tile-${r}-${c}`).textContent]. *)
Definition tileText (g : Game) (r c : nat) : string :=
  from_option textContent "" (tiles g !! (r, c)).

Definition addClass (c : string) (t : Tile) : Tile :=
  {| textContent := textContent t; classList := classList t ∪ {[c]} |}.
Definition removeClass (c : string) (t : Tile) : Tile :=
  {| textContent := textContent t; classList := classList t ∖ {[c]} |}.
Definition setText (s : string) (t : Tile) : Tile :=
  {| textContent := s; classList := classList t |}.

(** Lines 95-99. [idx] is the value of
    [Math.floor(Math.random() * validWords.length)]. *)
Definition chooseNewWord (idx : nat) (g : Game) : Game :=
  set_WORD (validWords g !! idx) g.

(** The three classes a key is coloured with. *)
Definition stateClasses : gset string := {["correct"; "present"; "absent"]}.

(** Lines 108-115: every tile is emptied and loses its classes. *)
Definition clearTiles (g : Game) : Game :=
  forLoop MAX_GUESSES (fun g r =>
    forLoop WORD_LENGTH (fun g c => withTile r c (fun _ => blankTile) g) g) g.

(** Lines 102-125. *)
Definition resetGame (idx : nat) (g : Game) : Game :=
  let g := set_isAnimating false (set_gameOver false
             (set_currentTile 0 (set_currentRow 0 g))) in
  let g := clearTiles g in
  let g := set_keys ((fun cl => cl ∖ stateClasses) <$> keys g) g in
  let g := set_message {| messageText := messageText (message g);
                          messageShown := false;
                          playAgainShown := false |} g in
  chooseNewWord idx g.

(** ** Timers

    The script defers part of its work with [setTimeout]. A callback is
    modelled by the change it makes to the game and the timers it starts in
    turn; when it runs is the business of the event loop further down. *)

(** The callbacks the script passes to [setTimeout]. *)
Inductive Timer :=
  | HideMessage                                           (* line 135 *)
  | Reveal (i : nat) (st : LetterState) (letter : string) (* lines 242-263 *)
  | Colour (r i : nat) (st : LetterState)                 (* line 245 *)
  | EndAnimation (guessWord : string)                     (* lines 266-289 *)
  | Bounce (r i : nat)                                    (* lines 300-302 *)
  | DeclareWin                                            (* lines 272-275 *)
  | DeclareLoss.                                          (* lines 279-282 *)

(** What a piece of the script does: the game after it, and the timers it
    has started, each with its delay in ms. *)
Definition Step : Type := Game * list (nat * Timer).

(** Lines 128-137. With a positive duration and no play-again button a
    timer hides the message again. *)
Definition showMessage (text : string) (duration : nat) (showPlayAgain : bool)
    (g : Game) : Step :=
  (set_message {| messageText := text; messageShown := true;
                  playAgainShown := showPlayAgain |} g,
   if (0 <? duration) && negb showPlayAgain then [(duration, HideMessage)] else []).

(** Line 135: [messageEl.classList.remove('show')]. *)
Definition hideMessage (g : Game) : Game :=
  set_message {| messageText := messageText (message g);
                 messageShown := false;
                 playAgainShown := playAgainShown (message g) |} g.

(** Lines 140-167, without the example tiles of the modal. *)
Definition openHelpModal (g : Game) : Game := set_helpShown true g.
Definition closeHelpModal (g : Game) : Game := set_helpShown false g.

(** Lines 170-177. *)
Definition addLetter (letter : string) (g : Game) : Game :=
  if (currentTile g <? WORD_LENGTH) && negb (isAnimating g) then
    let g := withTile (currentRow g) (currentTile g)
               (fun t => addClass "filled" (setText letter t)) g in
    set_currentTile (S (currentTile g)) g
  else g.

(** Lines 179-186. *)
Definition deleteLetter (g : Game) : Game :=
  if (0 <? currentTile g) && negb (isAnimating g) then
    let g := set_currentTile (currentTile g - 1) g in
    withTile (currentRow g) (currentTile g)
      (fun t => removeClass "filled" (setText "" t)) g
  else g.

(** Lines 292-296: the class [shake] is put on the row and a timer takes it
    off again. The class lists of the rows are not part of the state (the
    script never reads them), so neither is this timer. *)
Definition shakeRow (r : nat) (s : Step) : Step := s.

(** Lines 298-304: one timer for each tile of the row. *)
Definition bounceRow (r : nat) : list (nat * Timer) :=
  (fun i => (i * 100, Bounce r i)) <$> seq 0 WORD_LENGTH.

(** ** Submitting a guess (script.js, lines 194-290) *)

(** Lines 204-209: the texts of the tiles of the current row. *)
Definition readRow (g : Game) : list string :=
  forLoop WORD_LENGTH (fun guessArr i => guessArr ++ [tileText g (currentRow g) i]) [].

(** Lines 250-262: the class list of a key after a letter in state [st]. *)
Definition mergeKey (st : LetterState) (cl : gset string) : gset string :=
  match st with
  | correct => (cl ∖ {["present"; "absent"]}) ∪ {["correct"]}
  | present =>
      if bool_decide ("correct" ∈ cl) then cl
      else (cl ∖ {["absent"]}) ∪ {["present"]}
  | absent =>
      if bool_decide ("correct" ∈ cl) || bool_decide ("present" ∈ cl) then cl
      else cl ∪ {["absent"]}
  end.

(** Lines 247-262: the key [[data-key="..."]] of the letter is looked up and
    recoloured. With no such key [keyEl] is [null], the callback throws at
    its first use and no class list changes. The selector is built by
    interpolation: a letter that is not [Js.selectorSafe] (a double quote, a
    backslash, a line break or a null character in it) breaks the selector,
    [querySelector] throws and no class list changes either. (Such a letter
    can also make up another selector that is valid; the statements about
    the key of a letter are for letters that are [Js.selectorSafe].) *)
Definition updateKey (st : LetterState) (letter : string) (g : Game) : Game :=
  set_keys (if Js.selectorSafe (Js.toLowerCase letter)
            then alter (mergeKey st) (Js.toLowerCase letter) (keys g)
            else keys g) g.

(** Lines 242-263, the callback of position [i]: the tile of the current row
    flips, a timer is started that gives it the class of its state, and the
    key of the letter is recoloured. *)
Definition revealLetter (i : nat) (st : LetterState) (letter : string)
    (g : Game) : Step :=
  (updateKey st letter (withTile (currentRow g) i (addClass "flip") g),
   [(250, Colour (currentRow g) i st)]).

(** A value that is a string or [undefined], as a template literal prints it. *)
Definition toText (v : option string) : string := default "undefined" v.

(** Lines 266-289: the callback that ends the animation. *)
Definition endAnimation (guessWord : string) (g : Game) : Step :=
  let g := set_isAnimating false g in
  if bool_decide (Some guessWord = WORD g) then
    (g, bounceRow (currentRow g) ++ [(600, DeclareWin)])
  else if bool_decide (currentRow g = MAX_GUESSES - 1) then
    (g, [(600, DeclareLoss)])
  else
    (set_currentTile 0 (set_currentRow (S (currentRow g)) g), []).

(** Lines 272-275. *)
Definition declareWin (g : Game) : Step :=
  let '(g, timers) := showMessage "Magnificent!" 0 true g in
  (set_gameOver true g, timers).

(** Lines 279-282. *)
Definition declareLoss (g : Game) : Step :=
  let '(g, timers) :=
    showMessage ("The word was " +:+ toText (WORD g)) 0 true g in
  (set_gameOver true g, timers).

(** What each callback does when it runs. *)
Definition fire (t : Timer) (g : Game) : Step :=
  match t with
  | HideMessage => (hideMessage g, [])
  | Reveal i st letter => revealLetter i st letter g
  | Colour r i st => (withTile r i (addClass (className st)) g, [])
  | EndAnimation guessWord => endAnimation guessWord g
  | Bounce r i => (withTile r i (addClass "bounce") g, [])
  | DeclareWin => declareWin g
  | DeclareLoss => declareLoss g
  end.

(** Lines 241-264: [states.forEach] starts one timer for each position,
    100 ms apart. *)
Definition startReveal (states : list LetterState) (guessArr : list string)
    : list (nat * Timer) :=
  imap (fun i o => (i * 100, Reveal i o.1 o.2)) (zip states guessArr).

(** Lines 194-290: what [submitGuess] does before it returns, and the timers
    it starts. When [WORD] is [undefined], [for (let ch of WORD)] throws
    before anything has been written. *)
Definition submitGuess (g : Game) : Step :=
  if isAnimating g then (g, [])
  else if negb (currentTile g =? WORD_LENGTH) then
    shakeRow (currentRow g) (showMessage "Not enough letters" 1000 false g)
  else
    let guessArr := readRow g in
    let guessWord := Js.join guessArr in
    if negb (isValidWord (validWords g) guessWord) then
      shakeRow (currentRow g) (showMessage "Not in word list" 1000 false g)
    else
      match WORD g with
      | None => (g, [])
      | Some word =>
          let states := evaluate word guessArr in
          (set_isAnimating true g,
           startReveal states guessArr
           ++ [(WORD_LENGTH * 100 + 300, EndAnimation guessWord)])
      end.

(** ** Input events (script.js, lines 58-92) *)

Inductive Event :=
  | KeyDown (key : string)       (* keydown on the document, [e.key] *)
  | ClickKey (dataKey : string)  (* click on an on-screen key *)
  | ClickHelp                    (* click on the help button *)
  | ClickClose.                  (* click on the close button or beside the modal *)

(** The guard both input handlers start with. *)
Definition inputIgnored (g : Game) : bool :=
  gameOver g || helpShown g || isAnimating g.

(** The listeners of lines 59-91. A click on the play-again button is
    [resetGame]; it starts the next session and is not an [Event]: a run is
    the course of one session. *)
Definition handle (g : Game) (e : Event) : Step :=
  match e with
  | KeyDown key =>
      if inputIgnored g then (g, [])
      else if bool_decide (key = "Escape") && helpShown g then (closeHelpModal g, [])
      else if bool_decide (key = "Enter") then submitGuess g
      else if bool_decide (key = "Backspace") then (deleteLetter g, [])
      else if Js.isLetter key then (addLetter (Js.toUpperCase key) g, [])
      else (g, [])
  | ClickKey k =>
      if inputIgnored g then (g, [])
      else if bool_decide (k = "enter") then submitGuess g
      else if bool_decide (k = "backspace") then (deleteLetter g, [])
      else (addLetter (Js.toUpperCase k) g, [])
  | ClickHelp => (openHelpModal g, [])
  | ClickClose => (closeHelpModal g, [])
  end.

(** ** The event loop

    A page is the game with a clock (in ms) and the timers that are pending,
    each with the time it is due at. An input arrives some delay after the
    one before; the timers due by then have fired first, in the order of
    their due times, and among timers due at the same time in the order they
    were started. *)

Record Page := { game : Game; clock : nat; pending : list (nat * Timer) }.

(** A timer goes behind the pending ones that are due no later. *)
Fixpoint insertTimer (due : nat) (t : Timer) (timers : list (nat * Timer))
    : list (nat * Timer) :=
  match timers with
  | [] => [(due, t)]
  | (due', t') :: rest =>
      if due' <=? due then (due', t') :: insertTimer due t rest
      else (due, t) :: timers
  end.

(** [setTimeout] for each of the timers started at time [now]. *)
Definition schedule (now : nat) (started : list (nat * Timer))
    (timers : list (nat * Timer)) : list (nat * Timer) :=
  foldl (fun timers dt => insertTimer (now + dt.1) dt.2 timers) timers started.

(** A bound on the callbacks a pending timer leads to: itself and the
    timers it starts. *)
Definition weight (t : Timer) : nat :=
  match t with
  | EndAnimation _ => 7
  | Reveal _ _ _ => 2
  | _ => 1
  end.

Definition totalWeight (timers : list (nat * Timer)) : nat :=
  sum_list ((fun dt => weight dt.2) <$> timers).

(** The timers due by [target] fire, the earliest first, and the clock moves
    on to [target]. The recursion is on a bound of the number of callbacks
    ([advance_fires_all] shows that it is never used up). *)
Fixpoint fireUntil (fuel : nat) (target : nat) (p : Page) : Page :=
  match fuel with
  | 0 => p
  | S fuel' =>
      match pending p with
      | (due, t) :: rest =>
          if due <=? target then
            let '(g, started) := fire t (game p) in
            fireUntil fuel' target
              {| game := g; clock := due; pending := schedule due started rest |}
          else {| game := game p; clock := target; pending := pending p |}
      | [] => {| game := game p; clock := target; pending := [] |}
      end
  end.

(** The time [delay] passes. *)
Definition advance (delay : nat) (p : Page) : Page :=
  fireUntil (S (totalWeight (pending p))) (clock p + delay) p.

(** An input event is handled now. *)
Definition handleNow (p : Page) (e : Event) : Page :=
  let '(g, started) := handle (game p) e in
  {| game := g; clock := clock p; pending := schedule (clock p) started (pending p) |}.

(** A run: each event comes with the time since the one before. *)
Definition run (p : Page) (events : list (nat * Event)) : Page :=
  foldl (fun p de => handleNow (advance de.1 p) de.2) p events.

(** A page on which nothing is pending. *)
Definition quiet (g : Game) : Page := {| game := g; clock := 0; pending := [] |}.

(** ** Start of the page (script.js, lines 4-9 and 20-38) *)

Definition pageBefore (keyboard : gmap string (gset string)) : Game :=
  {| validWords := []; WORD := Some ""; currentRow := 0; currentTile := 0;
     gameOver := false; isAnimating := false; tiles := ∅; keys := keyboard;
     helpShown := false;
     message := {| messageText := ""; messageShown := false; playAgainShown := false |} |}.

Definition pageLoaded (words : list string) (keyboard : gmap string (gset string)) : Game :=
  {| validWords := words; WORD := Some ""; currentRow := 0; currentTile := 0;
     gameOver := false; isAnimating := false; tiles := setupGrid; keys := keyboard;
     helpShown := false;
     message := {| messageText := ""; messageShown := false; playAgainShown := false |} |}.

(** The page once the promise of [fetch] has settled. No timer is started:
    the error message comes with the play-again button. *)
Definition start (res : Response) (keyboard : gmap string (gset string))
    (idx : nat) : Page :=
  match fetchWords res with
  | Loaded words => quiet (resetGame idx (pageLoaded words keyboard))
  | LoadError _ =>
      quiet (showMessage "Error loading word list" 0 true (pageBefore keyboard)).1
  end.

(** ** What an observer sees of a session *)

Inductive SessionStatus := InProgress | Won | Lost.

(** The session is over when [gameOver] is set; the message that came with
    it tells a win from a loss. *)
Definition status (g : Game) : SessionStatus :=
  if gameOver g then
    if bool_decide (messageText (message g) = "Magnificent!") then Won else Lost
  else InProgress.

(** The event is a submission. *)
Definition isSubmit (e : Event) : bool :=
  match e with
  | KeyDown key => bool_decide (key = "Enter")
  | ClickKey k => bool_decide (k = "enter")
  | _ => false
  end.

(** The guess word of a submission that passes every check of the handler
    and of [submitGuess] (input not ignored, row full, word in the list). *)
Definition accepted (g : Game) (e : Event) : option string :=
  if isSubmit e && negb (inputIgnored g)
     && (currentTile g =? WORD_LENGTH)
     && isValidWord (validWords g) (Js.join (readRow g))
     && bool_decide (is_Some (WORD g))
  then Some (Js.join (readRow g)) else None.

(** The guess words of the accepted submissions of a run, in order. *)
Fixpoint attempts (p : Page) (events : list (nat * Event)) : list string :=
  match events with
  | [] => []
  | (delay, e) :: events' =>
      let p := advance delay p in
      option_list (accepted (game p) e) ++ attempts (handleNow p e) events'
  end.

(** The status a key shows: its strongest state class, if it has one. *)
Definition keyStatus (cl : gset string) : option LetterState :=
  if bool_decide ("correct" ∈ cl) then Some correct
  else if bool_decide ("present" ∈ cl) then Some present
  else if bool_decide ("absent" ∈ cl) then Some absent
  else None.

(** The order [absent < present < correct], with [None] (nothing seen yet)
    below all. *)
Definition rank (s : option LetterState) : nat :=
  match s with
  | None => 0
  | Some absent => 1
  | Some present => 2
  | Some correct => 3
  end.

Definition maxStatus (a b : option LetterState) : option LetterState :=
  if rank a <? rank b then b else a.

(** ** Notions the properties are stated with *)

(** A line feed, as a string. *)
Definition LF : string := String "010"%char EmptyString.

(** The number of times the letter [c] occurs in a list of letters, and in
    a word. *)
Definition occ (c : string) (l : list string) : nat :=
  length (filter (fun x => x = c) l).

Definition occurrences (c : string) (WORD : string) : nat :=
  occ c (Js.letters WORD).

(** The number of positions where the guess has the letter [c] and the
    state is not [absent]. *)
Fixpoint marked (c : string) (guessArr : list string) (states : list LetterState) : nat :=
  match guessArr, states with
  | x :: guessArr', st :: states' =>
      (if bool_decide (x = c /\ st <> absent) then 1 else 0) + marked c guessArr' states'
  | _, _ => 0
  end.

Section invariants.
Variables (WORD : string) (guessArr : list string).

(** [letterCount] holds, for each letter of the word, the occurrences that
    no marked position has used up, and has no other property. *)
Definition countsAgree (states : list LetterState)
    (letterCount : gmap string JsNum) : Prop :=
  forall c, letterCount !! c =
    if decide (occurrences c WORD = 0) then None
    else Some (Num (Z.of_nat (occurrences c WORD)
                    - Z.of_nat (marked c guessArr states))).

(** The invariant of the first loop, before position [i]. *)
Definition firstInv (i : nat) (acc : list LetterState * gmap string JsNum) : Prop :=
  length acc.1 = WORD_LENGTH /\
  (forall j, j < WORD_LENGTH ->
     acc.1 !! j = Some (if bool_decide (j < i /\ guessArr !! j = Js.letters WORD !! j)
                        then correct else absent)) /\
  countsAgree acc.1 acc.2 /\
  (forall c, marked c guessArr acc.1 + occ c (drop i (Js.letters WORD))
             <= occurrences c WORD).

(** The invariant of the second loop. *)
Definition secondInv (acc : list LetterState * gmap string JsNum) : Prop :=
  length acc.1 = WORD_LENGTH /\
  (forall j, acc.1 !! j = Some correct <->
             j < WORD_LENGTH /\ guessArr !! j = Js.letters WORD !! j) /\
  countsAgree acc.1 acc.2 /\
  (forall c, marked c guessArr acc.1 <= occurrences c WORD).

End invariants.

(** A sequence of observations, each a state and the guess letter it was
    given to, merged into the keyboard one after the other. *)
Definition mergeAll (obs : list (LetterState * string)) (g : Game) : Game :=
  foldl (fun g o => updateKey o.1 o.2 g) g obs.

(** The states observed for the key [k], in order. *)
Definition observedFor (k : string) (obs : list (LetterState * string))
    : list (option LetterState) :=
  (fun o => Some o.1) <$> filter (fun o => Js.toLowerCase o.2 = k) obs.

(** One merge, on the class lists of the keys. *)
Definition mergeStep (km : gmap string (gset string)) (o : LetterState * string)
    : gmap string (gset string) :=
  if Js.selectorSafe (Js.toLowerCase o.2)
  then alter (mergeKey o.1) (Js.toLowerCase o.2) km
  else km.

(** The globals of the script, without the document. *)
Definition globals (g : Game) :=
  (validWords g, WORD g, currentRow g, currentTile g, gameOver g,
   isAnimating g, helpShown g, message g).

(** The guess word a call of [submitGuess] accepts, if it does. *)
Definition acceptedBySubmit (g : Game) : option string :=
  if (currentTile g =? WORD_LENGTH)
     && isValidWord (validWords g) (Js.join (readRow g))
     && bool_decide (is_Some (WORD g))
  then Some (Js.join (readRow g)) else None.

(** The timers that carry a submission to its outcome: the end of the
    animation and the two that end the game. *)
Definition isCritical (t : Timer) : bool :=
  match t with
  | EndAnimation _ | DeclareWin | DeclareLoss => true
  | _ => false
  end.

Definition criticals (timers : list (nat * Timer)) : list Timer :=
  filter (fun t => isCritical t) (snd <$> timers).

(** No submission is on its way: what is pending only hides a message or
    colours and bounces tiles. *)
Definition settled (p : Page) : Prop := criticals (pending p) = [].

(** Every event of the run arrives at a settled page. *)
Fixpoint arrivesSettled (p : Page) (events : list (nat * Event)) : Prop :=
  match events with
  | [] => True
  | (delay, e) :: events' =>
      settled (advance delay p) /\ arrivesSettled (handleNow (advance delay p) e) events'
  end.

(** A settled session with word [target] and accepted guess words [gs]: it
    goes on below [MAX_GUESSES] attempts none of which is the word, or it is
    over with the message of a win and the word among the attempts, or it
    is over with the message of a loss after [MAX_GUESSES] attempts none of
    which is the word. *)
Definition sessionInv (target : string) (g : Game) (gs : list string) : Prop :=
  (gameOver g = false /\ currentRow g = length gs /\
   length gs < MAX_GUESSES /\ target ∉ gs) \/
  (gameOver g = true /\ messageText (message g) = "Magnificent!" /\
   target ∈ gs /\ length gs <= MAX_GUESSES) \/
  (gameOver g = true /\ messageText (message g) = "The word was " +:+ target /\
   length gs = MAX_GUESSES /\ target ∉ gs).

(** The part of the game [pageInv] looks at. *)
Definition view (g : Game) :=
  (WORD g, isAnimating g, gameOver g, currentRow g, messageText (message g)).

(** What holds of a page along a run whose events arrive at settled pages,
    by the timer that is on its way. *)
Definition pageInv (target : string) (p : Page) (gs : list string) : Prop :=
  WORD (game p) = Some target /\
  match criticals (pending p) with
  | [] => isAnimating (game p) = false /\ sessionInv target (game p) gs
  | [EndAnimation guessWord] =>
      isAnimating (game p) = true /\ gameOver (game p) = false /\
      exists gs', gs = gs' ++ [guessWord] /\ currentRow (game p) = length gs' /\
                  length gs' < MAX_GUESSES /\ target ∉ gs'
  | [DeclareWin] =>
      isAnimating (game p) = false /\ gameOver (game p) = false /\
      target ∈ gs /\ length gs <= MAX_GUESSES
  | [DeclareLoss] =>
      isAnimating (game p) = false /\ gameOver (game p) = false /\
      length gs = MAX_GUESSES /\ target ∉ gs
  | _ => False
  end.

(** The pending timers are in the order of their due times, none of which
    is before [lo]. *)
Fixpoint sortedFrom (lo : nat) (timers : list (nat * Timer)) : Prop :=
  match timers with
  | [] => True
  | (due, _) :: rest => lo <= due /\ sortedFrom due rest
  end.

(** The key events for a list of keys, the first after [delay] ms and the
    others right behind. *)
Definition keysAfter (delay : nat) (ks : list string) : list (nat * Event) :=
  match ks with
  | [] => []
  | k :: ks' => (delay, KeyDown k) :: ((fun k => (0, KeyDown k)) <$> ks')
  end.

(** The key events that type a word and submit it. *)
Definition guessAfter (delay : nat) (w : string) : list (nat * Event) :=
  keysAfter delay (Js.letters w ++ ["Enter"]).

(** A page with the words CRANE, CRANK and REACT and a keyboard with their
    letters; the word of the session is CRANE. *)
Definition demoKeyboard : gmap string (gset string) :=
  list_to_map ((fun k => (k, {["key"]})) <$> Js.letters "ceantrk").

Definition demoGame : Game :=
  resetGame 0 (pageLoaded ["CRANE"; "CRANK"; "REACT"] demoKeyboard).

(** Five times REACT, then CRANE on the last row, each 2 s after the guess
    before. *)
Definition winOnLastRow : list (nat * Event) :=
  concat (replicate 5 (guessAfter 2000 "react")) ++ guessAfter 2000 "crane".

(** The same, and then, 900 ms after the Enter that submitted CRANE (the
    animation ended 100 ms ago, the game-over timer is due in 500 ms), the
    last letter is replaced by K and the row is submitted again. *)
Definition lateInput : list (nat * Event) :=
  winOnLastRow
  ++ [(900, KeyDown "Backspace"); (100, KeyDown "k"); (100, KeyDown "Enter")].

(** The ids of the tiles [setupGrid] creates. *)
Definition gridIds : gset (nat * nat) := dom setupGrid.

(** The grid is complete and the row and tile counters point into it. Then
    every [getElementById] of the script finds its tile. *)
Definition wellFormed (g : Game) : Prop :=
  dom (tiles g) = gridIds /\
  currentRow g < MAX_GUESSES /\
  currentTile g <= WORD_LENGTH.

(** The part of the state [wellFormed] looks at. *)
Definition shape (g : Game) := (dom (tiles g), currentRow g, currentTile g).

(** The occurrences of a letter are used up at every position before [i]
    that holds it and is still [absent]. *)
Definition exhausted (WORD : string) (guessArr : list string) (i : nat)
    (states : list LetterState) : Prop :=
  forall j c, j < i -> guessArr !! j = Some c -> states !! j = Some absent ->
    marked c guessArr states = occurrences c WORD.

(** The invariant of the second loop with what it adds for the positions
    it has passed. *)
Definition secondInvAt (WORD : string) (guessArr : list string) (i : nat)
    (acc : list LetterState * gmap string JsNum) : Prop :=
  secondInv WORD guessArr acc /\ exhausted WORD guessArr i acc.1.

(** The text with a carriage return put before every line feed. *)
Fixpoint crlf (s : string) : string :=
  match s with
  | EmptyString => EmptyString
  | String a s' =>
      if Js.is_lf a then String "013"%char (String a (crlf s'))
      else String a (crlf s')
  end.

(** No character of the text is a carriage return. *)
Fixpoint noCR (s : string) : bool :=
  match s with
  | EmptyString => true
  | String a s' => negb (Js.is_cr a) && noCR s'
  end.

(** A class list has at most one of the three state classes. *)
Definition oneClass (cl : gset string) : Prop :=
  forall a b, a ∈ stateClasses -> b ∈ stateClasses -> a ∈ cl -> b ∈ cl -> a = b.

(** The classes of a key that are not state classes. *)
Definition otherClasses (cl : gset string) : gset string := cl ∖ stateClasses.

(** [I] holds of the game and [T] of every pending timer. *)
Definition pageHolds (I : Game -> Prop) (T : Timer -> Prop) (p : Page) : Prop :=
  I (game p) /\ Forall (fun dt => T dt.2) (pending p).

(** The part of the state that stays for the whole session. *)
Definition sessionWords (g : Game) := (validWords g, WORD g).

(** The tile (r, c) is behind the cursor: on a row below the current one,
    or on the current row at the current tile or after it. *)
Definition unusedTile (g : Game) (r c : nat) : Prop :=
  currentRow g < r \/ (r = currentRow g /\ currentTile g <= c).

(** The tiles behind the cursor have no letter and are not [filled]. *)
Definition unusedBlank (g : Game) : Prop :=
  forall r c t, tiles g !! (r, c) = Some t -> unusedTile g r c ->
    textContent t = "" /\ "filled" ∉ classList t.

(** Every tile holds its text in upper case. *)
Definition upperTiles (g : Game) : Prop :=
  forall r c, Js.toUpperCase (tileText g r c) = tileText g r c.

(** The keys of a list pressed one after the other. *)
Definition typeKeys (ks : list string) (g : Game) : Game :=
  foldl (fun g k => (handle g (KeyDown k)).1) g ks.

(** A pending timer has run its course by [target]: the end of an animation
    is due early enough for the game-over timer it may start (600 ms
    later), and a game-over timer is due by then. *)
Definition dueBy (target : nat) (dt : nat * Timer) : Prop :=
  match dt.2 with
  | EndAnimation _ => dt.1 + 600 <= target
  | DeclareWin | DeclareLoss => dt.1 <= target
  | _ => True
  end.

(** The tile a callback looks up is in the grid. *)
Definition timerInGrid (t : Timer) : Prop :=
  match t with
  | Reveal i _ _ => i < WORD_LENGTH
  | Colour r i _ | Bounce r i => r < MAX_GUESSES /\ i < WORD_LENGTH
  | _ => True
  end.

(** A page on which every lookup of a tile ([getElementById] of
    [tile-r-c]) finds it, now and in the callbacks that are pending: the
    grid is complete, the counters point into it, and so do the pending
    callbacks. These are the pages of a session; on them the model of the
    handlers and callbacks follows the script. *)
Definition sound (p : Page) : Prop :=
  wellFormed (game p) /\ Forall (fun dt => timerInGrid dt.2) (pending p).

(** The tile (r, c) is there and carries the class [cls]. *)
Definition hasClass (cls : string) (r c : nat) (g : Game) : Prop :=
  exists t, tiles g !! (r, c) = Some t /\ cls ∈ classList t.

(** The key [k] is there and shows the state [st] or a stronger one. *)
Definition keyShows (st : LetterState) (k : string) (g : Game) : Prop :=
  exists cl, keys g !! k = Some cl /\ rank (Some st) <= rank (keyStatus cl).

(** * Properties *)

(** ** Examples *)

Example parseWords_ex :
  parseWords (String.append "crane" (String "010"%char "react")) = ["CRANE"; "REACT"].
Proof. reflexivity. Qed.

Example evaluate_alloy_loyal :
  evaluate "ALLOY" (Js.letters "LOYAL") = [present; present; present; present; present].
Proof. vm_compute. reflexivity. Qed.

Example evaluate_speed_erase :
  evaluate "ERASE" (Js.letters "SPEED") = [present; absent; present; present; absent].
Proof. vm_compute. reflexivity. Qed.

(** ** Strings *)

Section strings.
Implicit Types (s w : string) (a : ascii).

Lemma letters_length s : length (Js.letters s) = Js.length s.
Proof. induction s as [|a s IH]; simpl; [done | by rewrite IH]. Qed.

Lemma join_letters s : Js.join (Js.letters s) = s.
Proof. induction s as [|a s IH]; simpl; [done | by rewrite IH]. Qed.

Lemma letters_inj s w : Js.letters s = Js.letters w -> s = w.
Proof. intros E. by rewrite <- (join_letters s), E, join_letters. Qed.

Lemma upper_ascii_idem a : Js.upper_ascii (Js.upper_ascii a) = Js.upper_ascii a.
Proof. by destruct a as [[] [] [] [] [] [] [] []]. Qed.

Lemma toUpperCase_idem s : Js.toUpperCase (Js.toUpperCase s) = Js.toUpperCase s.
Proof.
  induction s as [|a s IH]; simpl; [done |].
  by rewrite upper_ascii_idem, IH.
Qed.

Lemma toUpperCase_length s : Js.length (Js.toUpperCase s) = Js.length s.
Proof. induction s as [|a s IH]; simpl; [done | by f_equal]. Qed.

Lemma trimStart_length s : Js.length (Js.trimStart s) <= Js.length s.
Proof.
  induction s as [|a s IH]; simpl; [done |].
  destruct (Ascii.is_space a); simpl; unfold Js.length in *; lia.
Qed.

Lemma trimEnd_length s : Js.length (Js.trimEnd s) <= Js.length s.
Proof.
  induction s as [|a s IH]; simpl; [done |].
  unfold Js.length in *.
  destruct (Js.trimEnd s); [destruct (Ascii.is_space a) |]; simpl in *; lia.
Qed.

Lemma trim_length s : Js.length (Js.trim s) <= Js.length s.
Proof.
  unfold Js.trim. etrans; [apply trimEnd_length | apply trimStart_length].
Qed.
End strings.

(** ** The word list *)

Lemma isValidWord_spec (ws : list string) (w : string) :
  isValidWord ws w = true <-> w ∈ ws.
Proof. unfold isValidWord. by rewrite bool_decide_eq_true. Qed.

Lemma elem_of_parseWords (text w : string) :
  w ∈ parseWords text <->
  exists e, e ∈ Js.splitLines text /\ Js.length e = WORD_LENGTH
            /\ w = Js.toUpperCase (Js.trim e).
Proof.
  unfold parseWords. rewrite list_elem_of_fmap. split.
  - intros (e & -> & He). apply list_elem_of_filter in He as [Hlen He]. eauto.
  - intros (e & He & Hlen & ->). exists e. split; [done |].
    by apply list_elem_of_filter.
Qed.

(** What the loader does guarantee of a stored word: it is upper-cased and
    has at most [WORD_LENGTH] characters. *)
Lemma parseWords_upper_short (text w : string) :
  w ∈ parseWords text -> Js.toUpperCase w = w /\ Js.length w <= WORD_LENGTH.
Proof.
  intros (e & _ & Hlen & ->)%elem_of_parseWords. split.
  - apply toUpperCase_idem.
  - rewrite toUpperCase_length, <- Hlen. apply trim_length.
Qed.

(** C7 (the code departs from the claim). The entries are measured before
    they are trimmed: the five characters [abcd ] pass the length test and
    are stored as the four-letter word [ABCD], so not every stored word has
    length [WORD_LENGTH]. *)
Lemma parseWords_stores_short_word :
  parseWords "abcd " = ["ABCD"] /\
  ~ Forall (fun w => Js.length w = WORD_LENGTH) (parseWords "abcd ").
Proof.
  split; [reflexivity |].
  intros H. apply Forall_inv in H. vm_compute in H. discriminate.
Qed.

(** C8, as stated, fails: an empty text and a text with entries of
    different lengths both load without an error. *)
Lemma fetchWords_accepts_any_text :
  fetchWords {| ok := true; body := "" |} = Loaded [] /\
  Js.splitLines ("crane" +:+ LF +:+ "hi") = ["crane"; "hi"] /\
  fetchWords {| ok := true; body := "crane" +:+ LF +:+ "hi" |} = Loaded ["CRANE"].
Proof. repeat split; reflexivity. Qed.

(** C8, amended. Loading fails only when the response is not ok (the
    network error); on every text it produces a list, which holds exactly
    the entries of length [WORD_LENGTH], trimmed and upper-cased. Entries of
    another length are left out without an error. *)
Theorem fetchWords_total (res : Response) :
  match fetchWords res with
  | LoadError msg => ok res = false /\ msg = "Network error loading word list"
  | Loaded words =>
      ok res = true /\
      forall w, w ∈ words <->
        exists e, e ∈ Js.splitLines (body res) /\ Js.length e = WORD_LENGTH
                  /\ w = Js.toUpperCase (Js.trim e)
  end.
Proof.
  unfold fetchWords. destruct (ok res); [| done].
  split; [done |]. intros w. apply elem_of_parseWords.
Qed.

(** C9, as stated, fails: the list loaded from the line [crane] holds
    [CRANE], and the query [crane] is not found although its upper-case form
    is. *)
Lemma isValidWord_case_sensitive :
  ~ (forall w, isValidWord (parseWords "crane") w = true <->
               isValidWord (parseWords "crane") (Js.toUpperCase w) = true).
Proof.
  intros H. destruct (H "crane") as [_ H']. by specialize (H' eq_refl).
Qed.

(** C9, amended. [isValidWord] is exact membership in the stored list, whose
    entries are upper-cased: a word is found if and only if it is its own
    upper-case form and that form is found. *)
Theorem isValidWord_upper_only (text w : string) :
  isValidWord (parseWords text) w = true <->
  Js.toUpperCase w = w /\ isValidWord (parseWords text) (Js.toUpperCase w) = true.
Proof.
  split.
  - intros Hw. apply isValidWord_spec in Hw as Hin.
    destruct (parseWords_upper_short _ _ Hin) as [Hup _].
    by rewrite Hup.
  - by intros [-> ?].
Qed.

(** ** The guess evaluation *)

Lemma forLoop_invariant {A : Type} (P : nat -> A -> Prop) (n : nat)
    (body : A -> nat -> A) (s : A) :
  P 0 s ->
  (forall i s, i < n -> P i s -> P (S i) (body s i)) ->
  P n (forLoop n body s).
Proof.
  unfold forLoop. intros H0 Hstep.
  enough (forall k a s, a + k = n -> P a s -> P n (foldl body s (seq a k))) as H
    by (apply (H n 0 s); [lia | done]).
  clear s H0. induction k as [|k IH]; intros a s Ha Hs; simpl.
  - by replace n with a by lia.
  - apply IH; [lia |]. apply Hstep; [lia | done].
Qed.

Section occ.
Implicit Types (c x : string) (l : list string).

Lemma occ_nil c : occ c [] = 0.
Proof. done. Qed.

Lemma occ_cons c x l :
  occ c (x :: l) = (if bool_decide (x = c) then 1 else 0) + occ c l.
Proof.
  unfold occ. rewrite filter_cons.
  destruct (decide (x = c)) as [->|Hne].
  - by rewrite bool_decide_eq_true_2.
  - by rewrite bool_decide_eq_false_2.
Qed.

Lemma occ_app c l1 l2 : occ c (l1 ++ l2) = occ c l1 + occ c l2.
Proof. unfold occ. by rewrite filter_app, length_app. Qed.

Lemma occ_drop_S c l i : occ c (drop (S i) l) <= occ c (drop i l).
Proof.
  destruct (l !! i) as [x|] eqn:Hx.
  - rewrite (drop_S l x i Hx), occ_cons. lia.
  - apply lookup_ge_None_1 in Hx. rewrite !drop_ge by lia. done.
Qed.

Lemma occ_drop_lookup c l i :
  l !! i = Some c -> occ c (drop i l) = S (occ c (drop (S i) l)).
Proof.
  intros Hx. rewrite (drop_S l c i Hx), occ_cons.
  by rewrite bool_decide_eq_true_2.
Qed.
End occ.

Lemma countLetters_lookup (WORD c : string) :
  countLetters WORD !! c =
    if decide (occurrences c WORD = 0) then None
    else Some (Num (Z.of_nat (occurrences c WORD))).
Proof.
  unfold countLetters, occurrences.
  induction (Js.letters WORD) as [|x l IH] using rev_ind; [done |].
  rewrite foldl_snoc, occ_app, occ_cons, occ_nil.
  destruct (decide (x = c)) as [->|Hne].
  - rewrite lookup_insert_eq, IH, bool_decide_eq_true_2 by done.
    destruct (decide (occ c l = 0)) as [E|E]; simpl.
    + rewrite E. by destruct (decide _).
    + destruct (decide _); [lia |]. do 2 f_equal. lia.
  - rewrite lookup_insert_ne, IH, bool_decide_eq_false_2 by done.
    by replace (occ c l + (0 + 0)) with (occ c l) by lia.
Qed.

Lemma marked_nil_states (c : string) (guessArr : list string) :
  marked c guessArr [] = 0.
Proof. by destruct guessArr. Qed.

Lemma marked_replicate_absent (c : string) (guessArr : list string) (n : nat) :
  marked c guessArr (replicate n absent) = 0.
Proof.
  revert n. induction guessArr as [|x g IH]; intros [|n]; simpl; try done.
  rewrite IH. case_bool_decide; [tauto | done].
Qed.

(** Marking a position that was [absent] adds one to the count of its
    letter, and nothing to the others. *)
Lemma marked_insert (c x : string) (guessArr : list string)
    (states : list LetterState) (i : nat) (st : LetterState) :
  guessArr !! i = Some x -> states !! i = Some absent -> st <> absent ->
  marked c guessArr (<[i := st]> states) =
    marked c guessArr states + (if bool_decide (x = c) then 1 else 0).
Proof.
  revert states i. induction guessArr as [|y g IH]; intros [|s states] [|i] Hg Hs Hst;
    simplify_eq/=.
  - repeat case_bool_decide; try lia; intuition congruence.
  - rewrite (IH states i) by done. lia.
Qed.

Lemma decrement_lookup (k c : string) (n : Z) (letterCount : gmap string JsNum) :
  letterCount !! k = Some (Num n) ->
  decrement k letterCount !! c =
    if decide (k = c) then Some (Num (n - 1)) else letterCount !! c.
Proof.
  intros Hk. unfold decrement. rewrite Hk.
  destruct (decide (k = c)) as [->|Hne].
  - by rewrite lookup_insert_eq.
  - by rewrite lookup_insert_ne.
Qed.

Section evaluation.
Variables (WORD : string) (guessArr : list string).
Hypothesis guess_length : length guessArr = WORD_LENGTH.

Lemma firstInv_init :
  firstInv WORD guessArr 0 (replicate WORD_LENGTH absent, countLetters WORD).
Proof.
  split; [done |]. split; [| split]; cbn [fst snd].
  - intros j Hj. rewrite bool_decide_eq_false_2 by lia.
    by apply lookup_replicate_2.
  - intros c. rewrite countLetters_lookup, marked_replicate_absent.
    destruct (decide _); [done |]. do 2 f_equal. lia.
  - intros c. rewrite marked_replicate_absent. unfold occurrences.
    rewrite drop_0. lia.
Qed.

Lemma firstInv_step i acc :
  i < WORD_LENGTH -> firstInv WORD guessArr i acc -> firstInv WORD guessArr (S i) (firstPass WORD guessArr acc i).
Proof.
  destruct acc as [states letterCount].
  intros Hi (Hlen & Hst & Hlc & Hocc); cbn [fst snd] in *.
  destruct (lookup_lt_is_Some_2 guessArr i) as [x Hx]; [lia |].
  assert (states !! i = Some absent) as Habs.
  { rewrite Hst by done. by rewrite bool_decide_eq_false_2 by lia. }
  unfold firstPass, strictEq. case_bool_decide as Heq.
  - rewrite Hx in Heq. symmetry in Heq.
    assert (occurrences x WORD <> 0) as Hpos.
    { specialize (Hocc x). rewrite (occ_drop_lookup _ _ _ Heq) in Hocc. lia. }
    split; [| split; [| split]]; cbn [fst snd].
    + by rewrite length_insert.
    + intros j Hj. destruct (decide (i = j)) as [<-|Hne].
      * rewrite list_lookup_insert_eq by lia.
        rewrite bool_decide_eq_true_2; [done |]. split; [lia | congruence].
      * rewrite list_lookup_insert_ne, Hst by done.
        by rewrite (bool_decide_ext (j < i /\ guessArr !! j = Js.letters WORD !! j)
                      (j < S i /\ guessArr !! j = Js.letters WORD !! j))
          by (intuition lia).
    + intros c. rewrite Hx. change (propKey (Some x)) with x.
      specialize (Hlc x) as Hlx.
      destruct (decide (occurrences x WORD = 0)); [done |].
      rewrite (decrement_lookup _ _ _ _ Hlx), (marked_insert c x) by done.
      destruct (decide (x = c)) as [->|Hne].
      * destruct (decide _); [done |].
        rewrite bool_decide_eq_true_2 by done. do 2 f_equal. lia.
      * rewrite Hlc, bool_decide_eq_false_2 by done.
        destruct (decide _); [done |]. do 2 f_equal. lia.
    + intros c. rewrite (marked_insert c x) by done. specialize (Hocc c).
      case_bool_decide as Hc.
      * subst c. rewrite (occ_drop_lookup _ _ _ Heq) in Hocc. lia.
      * pose proof (occ_drop_S c (Js.letters WORD) i). lia.
  - split; [done |]. split; [| split; [done |]]; cbn [fst snd].
    + intros j Hj. rewrite Hst by done.
      rewrite (bool_decide_ext (j < i /\ guessArr !! j = Js.letters WORD !! j)
                 (j < S i /\ guessArr !! j = Js.letters WORD !! j)); [done |].
      split; [intuition lia |].
      intros [Hlt Hj']. split; [| done].
      destruct (decide (j = i)) as [->|]; [done | lia].
    + intros c. pose proof (occ_drop_S c (Js.letters WORD) i).
      specialize (Hocc c). lia.
Qed.

Lemma firstInv_end acc : firstInv WORD guessArr WORD_LENGTH acc -> secondInv WORD guessArr acc.
Proof.
  intros (Hlen & Hst & Hlc & Hocc).
  split; [done |]. split; [| split; [done |]].
  - intros j. split.
    + intros H. apply lookup_lt_Some in H as Hj. rewrite Hlen in Hj.
      rewrite Hst in H by done. case_bool_decide; [tauto | done].
    + intros [Hj Heq]. rewrite Hst by done.
      by rewrite bool_decide_eq_true_2.
  - intros c. specialize (Hocc c). lia.
Qed.

Lemma secondInv_step i acc :
  i < WORD_LENGTH -> secondInv WORD guessArr acc -> secondInv WORD guessArr (secondPass guessArr acc i).
Proof.
  destruct acc as [states letterCount].
  intros Hi (Hlen & Hst & Hlc & Hocc); cbn [fst snd] in *.
  destruct (lookup_lt_is_Some_2 guessArr i) as [x Hx]; [lia |].
  assert (secondInv WORD guessArr (states, letterCount)) as Hsame by done.
  unfold secondPass. rewrite Hx. change (propKey (Some x)) with x.
  case_bool_decide as Habs; cbn [andb]; [| exact Hsame].
  destruct (isPositive (letterCount !! x)) eqn:Hgt; [| exact Hsame].
  clear Hsame.
  specialize (Hlc x) as Hlx. rewrite Hlx in Hgt.
  destruct (decide (occurrences x WORD = 0)); [done |]. cbn in Hgt.
  apply Z.ltb_lt in Hgt.
  split; [| split; [| split]]; cbn [fst snd].
  - by rewrite length_insert.
  - intros j. destruct (decide (i = j)) as [<-|Hne].
    + rewrite list_lookup_insert_eq by lia. rewrite <- Hst, Habs. done.
    + rewrite list_lookup_insert_ne by done. apply Hst.
  - intros c. rewrite (decrement_lookup _ _ _ _ Hlx), (marked_insert c x) by done.
    destruct (decide (x = c)) as [->|Hne].
    + destruct (decide _); [done |].
      rewrite bool_decide_eq_true_2 by done. do 2 f_equal. lia.
    + rewrite Hlc, bool_decide_eq_false_2 by done.
      destruct (decide _); [done |]. do 2 f_equal. lia.
  - intros c. rewrite (marked_insert c x) by done. specialize (Hocc c).
    case_bool_decide as Hc; [subst c |]; lia.
Qed.

(** What the two loops establish together. *)
Lemma evaluate_invariant :
  length (evaluate WORD guessArr) = WORD_LENGTH /\
  (forall j, evaluate WORD guessArr !! j = Some correct <->
             j < WORD_LENGTH /\ guessArr !! j = Js.letters WORD !! j) /\
  (forall c, marked c guessArr (evaluate WORD guessArr) <= occurrences c WORD).
Proof.
  unfold evaluate.
  set (first := forLoop _ (firstPass _ _) _).
  assert (secondInv WORD guessArr first) as Hfirst.
  { apply firstInv_end. apply (forLoop_invariant (firstInv WORD guessArr)).
    - apply firstInv_init.
    - apply firstInv_step. }
  pose proof (forLoop_invariant (fun _ => secondInv WORD guessArr) WORD_LENGTH
                (secondPass guessArr) first Hfirst secondInv_step) as H.
  destruct H as (Hlen & Hst & _ & Hocc). done.
Qed.

End evaluation.

Lemma evaluate_length (WORD : string) (guessArr : list string) :
  length guessArr = WORD_LENGTH -> length (evaluate WORD guessArr) = WORD_LENGTH.
Proof. intros H. apply (evaluate_invariant WORD guessArr H). Qed.

(** A position is [correct] exactly when the guess has the letter of the
    word there. *)
Lemma evaluate_correct_iff (WORD : string) (guessArr : list string) (j : nat) :
  length guessArr = WORD_LENGTH ->
  evaluate WORD guessArr !! j = Some correct <->
  j < WORD_LENGTH /\ guessArr !! j = Js.letters WORD !! j.
Proof. intros H. apply (evaluate_invariant WORD guessArr H). Qed.

(** C1. For every word and every guess of [WORD_LENGTH] letters, and for
    every letter [c], the positions of the result that are [correct] or
    [present] and hold [c] in the guess are at most as many as the
    occurrences of [c] in the word. *)
Theorem evaluate_conservation (WORD : string) (guessArr : list string) (c : string) :
  Js.length WORD = WORD_LENGTH ->
  length guessArr = WORD_LENGTH ->
  marked c guessArr (evaluate WORD guessArr) <= occurrences c WORD.
Proof. intros _ H. apply (evaluate_invariant WORD guessArr H). Qed.

Lemma evaluate_conservation_witness :
  Js.length "ALLOY" = WORD_LENGTH /\
  length (Js.letters "LLAMA") = WORD_LENGTH /\
  marked "L" (Js.letters "LLAMA") (evaluate "ALLOY" (Js.letters "LLAMA"))
    <= occurrences "L" "ALLOY".
Proof.
  split; [reflexivity |]. split; [reflexivity |].
  apply (evaluate_conservation "ALLOY" (Js.letters "LLAMA") "L"); reflexivity.
Defined.

(** C2. Against the word CRANE, the guess REACT is marked present, present,
    correct, present, absent. *)
Theorem evaluate_crane_react :
  evaluate "CRANE" (Js.letters "REACT") = [present; present; correct; present; absent].
Proof. vm_compute. reflexivity. Qed.

(** C6. A word of [WORD_LENGTH] letters guessed against itself is [correct]
    at every position. *)
Theorem evaluate_self (W : string) :
  Js.length W = WORD_LENGTH ->
  evaluate W (Js.letters W) = replicate WORD_LENGTH correct.
Proof.
  intros HW.
  assert (length (Js.letters W) = WORD_LENGTH) as Hlen by by rewrite letters_length.
  apply (list_eq_same_length _ _ WORD_LENGTH).
  - apply length_replicate.
  - by apply evaluate_length.
  - intros j x y Hj Hx Hy.
    apply lookup_replicate_1 in Hy as [-> _].
    assert (evaluate W (Js.letters W) !! j = Some correct) as Hc
      by by apply evaluate_correct_iff.
    congruence.
Qed.

Lemma evaluate_self_witness :
  Js.length "CRANE" = WORD_LENGTH /\
  evaluate "CRANE" (Js.letters "CRANE") = replicate WORD_LENGTH correct.
Proof. split; [reflexivity |]. apply (evaluate_self "CRANE"). reflexivity. Defined.

(** C10. When every position of the result is [correct], for a word and a
    guess of [WORD_LENGTH] letters, the guess word that the win test
    compares ([guessArr.join('')]) is the word. *)
Theorem evaluate_all_correct_is_word (WORD : string) (guessArr : list string) :
  Js.length WORD = WORD_LENGTH ->
  length guessArr = WORD_LENGTH ->
  evaluate WORD guessArr = replicate WORD_LENGTH correct ->
  Js.join guessArr = WORD.
Proof.
  intros HW Hg Hall.
  enough (guessArr = Js.letters WORD) as -> by apply join_letters.
  apply (list_eq_same_length _ _ WORD_LENGTH); [by rewrite letters_length | done |].
  intros j x y Hj Hx Hy.
  assert (evaluate WORD guessArr !! j = Some correct) as Hc.
  { rewrite Hall. by apply lookup_replicate_2. }
  apply evaluate_correct_iff in Hc as [_ Heq]; [| done]. congruence.
Qed.

Lemma evaluate_all_correct_is_word_witness :
  Js.length "CRANE" = WORD_LENGTH /\
  length (Js.letters "CRANE") = WORD_LENGTH /\
  evaluate "CRANE" (Js.letters "CRANE") = replicate WORD_LENGTH correct /\
  Js.join (Js.letters "CRANE") = "CRANE".
Proof.
  split; [reflexivity |]. split; [reflexivity |].
  split; [vm_compute; reflexivity |].
  apply (evaluate_all_correct_is_word "CRANE" (Js.letters "CRANE"));
    [reflexivity | reflexivity | vm_compute; reflexivity].
Defined.

(** ** The keyboard *)

(** One merge takes the maximum of the status the key shows and the
    observed one. *)
Lemma mergeKey_max (st : LetterState) (cl : gset string) :
  keyStatus (mergeKey st cl) = maxStatus (keyStatus cl) (Some st).
Proof.
  unfold keyStatus, mergeKey.
  destruct st; repeat (case_bool_decide; cbn [orb]); try done; set_solver.
Qed.

Lemma maxStatus_correct (s : option LetterState) :
  maxStatus (Some correct) s = Some correct.
Proof. by destruct s as [[]|]. Qed.

Lemma foldl_maxStatus_correct (l : list (option LetterState)) :
  foldl maxStatus (Some correct) l = Some correct.
Proof. induction l as [|s l IH]; simpl; [done |]. by rewrite maxStatus_correct. Qed.

Lemma updateKey_lookup (st : LetterState) (letter k : string) (g : Game) :
  keys (updateKey st letter g) !! k =
    if Js.selectorSafe (Js.toLowerCase letter) && bool_decide (Js.toLowerCase letter = k)
    then mergeKey st <$> keys g !! k
    else keys g !! k.
Proof.
  unfold updateKey; cbn. destruct (Js.selectorSafe _); [| done].
  cbn [andb]. case_bool_decide as Heq.
  - subst k. by rewrite lookup_alter_eq.
  - by rewrite lookup_alter_ne.
Qed.

(** A key carries at most one of the three state classes, once it carries
    none (as after [resetGame]); so the status it shows is not in doubt. *)
Lemma mergeKey_one_class (st : LetterState) (cl : gset string) :
  (forall a b, a ∈ stateClasses -> b ∈ stateClasses -> a ∈ cl -> b ∈ cl -> a = b) ->
  forall a b, a ∈ stateClasses -> b ∈ stateClasses ->
              a ∈ mergeKey st cl -> b ∈ mergeKey st cl -> a = b.
Proof.
  intros Hone a b Ha Hb. unfold mergeKey, stateClasses in *.
  destruct st; repeat case_bool_decide; cbn [orb]; set_solver.
Qed.

Lemma mergeKey_otherClasses st cl : otherClasses (mergeKey st cl) = otherClasses cl.
Proof.
  unfold otherClasses, stateClasses, mergeKey.
  destruct st; repeat case_bool_decide; cbn [orb]; set_solver.
Qed.

Lemma rank_maxStatus a b : rank a <= rank (maxStatus a b).
Proof. unfold maxStatus. destruct (rank a <? rank b) eqn:H; [apply Nat.ltb_lt in H |]; lia. Qed.

Lemma keyStatus_correct cl : keyStatus cl = Some correct <-> "correct" ∈ cl.
Proof. unfold keyStatus. repeat case_bool_decide; split; done. Qed.

(** A key that is [correct] is not written by a merge, but for a
    [present] or [absent] it should not have had, which the merge of a
    [correct] takes off. *)
Lemma mergeKey_correct st cl :
  "correct" ∈ cl ->
  "correct" ∈ mergeKey st cl /\ mergeKey st cl ⊆ cl /\
  (oneClass cl -> mergeKey st cl = cl).
Proof.
  intros Hc. unfold mergeKey.
  destruct st; rewrite ?bool_decide_eq_true_2 by done; cbn [orb];
    [done | done |].
  split; [set_solver |]. split; [set_solver |]. intros Hone.
  assert ("present" ∉ cl) as Hp.
  { intros Hin. unfold oneClass, stateClasses in Hone.
    assert ("present" = "correct") as Heq by (apply Hone; set_solver). done. }
  assert ("absent" ∉ cl) as Ha.
  { intros Hin. unfold oneClass, stateClasses in Hone.
    assert ("absent" = "correct") as Heq by (apply Hone; set_solver). done. }
  clear Hone. set_solver.
Qed.

Lemma mergeAll_keys obs g : keys (mergeAll obs g) = foldl mergeStep (keys g) obs.
Proof.
  revert g. induction obs as [|o obs IH]; intros g; [done |].
  exact (IH (updateKey o.1 o.2 g)).
Qed.

Lemma mergeStep_lookup km o k :
  mergeStep km o !! k =
    if Js.selectorSafe (Js.toLowerCase o.2) && bool_decide (Js.toLowerCase o.2 = k)
    then mergeKey o.1 <$> km !! k
    else km !! k.
Proof.
  unfold mergeStep. destruct (Js.selectorSafe _); [| done].
  cbn [andb]. case_bool_decide as Heq.
  - subst k. by rewrite lookup_alter_eq.
  - by rewrite lookup_alter_ne.
Qed.

(** What a sequence of merges does to a key. *)
Lemma foldl_mergeStep_lookup obs : forall km k cl,
  km !! k = Some cl ->
  exists cl', foldl mergeStep km obs !! k = Some cl' /\
              rank (keyStatus cl) <= rank (keyStatus cl') /\
              otherClasses cl' = otherClasses cl /\
              (oneClass cl -> oneClass cl').
Proof.
  induction obs as [|o obs IH]; intros km k cl Hk; [by exists cl |].
  cbn [foldl]. pose proof (mergeStep_lookup km o k) as Hstep. rewrite Hk in Hstep.
  destruct (_ && _).
  - destruct (IH _ k _ Hstep) as (cl' & Hl & Hr & Ho & H1).
    exists cl'. split; [done |]. split; [| split].
    + rewrite mergeKey_max in Hr. pose proof (rank_maxStatus (keyStatus cl) (Some o.1)). lia.
    + by rewrite Ho, mergeKey_otherClasses.
    + intros H. apply H1. exact (mergeKey_one_class o.1 cl H).
  - by apply IH.
Qed.

(** What it does to a key that is [correct]. *)
Lemma foldl_mergeStep_correct obs : forall km k cl,
  km !! k = Some cl -> "correct" ∈ cl ->
  exists cl', foldl mergeStep km obs !! k = Some cl' /\
              "correct" ∈ cl' /\ cl' ⊆ cl /\ (oneClass cl -> cl' = cl).
Proof.
  induction obs as [|o obs IH]; intros km k cl Hk Hc; [by exists cl |].
  cbn [foldl]. pose proof (mergeStep_lookup km o k) as Hstep. rewrite Hk in Hstep.
  destruct (_ && _); [| by apply IH].
  destruct (mergeKey_correct o.1 cl Hc) as (Hc1 & Hsub1 & Heq1).
  destruct (IH _ k _ Hstep Hc1) as (cl' & Hl & Hc' & Hsub & Heq).
  exists cl'. split; [done |]. split; [done |]. split; [set_solver |].
  intros Hone. specialize (Heq1 Hone). rewrite Heq1 in Heq. by apply Heq.
Qed.

(** The status it leaves a key with, when the letters leave the selector
    intact. *)
Lemma foldl_mergeStep_status obs : forall km k cl,
  Forall (fun o => Js.selectorSafe (Js.toLowerCase o.2) = true) obs ->
  km !! k = Some cl ->
  exists cl', foldl mergeStep km obs !! k = Some cl' /\
              keyStatus cl' = foldl maxStatus (keyStatus cl) (observedFor k obs).
Proof.
  induction obs as [|o obs IH]; intros km k cl Hsafe Hk; [by exists cl |].
  apply Forall_cons in Hsafe as [Ho Hsafe].
  cbn [foldl]. pose proof (mergeStep_lookup km o k) as Hstep.
  rewrite Hk, Ho in Hstep. cbn [andb] in Hstep.
  unfold observedFor. rewrite filter_cons.
  destruct (decide (Js.toLowerCase o.2 = k)) as [Heq|Hne].
  - rewrite bool_decide_eq_true_2 in Hstep by done.
    destruct (IH _ k _ Hsafe Hstep) as (cl' & Hl & Hmax). exists cl'.
    split; [done |]. rewrite Hmax, mergeKey_max. done.
  - rewrite bool_decide_eq_false_2 in Hstep by done.
    destruct (IH _ k _ Hsafe Hstep) as (cl' & Hl & Hmax). by exists cl'.
Qed.

Lemma foldl_mergeStep_dom obs : forall km, dom (foldl mergeStep km obs) = dom km.
Proof.
  induction obs as [|o obs IH]; intros km; [done |].
  cbn [foldl]. rewrite IH. unfold mergeStep.
  destruct (Js.selectorSafe _); [| done]. by rewrite dom_alter_L.
Qed.

(** C5. The keyboard is merged monotonically under
    [absent < present < correct]. After any sequence of observations a key
    is still there, the rank of the status it shows has not gone down, its
    classes other than the three state classes are as they were, and if it
    had at most one state class it still has. A key that shows [correct]
    keeps showing it and gets no class it did not have; when [correct] was
    its only state class, its class list is not written at all. When the
    letters observed leave the selector of line 248 intact, the status the
    key shows is the maximum of what it showed before and of the states
    observed for it (each single merge takes the maximum of the existing and
    the candidate status). *)
Theorem keyboard_monotone (g : Game) (obs : list (LetterState * string))
    (k : string) (cl : gset string) :
  keys g !! k = Some cl ->
  exists cl',
    keys (mergeAll obs g) !! k = Some cl' /\
    (Forall (fun o => Js.selectorSafe (Js.toLowerCase o.2) = true) obs ->
     keyStatus cl' = foldl maxStatus (keyStatus cl) (observedFor k obs)) /\
    rank (keyStatus cl) <= rank (keyStatus cl') /\
    otherClasses cl' = otherClasses cl /\
    (oneClass cl -> oneClass cl') /\
    (keyStatus cl = Some correct ->
     keyStatus cl' = Some correct /\ cl' ⊆ cl /\ (oneClass cl -> cl' = cl)).
Proof.
  intros Hk. rewrite mergeAll_keys.
  destruct (foldl_mergeStep_lookup obs _ k cl Hk) as (cl' & Hl & Hr & Ho & H1).
  exists cl'. split; [done |]. split; [| split; [done | split; [done | split; [done |]]]].
  - intros Hsafe.
    destruct (foldl_mergeStep_status obs _ k cl Hsafe Hk) as (cl2 & Hl2 & Hmax).
    assert (cl2 = cl') as -> by congruence. done.
  - intros Hc. apply keyStatus_correct in Hc.
    destruct (foldl_mergeStep_correct obs _ k cl Hk Hc) as (cl2 & Hl2 & Hc2 & Hsub & Heq).
    assert (cl2 = cl') as -> by congruence.
    split; [by apply keyStatus_correct | done].
Qed.

Lemma keyboard_monotone_witness :
  let cl : gset string := {["key"; "correct"]} in
  let g := pageLoaded [] {["a" := cl]} in
  let obs := [(absent, "A"); (present, "A"); (correct, "A"); (absent, "A")] in
  keys g !! "a" = Some cl /\
  keys (mergeAll obs g) !! "a" = Some cl.
Proof.
  assert (keys (pageLoaded [] {["a" := {["key"; "correct"]}]}) !! "a"
          = Some ({["key"; "correct"]} : gset string)) as Hk by reflexivity.
  split; [exact Hk |].
  destruct (keyboard_monotone (pageLoaded [] {["a" := {["key"; "correct"]}]})
              [(absent, "A"); (present, "A"); (correct, "A"); (absent, "A")]
              "a" {["key"; "correct"]} Hk)
    as (cl' & Hl & _ & _ & _ & _ & Hc).
  assert (keyStatus ({["key"; "correct"]} : gset string) = Some correct) as Hstatus
    by (vm_compute; reflexivity).
  assert (oneClass ({["key"; "correct"]} : gset string)) as Hone.
  { intros a b Ha Hb Hina Hinb. unfold stateClasses in *. set_solver. }
  destruct (Hc Hstatus) as (_ & _ & Heq). rewrite (Heq Hone) in Hl. exact Hl.
Defined.

(** The callbacks and the handlers change the keyboard by merges only: the
    callback of a position merges its letter, and nothing else touches a
    key. *)
Lemma fire_keys (t : Timer) (g : Game) :
  keys (fire t g).1 =
    match t with
    | Reveal _ st letter => keys (updateKey st letter g)
    | _ => keys g
    end.
Proof.
  destruct t; try reflexivity.
  unfold fire, endAnimation; cbv zeta. by repeat case_bool_decide.
Qed.

Lemma submitGuess_keys (g : Game) : keys (submitGuess g).1 = keys g.
Proof.
  unfold submitGuess. destruct (isAnimating g); [done |].
  destruct (negb _); [done |]. cbv zeta. destruct (negb _); [done |].
  by destruct (WORD g).
Qed.

Lemma handle_keys (g : Game) (e : Event) : keys (handle g e).1 = keys g.
Proof.
  assert (forall letter, keys (addLetter letter g) = keys g) as Hadd.
  { intros letter. unfold addLetter. by destruct (_ && _). }
  assert (keys (deleteLetter g) = keys g) as Hdel.
  { unfold deleteLetter. by destruct (_ && _). }
  destruct e as [key | k | |]; cbn [handle]; try done;
    destruct (inputIgnored g); try done.
  - destruct (_ && _); [done |].
    destruct (bool_decide _); [apply submitGuess_keys |].
    destruct (bool_decide _); [exact Hdel |].
    destruct (Js.isLetter key); [apply Hadd | done].
  - destruct (bool_decide _); [apply submitGuess_keys |].
    destruct (bool_decide _); [exact Hdel | apply Hadd].
Qed.

Lemma mergeAll_app obs1 obs2 g :
  mergeAll (obs1 ++ obs2) g = mergeAll obs2 (mergeAll obs1 g).
Proof. unfold mergeAll. by rewrite foldl_app. Qed.

Lemma fireUntil_keys fuel target p :
  exists obs, keys (game (fireUntil fuel target p)) = keys (mergeAll obs (game p)).
Proof.
  revert p. induction fuel as [|fuel IH]; intros p; [by exists [] |].
  cbn [fireUntil]. destruct (pending p) as [|[due t] rest]; [by exists [] |].
  destruct (due <=? target); [| by exists []].
  pose proof (fire_keys t (game p)) as Hk.
  destruct (fire t (game p)) as [g started]. cbn [fst] in Hk.
  destruct (IH {| game := g; clock := due; pending := schedule due started rest |})
    as [obs Hobs].
  rewrite Hobs. cbn [game]. rewrite !mergeAll_keys, Hk.
  destruct t as [| i st letter | | | | |];
    [exists obs | exists ((st, letter) :: obs) | exists obs ..];
    by rewrite mergeAll_keys.
Qed.

(** Along any run the keyboard is the one the run started with, after a
    sequence of merges. So [keyboard_monotone] speaks of every keyboard the
    script can show. *)
Lemma run_keys (events : list (nat * Event)) : forall (p : Page) (delay : nat),
  exists obs,
    keys (game (advance delay (run p events))) = keys (mergeAll obs (game p)).
Proof.
  induction events as [|[d e] events IH]; intros p delay.
  - apply fireUntil_keys.
  - cbn [run foldl fst snd]. 
    destruct (IH (handleNow (advance d p) e) delay) as [obs2 H2].
    unfold run in H2. rewrite H2.
    unfold handleNow. pose proof (handle_keys (game (advance d p)) e) as Hh.
    destruct (handle (game (advance d p)) e) as [g started]. cbn [fst game] in *.
    destruct (fireUntil_keys (S (totalWeight (pending p))) (clock p + d) p)
      as [obs1 H1].
    fold (advance d p) in H1.
    exists (obs1 ++ obs2). rewrite mergeAll_app, !mergeAll_keys, Hh, H1.
    by rewrite mergeAll_keys.
Qed.

(** ** The event loop *)

Lemma totalWeight_insert due t timers :
  totalWeight (insertTimer due t timers) = weight t + totalWeight timers.
Proof.
  unfold totalWeight. induction timers as [|[due' t'] rest IH]; cbn; [lia |].
  destruct (due' <=? due); cbn; [rewrite IH |]; lia.
Qed.

Lemma totalWeight_schedule now started timers :
  totalWeight (schedule now started timers) = totalWeight started + totalWeight timers.
Proof.
  unfold schedule. revert timers.
  induction started as [|[d t] started IH]; intros timers; cbn [foldl]; [done |].
  rewrite IH, totalWeight_insert. unfold totalWeight. cbn. lia.
Qed.

(** A callback starts less than it weighs. *)
Lemma fire_weight t g : totalWeight (fire t g).2 < weight t.
Proof.
  destruct t; cbn; try lia.
  unfold endAnimation; cbv zeta. repeat case_bool_decide; cbn; lia.
Qed.

Lemma sortedFrom_weaken lo lo' timers :
  lo' <= lo -> sortedFrom lo timers -> sortedFrom lo' timers.
Proof. destruct timers as [|[due t] rest]; cbn; [done |]. intros ? [? ?]. split; [lia | done]. Qed.

Lemma sortedFrom_Forall lo timers :
  sortedFrom lo timers -> Forall (fun dt => lo <= dt.1) timers.
Proof.
  revert lo. induction timers as [|[due t] rest IH]; intros lo; cbn; [done |].
  intros [Hlo Hrest]. constructor; [done |].
  eapply Forall_impl; [by apply IH |]. cbn. intros; lia.
Qed.

Lemma sortedFrom_insert lo due t timers :
  lo <= due -> sortedFrom lo timers -> sortedFrom lo (insertTimer due t timers).
Proof.
  revert lo. induction timers as [|[due' t'] rest IH]; intros lo Hlo; cbn [insertTimer].
  - done.
  - intros [Hlo' Hrest]. destruct (due' <=? due) eqn:Hle.
    + apply Nat.leb_le in Hle. cbn. split; [done |]. by apply IH.
    + apply Nat.leb_gt in Hle. cbn. split; [done |]. split; [lia | done].
Qed.

Lemma sortedFrom_schedule lo now started timers :
  lo <= now -> sortedFrom lo timers -> sortedFrom lo (schedule now started timers).
Proof.
  intros Hlo. unfold schedule. revert timers.
  induction started as [|[d t] started IH]; intros timers Hs; cbn [foldl]; [done |].
  apply IH. apply sortedFrom_insert; [cbn; lia | done].
Qed.

Lemma fireUntil_fires_all fuel target p :
  totalWeight (pending p) < fuel ->
  sortedFrom (clock p) (pending p) ->
  clock p <= target ->
  clock (fireUntil fuel target p) = target /\
  sortedFrom target (pending (fireUntil fuel target p)) /\
  Forall (fun dt => target < dt.1) (pending (fireUntil fuel target p)).
Proof.
  revert p. induction fuel as [|fuel IH]; intros p Hfuel Hsorted Hclock; [lia |].
  cbn [fireUntil]. destruct (pending p) as [|[due t] rest] eqn:Hp; [done |].
  destruct Hsorted as [Hdue Hrest].
  destruct (due <=? target) eqn:Hle.
  - apply Nat.leb_le in Hle. pose proof (fire_weight t (game p)) as Hw.
    destruct (fire t (game p)) as [g started]. cbn [snd] in Hw.
    apply IH; cbn [pending clock].
    + rewrite totalWeight_schedule. unfold totalWeight in *. cbn in Hfuel. lia.
    + by apply sortedFrom_schedule.
    + done.
  - apply Nat.leb_gt in Hle. cbn [clock pending].
    split; [done |]. split; [cbn; split; [lia | done] |].
    constructor; [done |].
    eapply Forall_impl; [by apply sortedFrom_Forall |]. cbn. intros; lia.
Qed.

(** When the time [delay] has passed, every timer that was due has fired:
    what is still pending is due later. The bound [fireUntil] recurses on
    is enough. *)
Theorem advance_fires_all (p : Page) (delay : nat) :
  sortedFrom (clock p) (pending p) ->
  clock (advance delay p) = clock p + delay /\
  sortedFrom (clock p + delay) (pending (advance delay p)) /\
  Forall (fun dt => clock p + delay < dt.1) (pending (advance delay p)).
Proof. intros Hs. apply fireUntil_fires_all; [lia | done | lia]. Qed.

Lemma handleNow_sorted p e :
  sortedFrom (clock p) (pending p) ->
  sortedFrom (clock (handleNow p e)) (pending (handleNow p e)).
Proof.
  intros Hs. unfold handleNow. destruct (handle (game p) e) as [g started].
  cbn [clock pending]. by apply sortedFrom_schedule.
Qed.

(** Along a run the pending timers stay in the order of their due times. *)
Lemma run_sorted events : forall p,
  sortedFrom (clock p) (pending p) ->
  sortedFrom (clock (run p events)) (pending (run p events)).
Proof.
  induction events as [|[d e] events IH]; intros p Hs; [done |].
  cbn [run foldl fst snd]. apply IH. apply handleNow_sorted.
  destruct (advance_fires_all p d Hs) as (-> & Hs' & _). done.
Qed.

(** ** Every element the script looks up is there *)

Lemma forLoop_preserves {A B : Type} (proj : A -> B) (n : nat)
    (body : A -> nat -> A) (s : A) :
  (forall s i, proj (body s i) = proj s) ->
  proj (forLoop n body s) = proj s.
Proof.
  intros Hbody.
  apply (forLoop_invariant (fun _ s' => proj s' = proj s)); [done |].
  intros i s' _ <-. apply Hbody.
Qed.

Lemma withTile_shape r c f g : shape (withTile r c f g) = shape g.
Proof. unfold shape, withTile; cbn. by rewrite dom_alter_L. Qed.

Lemma wellFormed_shape g g' : shape g' = shape g -> wellFormed g -> wellFormed g'.
Proof. unfold wellFormed, shape. intros [= -> -> ->]. done. Qed.

Lemma gridIds_list :
  gridIds =
  list_to_set (r ← seq 0 MAX_GUESSES; (fun c => (r, c)) <$> seq 0 WORD_LENGTH).
Proof. by vm_compute. Qed.

Lemma gridIds_elem r c :
  (r, c) ∈ gridIds <-> r < MAX_GUESSES /\ c < WORD_LENGTH.
Proof.
  rewrite gridIds_list, elem_of_list_to_set, list_elem_of_bind. split.
  - intros (r' & Hin & Hr').
    apply list_elem_of_fmap in Hin as (c' & [= -> ->] & Hc').
    apply elem_of_seq in Hr', Hc'. lia.
  - intros [Hr Hc]. exists r. split; [| apply elem_of_seq; lia].
    apply list_elem_of_fmap. exists c. split; [done |]. apply elem_of_seq. lia.
Qed.

Lemma wellFormed_pageLoaded words keyboard : wellFormed (pageLoaded words keyboard).
Proof. split; [done |]. cbn. unfold MAX_GUESSES, WORD_LENGTH. lia. Qed.

Lemma clearTiles_shape g : shape (clearTiles g) = shape g.
Proof.
  unfold clearTiles. apply (forLoop_preserves shape). intros s r.
  apply (forLoop_preserves shape). intros s' c. apply withTile_shape.
Qed.

Lemma shape_set_WORD v g : shape (set_WORD v g) = shape g.
Proof. reflexivity. Qed.
Lemma shape_set_message v g : shape (set_message v g) = shape g.
Proof. reflexivity. Qed.
Lemma shape_set_keys v g : shape (set_keys v g) = shape g.
Proof. reflexivity. Qed.
Lemma shape_set_gameOver v g : shape (set_gameOver v g) = shape g.
Proof. reflexivity. Qed.
Lemma shape_set_isAnimating v g : shape (set_isAnimating v g) = shape g.
Proof. reflexivity. Qed.

Lemma resetGame_shape idx g : shape (resetGame idx g) = (dom (tiles g), 0, 0).
Proof.
  unfold resetGame, chooseNewWord. cbv zeta.
  by rewrite shape_set_WORD, shape_set_message, shape_set_keys, clearTiles_shape.
Qed.

Lemma shape_eq g d r c :
  shape g = (d, r, c) -> dom (tiles g) = d /\ currentRow g = r /\ currentTile g = c.
Proof. unfold shape. by intros [= -> -> ->]. Qed.

Lemma wellFormed_resetGame idx g :
  dom (tiles g) = gridIds -> wellFormed (resetGame idx g).
Proof.
  intros Hdom.
  destruct (shape_eq _ _ _ _ (resetGame_shape idx g)) as (Ht & Hr & Hc).
  unfold wellFormed. rewrite Ht, Hr, Hc, Hdom.
  unfold MAX_GUESSES, WORD_LENGTH. repeat split; lia.
Qed.

Lemma wellFormed_fire t g : wellFormed g -> wellFormed (fire t g).1.
Proof.
  intros Hwf. destruct t as [| i st letter | r i st | guessWord | r i | |];
    cbn [fire fst]; try done.
  - apply (wellFormed_shape g); [| done].
    unfold revealLetter, updateKey. cbn [fst].
    by rewrite shape_set_keys, withTile_shape.
  - apply (wellFormed_shape g); [apply withTile_shape | done].
  - unfold endAnimation; cbv zeta. repeat case_bool_decide; cbn [fst]; try done.
    destruct Hwf as (Hdom & Hrow & Htile). split; [done |].
    cbn [currentRow currentTile set_currentTile set_currentRow set_isAnimating] in *.
    unfold MAX_GUESSES, WORD_LENGTH in *. lia.
  - apply (wellFormed_shape g); [apply withTile_shape | done].
Qed.

Lemma wellFormed_submitGuess g : wellFormed g -> wellFormed (submitGuess g).1.
Proof.
  intros Hwf. unfold submitGuess.
  destruct (isAnimating g); [done |].
  destruct (negb _); [done |]. cbv zeta. destruct (negb _); [done |].
  by destruct (WORD g).
Qed.

Lemma wellFormed_handle g e : wellFormed g -> wellFormed (handle g e).1.
Proof.
  intros Hwf.
  assert (forall letter, wellFormed (addLetter letter g)) as Hadd.
  { intros letter. unfold addLetter.
    destruct (currentTile g <? WORD_LENGTH) eqn:Hlt; cbn [andb]; [| done].
    destruct (negb _); [| done]. apply Nat.ltb_lt in Hlt.
    destruct Hwf as (Hdom & Hrow & Htile).
    split; [cbn; by rewrite dom_alter_L |].
    cbn [currentRow currentTile set_currentTile withTile set_tiles]. lia. }
  assert (wellFormed (deleteLetter g)) as Hdel.
  { unfold deleteLetter. destruct (_ && _); [| done].
    destruct Hwf as (Hdom & Hrow & Htile).
    split; [cbn; by rewrite dom_alter_L |].
    cbn [currentRow currentTile set_currentTile withTile set_tiles]. lia. }
  destruct e as [key | k | |]; cbn [handle]; try done;
    destruct (inputIgnored g); try done.
  - destruct (_ && _); [done |].
    destruct (bool_decide _); [by apply wellFormed_submitGuess |].
    destruct (bool_decide _); [exact Hdel |].
    destruct (Js.isLetter key); [apply Hadd | done].
  - destruct (bool_decide _); [by apply wellFormed_submitGuess |].
    destruct (bool_decide _); [exact Hdel | apply Hadd].
Qed.

Lemma wellFormed_fireUntil fuel target p :
  wellFormed (game p) -> wellFormed (game (fireUntil fuel target p)).
Proof.
  revert p. induction fuel as [|fuel IH]; intros p Hwf; [done |].
  cbn [fireUntil]. destruct (pending p) as [|[due t] rest]; [done |].
  destruct (due <=? target); [| done].
  pose proof (wellFormed_fire t (game p) Hwf) as Hf.
  destruct (fire t (game p)) as [g started]. by apply IH.
Qed.

Lemma wellFormed_start res keyboard idx :
  ok res = true -> wellFormed (game (start res keyboard idx)).
Proof.
  intros Hok. unfold start, fetchWords. rewrite Hok.
  by apply wellFormed_resetGame.
Qed.

(** From the loaded page on, through any events at any times, the grid
    stays complete and the counters stay inside it: no callback and no
    handler looks up a tile that is not there. *)
Lemma wellFormed_run events : forall p,
  wellFormed (game p) -> wellFormed (game (run p events)).
Proof.
  induction events as [|[d e] events IH]; intros p Hwf; [done |].
  cbn [run foldl fst snd]. apply IH. unfold handleNow.
  pose proof (wellFormed_handle (game (advance d p)) e
                (wellFormed_fireUntil _ _ p Hwf)) as Hh.
  by destruct (handle (game (advance d p)) e).
Qed.

(** ** The session *)

Lemma readRow_length g : length (readRow g) = WORD_LENGTH.
Proof. reflexivity. Qed.

(** C4. A submission of a full row whose word is not in the list is
    answered with the message "Not in word list" and uses up no attempt:
    the row and the tile counters, the tiles and the keyboard are what they
    were, the only timer started is the one that hides the message, and the
    session is still in progress. *)
Theorem submitGuess_not_in_word_list (g : Game) :
  gameOver g = false ->
  isAnimating g = false ->
  currentTile g = WORD_LENGTH ->
  isValidWord (validWords g) (Js.join (readRow g)) = false ->
  let g' := (submitGuess g).1 in
  messageText (message g') = "Not in word list" /\
  (submitGuess g).2 = [(1000, HideMessage)] /\
  currentRow g' = currentRow g /\
  currentTile g' = currentTile g /\
  tiles g' = tiles g /\
  keys g' = keys g /\
  WORD g' = WORD g /\
  gameOver g' = false /\
  status g' = InProgress /\
  accepted g (KeyDown "Enter") = None.
Proof.
  intros Hover Hanim Htile Hvalid.
  assert (submitGuess g = showMessage "Not in word list" 1000 false g) as ->.
  { unfold submitGuess. rewrite Hanim, Htile, Hvalid. reflexivity. }
  cbn zeta. unfold status, accepted. cbn [showMessage set_message gameOver
    message messageText currentRow currentTile tiles keys WORD fst snd].
  rewrite Hover, Hvalid, andb_false_r. done.
Qed.

Lemma accepted_submit g e :
  isSubmit e = true -> inputIgnored g = false ->
  accepted g e = acceptedBySubmit g.
Proof.
  intros He Hg. unfold accepted, acceptedBySubmit. rewrite He, Hg. done.
Qed.

Lemma accepted_other g e :
  isSubmit e = false \/ inputIgnored g = true -> accepted g e = None.
Proof.
  unfold accepted. intros [-> | ->]; [done |]. by rewrite andb_false_r.
Qed.

(** *** The timers that matter *)

Lemma criticals_cons due t timers :
  criticals ((due, t) :: timers) =
    if isCritical t then t :: criticals timers else criticals timers.
Proof.
  unfold criticals. cbn [fmap list_fmap snd]. rewrite filter_cons.
  destruct (isCritical t); by destruct (decide _).
Qed.

Lemma criticals_insert_other due t timers :
  isCritical t = false -> criticals (insertTimer due t timers) = criticals timers.
Proof.
  intros Ht. induction timers as [|[due' t'] rest IH]; cbn [insertTimer].
  - by rewrite criticals_cons, Ht.
  - destruct (due' <=? due).
    + by rewrite !criticals_cons, IH.
    + by rewrite criticals_cons, Ht.
Qed.

Lemma criticals_insert_critical due t timers :
  isCritical t = true -> criticals timers = [] ->
  criticals (insertTimer due t timers) = [t].
Proof.
  intros Ht. induction timers as [|[due' t'] rest IH]; cbn [insertTimer]; intros Hnone.
  - by rewrite criticals_cons, Ht.
  - rewrite criticals_cons in Hnone. destruct (due' <=? due).
    + rewrite criticals_cons. destruct (isCritical t'); [done |]. by apply IH.
    + rewrite !criticals_cons, Ht. destruct (isCritical t'); [done |].
      by rewrite Hnone.
Qed.

Lemma criticals_schedule_others now started timers :
  Forall (fun dt => isCritical dt.2 = false) started ->
  criticals (schedule now started timers) = criticals timers.
Proof.
  unfold schedule. revert timers.
  induction started as [|[d t] started IH]; intros timers Hs; [done |].
  apply Forall_cons in Hs as [Ht Hs]. cbn [foldl fst snd].
  rewrite IH by done. by apply criticals_insert_other.
Qed.

(** Timers that do not matter and then one that does. *)
Lemma criticals_schedule_last now started d t timers :
  Forall (fun dt => isCritical dt.2 = false) started ->
  isCritical t = true -> criticals timers = [] ->
  criticals (schedule now (started ++ [(d, t)]) timers) = [t].
Proof.
  intros Hs Ht Hnone. unfold schedule. rewrite foldl_app. cbn [foldl fst snd].
  apply criticals_insert_critical; [done |].
  fold (schedule now started timers). by rewrite criticals_schedule_others.
Qed.

Lemma bounceRow_others r :
  Forall (fun dt => isCritical dt.2 = false) (bounceRow r).
Proof. unfold bounceRow. apply Forall_fmap, Forall_forall. done. Qed.

Lemma startReveal_others states guessArr :
  Forall (fun dt => isCritical dt.2 = false) (startReveal states guessArr).
Proof.
  unfold startReveal. apply Forall_forall. intros dt Hin.
  apply elem_of_lookup_imap in Hin as (i & o & -> & _). done.
Qed.


(** *** Runs whose events arrive at settled pages *)

Lemma view_eq g g' :
  view g' = view g ->
  WORD g' = WORD g /\ isAnimating g' = isAnimating g /\ gameOver g' = gameOver g /\
  currentRow g' = currentRow g /\ messageText (message g') = messageText (message g).
Proof. unfold view. by intros [= -> -> -> -> ->]. Qed.

Lemma pageInv_view target g g' c c' timers timers' gs :
  view g' = view g -> criticals timers' = criticals timers ->
  pageInv target {| game := g; clock := c; pending := timers |} gs ->
  pageInv target {| game := g'; clock := c'; pending := timers' |} gs.
Proof.
  intros (HW & Han & Hgo & Hrow & Hmsg)%view_eq Hc.
  unfold pageInv, sessionInv. cbn [game pending].
  by rewrite Hc, HW, Han, Hgo, Hrow, Hmsg.
Qed.

Lemma addLetter_view letter g : view (addLetter letter g) = view g.
Proof. unfold addLetter. by destruct (_ && _). Qed.

Lemma deleteLetter_view g : view (deleteLetter g) = view g.
Proof. unfold deleteLetter. by destruct (_ && _). Qed.

(** The invariant is kept when the timer at the head of the queue fires. *)
Lemma fire_pageInv target g c due t rest gs :
  pageInv target {| game := g; clock := c; pending := (due, t) :: rest |} gs ->
  pageInv target {| game := (fire t g).1; clock := due;
                    pending := schedule due (fire t g).2 rest |} gs.
Proof.
  intros Hinv.
  assert (forall g' started,
            view g' = view g ->
            Forall (fun dt => isCritical dt.2 = false) started ->
            isCritical t = false ->
            pageInv target {| game := g'; clock := due;
                              pending := schedule due started rest |} gs) as Hother.
  { intros g' started Hv Hs Ht. apply (pageInv_view target g g' c due ((due, t) :: rest));
      [done | | done].
    by rewrite criticals_schedule_others, criticals_cons, Ht. }
  destruct t as [| i st letter | r i st | guessWord | r i | |]; cbn [fire].
  - by apply Hother.
  - apply Hother; [done | | done]. by repeat constructor.
  - by apply Hother.
  - (* the animation ends *)
    destruct Hinv as [HW Hinv]. cbn [game pending] in HW, Hinv.
    rewrite criticals_cons in Hinv. cbn [isCritical] in Hinv.
    destruct (criticals rest) as [|t' rest'] eqn:Hnone; [| done].
    destruct Hinv as (Han & Hgo & gs' & -> & Hrow & Hlen & Hnin).
    unfold endAnimation. cbv zeta.
    cbn [WORD currentRow set_isAnimating]. rewrite HW.
    case_bool_decide as Hwin; [| case_bool_decide as Hlast]; cbn [fst snd].
    + split; [done |]. cbn [game pending].
      rewrite criticals_schedule_last by (done || apply bounceRow_others).
      split; [done |]. split; [done |]. split.
      * apply elem_of_app. right. apply list_elem_of_singleton. congruence.
      * rewrite length_app. cbn. lia.
    + split; [done |]. cbn [game pending].
      rewrite (criticals_schedule_last due [] 600 DeclareLoss) by done.
      split; [done |]. split; [done |]. split.
      * rewrite length_app. cbn. lia.
      * intros [Hin | Hin%list_elem_of_singleton]%elem_of_app; [done | congruence].
    + split; [done |]. cbn [game pending schedule foldl]. rewrite Hnone.
      split; [done |]. left. split; [done |].
      rewrite length_app. cbn. split; [lia |].
      split; [unfold MAX_GUESSES in *; lia |].
      intros [Hin | Hin%list_elem_of_singleton]%elem_of_app; [done | congruence].
  - by apply Hother.
  - (* the win is declared *)
    destruct Hinv as [HW Hinv]. cbn [game pending] in HW, Hinv.
    rewrite criticals_cons in Hinv. cbn [isCritical] in Hinv.
    destruct (criticals rest) as [|t' rest'] eqn:Hnone; [| done].
    destruct Hinv as (Han & Hgo & Hin & Hlen).
    split; [done |]. cbn [declareWin showMessage fst snd game pending schedule foldl Nat.ltb Nat.leb andb negb].
    rewrite Hnone. split; [done |]. right; left. done.
  - (* the loss is declared *)
    destruct Hinv as [HW Hinv]. cbn [game pending] in HW, Hinv.
    rewrite criticals_cons in Hinv. cbn [isCritical] in Hinv.
    destruct (criticals rest) as [|t' rest'] eqn:Hnone; [| done].
    destruct Hinv as (Han & Hgo & Hlen & Hnin).
    split; [done |]. cbn [declareLoss showMessage fst snd game pending schedule foldl Nat.ltb Nat.leb andb negb].
    rewrite Hnone. split; [done |]. right; right.
    split; [done |]. split; [| done].
    cbn [message messageText set_gameOver set_message]. by rewrite HW.
Qed.

Lemma fireUntil_pageInv target fuel until p gs :
  pageInv target p gs -> pageInv target (fireUntil fuel until p) gs.
Proof.
  revert p. induction fuel as [|fuel IH]; intros p Hinv; [done |].
  cbn [fireUntil]. destruct p as [g c timers]. cbn [pending game].
  destruct timers as [|[due t] rest].
  - by apply (pageInv_view target g g c until [] []).
  - destruct (due <=? until).
    + pose proof (fire_pageInv target g c due t rest gs Hinv) as Hf.
      destruct (fire t g) as [g' started]. by apply IH.
    + by apply (pageInv_view target g g c until ((due, t) :: rest) ((due, t) :: rest)).
Qed.

Lemma advance_pageInv target delay p gs :
  pageInv target p gs -> pageInv target (advance delay p) gs.
Proof. apply fireUntil_pageInv. Qed.

Lemma submitGuess_pageInv target g c timers gs :
  gameOver g = false ->
  criticals timers = [] ->
  pageInv target {| game := g; clock := c; pending := timers |} gs ->
  pageInv target {| game := (submitGuess g).1; clock := c;
                    pending := schedule c (submitGuess g).2 timers |}
          (gs ++ option_list (acceptedBySubmit g)).
Proof.
  intros Hgo Hnone Hinv.
  assert (forall text,
    pageInv target
      {| game := (showMessage text 1000 false g).1; clock := c;
         pending := schedule c (showMessage text 1000 false g).2 timers |} (gs ++ [])) as Hmsg.
  { intros text. rewrite app_nil_r.
    destruct Hinv as [HW Hinv]. cbn [game pending] in HW, Hinv.
    split; [done |]. cbn [game pending showMessage fst snd].
    rewrite criticals_schedule_others by (by repeat constructor).
    rewrite Hnone in *. destruct Hinv as [Han Hs]. split; [done |].
    destruct Hs as [Hs | [[? _] | [? _]]]; [by left | congruence..]. }
  destruct Hinv as [HW Hinv]. cbn [game pending] in HW, Hinv.
  rewrite Hnone in Hinv. destruct Hinv as [Han Hss].
  destruct Hss as [(_ & Hrow & Hlen & Hnin) | [[? _] | [? _]]]; [| congruence..].
  unfold submitGuess, acceptedBySubmit. rewrite Han.
  destruct (currentTile g =? WORD_LENGTH); cbn [negb andb option_list];
    [| apply Hmsg].
  cbv zeta. destruct (isValidWord _ _); cbn [negb andb option_list];
    [| apply Hmsg].
  rewrite HW. rewrite bool_decide_eq_true_2 by eauto. cbn [option_list fst snd].
  split; [done |]. cbn [game pending].
  rewrite criticals_schedule_last by (done || apply startReveal_others).
  split; [done |]. split; [done |]. by exists gs.
Qed.

(** The invariant is kept when an event is handled at a settled page. *)
Lemma handleNow_pageInv target p e gs :
  settled p ->
  pageInv target p gs ->
  pageInv target (handleNow p e) (gs ++ option_list (accepted (game p) e)).
Proof.
  intros Hnone Hinv. destruct p as [g c timers].
  unfold settled in Hnone. cbn [pending game] in *. unfold handleNow. cbn [game clock pending].
  assert (forall g', view g' = view g ->
            pageInv target {| game := g'; clock := c; pending := schedule c [] timers |}
                    (gs ++ [])) as Hsame.
  { intros g' Hv. rewrite app_nil_r.
    by apply (pageInv_view target g g' c c timers). }
  destruct (inputIgnored g) eqn:Hig.
  - rewrite accepted_other by auto.
    destruct e; cbn [handle]; rewrite ?Hig; by apply Hsame.
  - assert (gameOver g = false /\ helpShown g = false) as [Hgo Hhelp].
    { unfold inputIgnored in Hig. by destruct (gameOver g), (helpShown g). }
    pose proof (submitGuess_pageInv target g c timers gs Hgo Hnone Hinv) as Hsub.
    destruct e as [key | k | |]; cbn [handle]; rewrite ?Hig.
    + rewrite Hhelp, andb_false_r.
      destruct (bool_decide (key = "Enter")) eqn:Henter.
      { rewrite (accepted_submit g (KeyDown key)) by done.
        by destruct (submitGuess g). }
      rewrite accepted_other by auto.
      destruct (bool_decide (key = "Backspace"));
        [apply Hsame, deleteLetter_view |].
      destruct (Js.isLetter key); [apply Hsame, addLetter_view | by apply Hsame].
    + destruct (bool_decide (k = "enter")) eqn:Henter.
      { rewrite (accepted_submit g (ClickKey k)) by done.
        by destruct (submitGuess g). }
      rewrite accepted_other by auto.
      destruct (bool_decide (k = "backspace"));
        [apply Hsame, deleteLetter_view | apply Hsame, addLetter_view].
    + rewrite accepted_other by auto. by apply Hsame.
    + rewrite accepted_other by auto. by apply Hsame.
Qed.

Lemma run_pageInv target events : forall p gs,
  arrivesSettled p events ->
  pageInv target p gs ->
  pageInv target (run p events) (gs ++ attempts p events).
Proof.
  induction events as [|[d e] events IH]; intros p gs Harr Hinv;
    cbn [run foldl attempts fst snd].
  - by rewrite app_nil_r.
  - destruct Harr as [Hset Harr]. rewrite app_assoc. apply IH; [done |].
    apply handleNow_pageInv; [done |]. by apply advance_pageInv.
Qed.

Lemma resetGame_globals idx g :
  globals (resetGame idx g) =
  (validWords g, validWords g !! idx, 0, 0, false, false, helpShown g,
   {| messageText := messageText (message g); messageShown := false;
      playAgainShown := false |}).
Proof. reflexivity. Qed.

Lemma resetGame_pageInv idx g target :
  WORD (resetGame idx g) = Some target ->
  pageInv target (quiet (resetGame idx g)) [].
Proof.
  intros HW. split; [done |]. cbn [quiet pending criticals fmap list_fmap filter].
  split; [reflexivity |].
  left. split; [reflexivity |]. split; [reflexivity |].
  split; [unfold MAX_GUESSES; cbn; lia | apply not_elem_of_nil].
Qed.



Lemma submitGuess_not_in_word_list_witness :
  let g := game (run (quiet demoGame) (keysAfter 0 (Js.letters "xyzzy"))) in
  (gameOver g = false /\ isAnimating g = false /\ currentTile g = WORD_LENGTH /\
   isValidWord (validWords g) (Js.join (readRow g)) = false) /\
  messageText (message (submitGuess g).1) = "Not in word list" /\
  currentRow (submitGuess g).1 = currentRow g /\
  status (submitGuess g).1 = InProgress.
Proof.
  split; [repeat split; vm_compute; reflexivity |].
  pose proof (submitGuess_not_in_word_list
                (game (run (quiet demoGame) (keysAfter 0 (Js.letters "xyzzy")))))
    as H.
  cbv zeta in H.
  destruct H as (Hmsg & _ & Hrow & _ & _ & _ & _ & _ & Hstatus & _);
    [vm_compute; reflexivity .. |].
  split; [exact Hmsg |]. split; [exact Hrow | exact Hstatus].
Defined.

(** Won on the last row, with nothing typed until the page has settled. *)
Example demo_won :
  let p := advance 2000 (run (quiet demoGame) winOnLastRow) in
  pending p = [] /\ status (game p) = Won /\
  attempts (quiet demoGame) winOnLastRow =
    ["REACT"; "REACT"; "REACT"; "REACT"; "REACT"; "CRANE"].
Proof. vm_compute. repeat split; reflexivity. Qed.

(** Six wrong guesses. *)
Example demo_lost :
  let events := concat (replicate 6 (guessAfter 2000 "react")) in
  let p := advance 2000 (run (quiet demoGame) events) in
  pending p = [] /\ status (game p) = Lost /\
  length (attempts (quiet demoGame) events) = 6.
Proof. vm_compute. repeat split; reflexivity. Qed.

(** The keyboard after the guess REACT. *)
Example demo_keyboard :
  let g := game (advance 2000 (run (quiet demoGame) (guessAfter 0 "react"))) in
  keyStatus <$> keys g !! "a" = Some (Some correct) /\
  keyStatus <$> keys g !! "r" = Some (Some present) /\
  keyStatus <$> keys g !! "t" = Some (Some absent) /\
  keyStatus <$> keys g !! "n" = Some None.
Proof. vm_compute. repeat split; reflexivity. Qed.

(** The pending timers 1 ms after the winning Enter, and 801 ms after it:
    the animation has ended, [isAnimating] and [gameOver] are both false,
    and the timer that will set [gameOver] is still 599 ms away. *)
Example demo_window :
  let p := advance 801 (run (quiet demoGame) winOnLastRow) in
  isAnimating (game p) = false /\ gameOver (game p) = false /\
  inputIgnored (game p) = false /\
  snd <$> pending p = [Bounce 5 1; Bounce 5 2; Bounce 5 3; Bounce 5 4; DeclareWin].
Proof. vm_compute. repeat split; reflexivity. Qed.

(** C3 (the code departs from the claim). The script sets [gameOver] from a
    timer that fires 600 ms after the animation has ended, and until then
    it takes input. On the last row the word CRANE is submitted: a win. In
    that window the last letter is replaced and the row submitted again
    (CRANK, a word of the list): the second submission ends, on the last
    row and without a match, with the message of a loss. When all timers
    have fired the session shows as [Lost], although CRANE is among the
    accepted guess words. *)
Theorem late_input_turns_win_into_loss :
  let p := advance 5000 (run (quiet demoGame) lateInput) in
  WORD demoGame = Some "CRANE" /\
  attempts (quiet demoGame) lateInput =
    ["REACT"; "REACT"; "REACT"; "REACT"; "REACT"; "CRANE"; "CRANK"] /\
  pending p = [] /\
  messageText (message (game p)) = "The word was CRANE" /\
  status (game p) = Lost.
Proof. vm_compute. repeat split; reflexivity. Qed.

(** * More properties of the script *)

(** ** The guess evaluation, exactly *)

Lemma marked_le_occ c guessArr states : marked c guessArr states <= occ c guessArr.
Proof.
  revert states. induction guessArr as [|x g IH]; intros [|s states]; simpl; try lia.
  rewrite occ_cons. specialize (IH states).
  repeat case_bool_decide; try lia. tauto.
Qed.

(** Either every position that holds [c] is marked, or one of them is
    [absent]. *)
Lemma marked_all_or_absent c guessArr states :
  length states = length guessArr ->
  marked c guessArr states = occ c guessArr \/
  exists j, guessArr !! j = Some c /\ states !! j = Some absent.
Proof.
  revert states. induction guessArr as [|x g IH]; intros [|s states] Hlen;
    simplify_eq/=; [by left |].
  rewrite occ_cons.
  destruct (IH states) as [Heq | (j & Hg & Hs)]; [done | |].
  - destruct (decide (x = c)) as [->|Hne].
    + destruct (decide (s = absent)) as [->|Hs].
      * right. by exists 0.
      * left. rewrite !bool_decide_eq_true_2 by done. lia.
    + left. rewrite !bool_decide_eq_false_2 by tauto. lia.
  - right. by exists (S j).
Qed.

(** A position that holds [c] and is not [absent] is counted. *)
Lemma marked_pos c guessArr states j s :
  guessArr !! j = Some c -> states !! j = Some s -> s <> absent ->
  1 <= marked c guessArr states.
Proof.
  revert states j. induction guessArr as [|x g IH]; intros [|s' states] [|j] Hg Hs Hne;
    simplify_eq/=.
  - rewrite bool_decide_eq_true_2 by done. lia.
  - specialize (IH states j Hg Hs Hne). lia.
Qed.

(** A position that holds [c] and is [absent] is missing from the count. *)
Lemma marked_lt_occ c guessArr states j :
  guessArr !! j = Some c -> states !! j = Some absent ->
  marked c guessArr states < occ c guessArr.
Proof.
  revert states j. induction guessArr as [|x g IH]; intros [|s' states] [|j] Hg Hs;
    simplify_eq/=; rewrite occ_cons.
  - pose proof (marked_le_occ c g states).
    rewrite bool_decide_eq_false_2 by tauto.
    rewrite bool_decide_eq_true_2 by done. lia.
  - specialize (IH states j Hg Hs). repeat case_bool_decide; try lia. tauto.
Qed.

Lemma secondInvAt_step WORD guessArr i acc :
  length guessArr = WORD_LENGTH ->
  i < WORD_LENGTH -> secondInvAt WORD guessArr i acc ->
  secondInvAt WORD guessArr (S i) (secondPass guessArr acc i).
Proof.
  intros Hg Hi [Hinv Hex]. split; [by apply secondInv_step |].
  destruct acc as [states letterCount].
  destruct Hinv as (Hlen & Hst & Hlc & Hocc); cbn [fst snd] in *.
  destruct (lookup_lt_is_Some_2 guessArr i) as [x Hx]; [lia |].
  assert (isPositive (letterCount !! x) = true ->
          marked x guessArr states < occurrences x WORD) as Hleft.
  { intros Hgt. specialize (Hlc x). rewrite Hlc in Hgt.
    destruct (decide (occurrences x WORD = 0)); [done |]. cbn in Hgt.
    apply Z.ltb_lt in Hgt. lia. }
  assert (isPositive (letterCount !! x) = false ->
          marked x guessArr states = occurrences x WORD) as Hused.
  { intros Hgt. specialize (Hlc x). specialize (Hocc x). rewrite Hlc in Hgt.
    destruct (decide (occurrences x WORD = 0)); [lia |]. cbn in Hgt.
    apply Z.ltb_ge in Hgt. lia. }
  unfold secondPass. rewrite Hx. change (propKey (Some x)) with x.
  case_bool_decide as Habs; cbn [andb];
    [destruct (isPositive (letterCount !! x)) eqn:Hgt |]; cbn [fst].
  - intros j c Hj Hgj Hsj. destruct (decide (i = j)) as [<-|Hne].
    + rewrite list_lookup_insert_eq in Hsj by lia. done.
    + rewrite list_lookup_insert_ne in Hsj by done.
      rewrite (marked_insert c x) by done.
      specialize (Hex j c ltac:(lia) Hgj Hsj).
      case_bool_decide as Hc; [subst c | lia].
      specialize (Hleft eq_refl). lia.
  - intros j c Hj Hgj Hsj. destruct (decide (j = i)) as [->|Hne].
    + assert (c = x) as -> by congruence. by apply Hused.
    + apply (Hex j c); [lia | done | done].
  - intros j c Hj Hgj Hsj. destruct (decide (j = i)) as [->|Hne]; [congruence |].
    apply (Hex j c); [lia | done | done].
Qed.

Lemma evaluate_exhausted WORD guessArr :
  length guessArr = WORD_LENGTH ->
  exhausted WORD guessArr WORD_LENGTH (evaluate WORD guessArr).
Proof.
  intros Hg. unfold evaluate.
  set (first := forLoop _ (firstPass _ _) _).
  assert (secondInvAt WORD guessArr 0 first) as Hfirst.
  { split.
    - apply firstInv_end; [done |].
      apply (forLoop_invariant (firstInv WORD guessArr)).
      + by apply firstInv_init.
      + by apply firstInv_step.
    - intros j c Hj. lia. }
  apply (forLoop_invariant (secondInvAt WORD guessArr) WORD_LENGTH
           (secondPass guessArr) first Hfirst).
  intros i acc. by apply secondInvAt_step.
Qed.

(** X2. For a guess of [WORD_LENGTH] letters and every letter [c], the
    positions of the result that hold [c] and are [correct] or [present]
    are exactly as many as the smaller of the two counts: the occurrences of
    [c] in the guess and its occurrences in the word. So no copy of a letter
    is left [absent] while the word has one to spare. *)
Theorem evaluate_marks_min (WORD : string) (guessArr : list string) (c : string) :
  length guessArr = WORD_LENGTH ->
  marked c guessArr (evaluate WORD guessArr)
  = Nat.min (occ c guessArr) (occurrences c WORD).
Proof.
  intros Hg.
  pose proof (evaluate_invariant WORD guessArr Hg) as (Hlen & _ & Hocc).
  specialize (Hocc c).
  pose proof (marked_le_occ c guessArr (evaluate WORD guessArr)) as Hle.
  destruct (marked_all_or_absent c guessArr (evaluate WORD guessArr))
    as [Heq | (j & Hgj & Hsj)]; [congruence | lia |].
  apply lookup_lt_Some in Hsj as Hj. rewrite Hlen in Hj.
  pose proof (evaluate_exhausted WORD guessArr Hg j c Hj Hgj Hsj). lia.
Qed.

Lemma evaluate_marks_min_witness :
  length (Js.letters "SPEED") = WORD_LENGTH /\
  marked "E" (Js.letters "SPEED") (evaluate "ERASE" (Js.letters "SPEED"))
  = Nat.min (occ "E" (Js.letters "SPEED")) (occurrences "E" "ERASE").
Proof. split; [reflexivity |]. apply (evaluate_marks_min "ERASE"). reflexivity. Defined.

Lemma occ_pos_elem c l : 0 < occ c l <-> c ∈ l.
Proof.
  unfold occ. split.
  - intros H. destruct (filter _ l) as [|y l'] eqn:Hf; [simpl in H; lia |].
    assert (y ∈ filter (λ x, x = c) l) as Hy by (rewrite Hf; left).
    apply list_elem_of_filter in Hy as [-> Hy]. done.
  - intros H. assert (c ∈ filter (λ x, x = c) l) as Hc by by apply list_elem_of_filter.
    destruct (filter _ l); [by apply elem_of_nil in Hc | simpl; lia].
Qed.

(** X3. What each state of the result says, for a guess of [WORD_LENGTH]
    letters with the letter [c] at position [j]: the state is [correct]
    exactly when the word has [c] at [j], whatever else the guess holds; when
    it is [present], the word does not have [c] at [j] and has it at some
    other position; and when the word does not have [c] at all, it is
    [absent]. *)
Theorem evaluate_state_meaning (WORD : string) (guessArr : list string)
    (j : nat) (c : string) (st : LetterState) :
  length guessArr = WORD_LENGTH ->
  guessArr !! j = Some c ->
  evaluate WORD guessArr !! j = Some st ->
  (st = correct <-> Js.letters WORD !! j = Some c) /\
  (st = present -> Js.letters WORD !! j <> Some c /\
                   exists k, k <> j /\ Js.letters WORD !! k = Some c) /\
  (c ∉ Js.letters WORD -> st = absent).
Proof.
  intros Hg Hgj Hsj.
  pose proof (evaluate_invariant WORD guessArr Hg) as (Hlen & Hcor & Hocc).
  apply lookup_lt_Some in Hsj as Hj. rewrite Hlen in Hj.
  assert (st = correct <-> Js.letters WORD !! j = Some c) as Hiff.
  { split.
    - intros ->. apply Hcor in Hsj as [_ <-]. done.
    - intros Hw. assert (evaluate WORD guessArr !! j = Some correct) as H'
        by (apply Hcor; split; [done | congruence]). congruence. }
  assert (st <> absent -> c ∈ Js.letters WORD) as Hin.
  { intros Hne. apply occ_pos_elem.
    pose proof (marked_pos c _ _ j st Hgj Hsj Hne). specialize (Hocc c).
    unfold occurrences in Hocc. lia. }
  split; [done |]. split.
  - intros ->. assert (Js.letters WORD !! j <> Some c) as Hnot.
    { intros Hw. apply Hiff in Hw. done. }
    split; [done |].
    destruct (proj1 (list_elem_of_lookup _ _) (Hin ltac:(done))) as [k Hk].
    exists k. split; [| done]. intros ->. done.
  - intros Hnin. destruct (decide (st = absent)); [done |]. tauto.
Qed.

Lemma evaluate_state_meaning_witness :
  length (Js.letters "REACT") = WORD_LENGTH /\
  Js.letters "REACT" !! 0 = Some "R" /\
  evaluate "CRANE" (Js.letters "REACT") !! 0 = Some present /\
  Js.letters "CRANE" !! 0 <> Some "R" /\
  exists k, k <> 0 /\ Js.letters "CRANE" !! k = Some "R".
Proof.
  split; [reflexivity |]. split; [reflexivity |]. split; [reflexivity |].
  apply (evaluate_state_meaning "CRANE" (Js.letters "REACT") 0 "R" present);
    reflexivity.
Defined.

(** X4. When the letters of the guess are the letters of the word in some
    order, no position of the result is [absent]. *)
Theorem evaluate_anagram (WORD : string) (guessArr : list string) :
  length guessArr = WORD_LENGTH ->
  guessArr ≡ₚ Js.letters WORD ->
  absent ∉ evaluate WORD guessArr.
Proof.
  intros Hg Hperm Hin.
  apply list_elem_of_lookup in Hin as [j Hsj].
  destruct (lookup_lt_is_Some_2 guessArr j) as [c Hgj].
  { apply lookup_lt_Some in Hsj.
    pose proof (evaluate_invariant WORD guessArr Hg) as (Hlen & _). lia. }
  pose proof (marked_lt_occ c _ _ j Hgj Hsj) as Hlt.
  apply lookup_lt_Some in Hgj as Hj. rewrite Hg in Hj.
  pose proof (evaluate_exhausted WORD guessArr Hg j c Hj Hgj Hsj) as Hall.
  assert (occ c guessArr = occurrences c WORD) as Heq.
  { unfold occurrences, occ. by rewrite Hperm. }
  lia.
Qed.

Lemma evaluate_anagram_witness :
  length (Js.letters "LOYAL") = WORD_LENGTH /\
  Js.letters "LOYAL" ≡ₚ Js.letters "ALLOY" /\
  absent ∉ evaluate "ALLOY" (Js.letters "LOYAL").
Proof.
  assert (Js.letters "LOYAL" ≡ₚ Js.letters "ALLOY") as Hperm.
  { apply (bool_decide_unpack _). vm_compute. exact I. }
  split; [reflexivity |]. split; [exact Hperm |].
  apply (evaluate_anagram "ALLOY" (Js.letters "LOYAL")); [reflexivity | exact Hperm].
Defined.

(** ** The entries of the word list *)

(** X5. For a text that is ASCII, every entry of the word list is in upper
    case and has at most [WORD_LENGTH] characters; it has exactly
    [WORD_LENGTH] when no line of [WORD_LENGTH] characters of the text
    begins or ends with white space. (Outside ASCII the script can store
    longer entries: upper-casing lengthens some characters.) *)
Theorem parseWords_entries (text w : string) :
  Js.isAscii text = true ->
  w ∈ parseWords text ->
  Js.toUpperCase w = w /\
  Js.length w <= WORD_LENGTH /\
  ((forall e, e ∈ Js.splitLines text -> Js.length e = WORD_LENGTH -> Js.trim e = e) ->
   Js.length w = WORD_LENGTH).
Proof.
  intros _ Hw. destruct (parseWords_upper_short text w Hw) as [Hup Hlen].
  split; [done |]. split; [done |]. intros Hclean.
  apply elem_of_parseWords in Hw as (e & He & Hlen5 & ->).
  rewrite (Hclean e He Hlen5). by rewrite toUpperCase_length.
Qed.

Lemma parseWords_entries_witness :
  let text := "crane" +:+ LF +:+ "hi" +:+ LF +:+ "react" in
  Js.isAscii text = true /\
  "REACT" ∈ parseWords text /\
  Js.toUpperCase "REACT" = "REACT" /\ Js.length "REACT" = WORD_LENGTH.
Proof.
  assert ("REACT" ∈ parseWords ("crane" +:+ LF +:+ "hi" +:+ LF +:+ "react")) as Hin.
  { apply (bool_decide_unpack _). vm_compute. exact I. }
  split; [reflexivity |]. split; [exact Hin |].
  pose proof (parseWords_entries ("crane" +:+ LF +:+ "hi" +:+ LF +:+ "react") "REACT"
                eq_refl Hin) as (Hup & _ & Hlen).
  split; [exact Hup |]. apply Hlen.
  intros e He Hlen5. vm_compute in He.
  repeat (apply elem_of_cons in He as [-> | He]; [reflexivity || discriminate Hlen5 |]).
  by apply elem_of_nil in He.
Defined.

Lemma splitLines_crlf (text : string) :
  noCR text = true -> Js.splitLines (crlf text) = Js.splitLines text.
Proof.
  induction text as [|a s IH]; [done |]. cbn [noCR crlf].
  intros [Ha Hs]%andb_prop. apply negb_true_iff in Ha.
  specialize (IH Hs).
  destruct (Js.is_lf a) eqn:Hlf.
  - cbn [Js.splitLines]. rewrite Hlf. cbn. by rewrite IH.
  - cbn [Js.splitLines]. rewrite Hlf, Ha. cbn [andb]. rewrite IH.
    by destruct (crlf s), s.
Qed.

(** X6. A text saved with Windows line ends gives the same word list: with
    a carriage return put before every line feed of a text that has none,
    [parseWords] returns what it returns on the text itself. *)
Theorem parseWords_crlf (text : string) :
  noCR text = true -> parseWords (crlf text) = parseWords text.
Proof. intros H. unfold parseWords. by rewrite splitLines_crlf. Qed.

Lemma parseWords_crlf_witness :
  let text := "crane" +:+ LF +:+ "react" +:+ LF in
  noCR text = true /\
  crlf text = "crane" +:+ String "013"%char LF +:+ "react" +:+ String "013"%char LF /\
  parseWords (crlf text) = parseWords text.
Proof.
  split; [reflexivity |]. split; [reflexivity |].
  apply (parseWords_crlf ("crane" +:+ LF +:+ "react" +:+ LF)). reflexivity.
Defined.

(** ** The keyboard along a run *)

(** X7. Within a session, that is until a click on play-again calls
    [resetGame] (which takes the state classes off every key): on a sound
    page, through any key presses and clicks on the on-screen keys and the
    help elements at any times, and the callbacks they lead to, a key stays
    on the keyboard, the rank of the state it shows (none, absent, present,
    correct) never goes down, its classes other than the three state
    classes stay as they are, and if it had at most one state class it
    still has at most one. *)
Theorem keyboard_run_monotone (p : Page) (events : list (nat * Event)) (delay : nat)
    (k : string) (cl : gset string) :
  sound p ->
  keys (game p) !! k = Some cl ->
  exists cl',
    keys (game (advance delay (run p events))) !! k = Some cl' /\
    rank (keyStatus cl) <= rank (keyStatus cl') /\
    otherClasses cl' = otherClasses cl /\
    (oneClass cl -> oneClass cl').
Proof.
  intros _ Hk. destruct (run_keys events p delay) as [obs ->].
  rewrite mergeAll_keys. by apply foldl_mergeStep_lookup.
Qed.

Lemma keyboard_run_monotone_witness :
  let p := quiet demoGame in
  let events := guessAfter 0 "react" ++ guessAfter 2000 "crane" in
  sound p /\
  keys (game p) !! "r" = Some {["key"]} /\
  exists cl',
    keys (game (advance 2000 (run p events))) !! "r" = Some cl' /\
    rank (keyStatus {["key"]}) <= rank (keyStatus cl') /\
    otherClasses cl' = otherClasses {["key"]}.
Proof.
  assert (keys (game (quiet demoGame)) !! "r" = Some {["key"]}) as Hk
    by (vm_compute; reflexivity).
  assert (sound (quiet demoGame)) as Hsound.
  { split; [split; [vm_compute; reflexivity | vm_compute; lia] | constructor]. }
  split; [exact Hsound |]. split; [exact Hk |].
  destruct (keyboard_run_monotone (quiet demoGame)
              (guessAfter 0 "react" ++ guessAfter 2000 "crane") 2000 "r" _ Hsound Hk)
    as (cl' & H1 & H2 & H3 & _).
  exists cl'. split; [exact H1 |]. split; [exact H2 | exact H3].
Defined.

(** ** Invariants of a run *)

Section run_invariant.
Variables (I : Game -> Prop) (T : Timer -> Prop).
Hypothesis fire_inv : forall t g,
  T t -> I g -> I (fire t g).1 /\ Forall (fun dt => T dt.2) (fire t g).2.
Hypothesis handle_inv : forall g e,
  I g -> I (handle g e).1 /\ Forall (fun dt => T dt.2) (handle g e).2.

Lemma Forall_insertTimer due t timers :
  T t -> Forall (fun dt => T dt.2) timers ->
  Forall (fun dt => T dt.2) (insertTimer due t timers).
Proof.
  intros Ht. induction timers as [|[due' t'] rest IH]; intros Hall; cbn [insertTimer].
  - by constructor.
  - destruct (due' <=? due).
    + apply Forall_cons in Hall as [H1 H2]. constructor; [done | by apply IH].
    + by constructor.
Qed.

Lemma Forall_schedule now started timers :
  Forall (fun dt => T dt.2) started -> Forall (fun dt => T dt.2) timers ->
  Forall (fun dt => T dt.2) (schedule now started timers).
Proof.
  unfold schedule. revert timers.
  induction started as [|[d t] started IH]; intros timers Hs Ht; [done |].
  apply Forall_cons in Hs as [H1 H2]. cbn [foldl]. apply IH; [done |].
  by apply Forall_insertTimer.
Qed.

Lemma fireUntil_holds fuel target p :
  pageHolds I T p -> pageHolds I T (fireUntil fuel target p).
Proof.
  revert p. induction fuel as [|fuel IH]; intros p [Hg Hp]; [done |].
  cbn [fireUntil]. destruct (pending p) as [|[due t] rest] eqn:Hpend; [by split |].
  destruct (due <=? target); [| by split].
  apply Forall_cons in Hp as [Ht Hrest]. cbn [snd] in Ht.
  destruct (fire_inv t (game p) Ht Hg) as [Hg' Hst].
  destruct (fire t (game p)) as [g started]. apply IH.
  split; [done |]. by apply Forall_schedule.
Qed.

Lemma advance_holds delay p : pageHolds I T p -> pageHolds I T (advance delay p).
Proof. apply fireUntil_holds. Qed.

Lemma handleNow_holds p e : pageHolds I T p -> pageHolds I T (handleNow p e).
Proof.
  intros [Hg Hp]. unfold handleNow.
  destruct (handle_inv (game p) e Hg) as [Hg' Hst].
  destruct (handle (game p) e) as [g started].
  split; [done |]. by apply Forall_schedule.
Qed.

Lemma run_holds events : forall p,
  pageHolds I T p -> pageHolds I T (run p events).
Proof.
  induction events as [|[d e] events IH]; intros p Hp; [done |].
  cbn [run foldl fst snd]. apply IH. by apply handleNow_holds, advance_holds.
Qed.

Lemma attempts_Forall (P : string -> Prop) events : forall p,
  (forall g e w, I g -> accepted g e = Some w -> P w) ->
  pageHolds I T p -> Forall P (attempts p events).
Proof.
  induction events as [|[d e] events IH]; intros p HP Hp; [constructor |].
  cbn [attempts]. pose proof (advance_holds d p Hp) as Hp'.
  apply Forall_app. split.
  - destruct (accepted (game (advance d p)) e) as [w|] eqn:Hacc; [| constructor].
    constructor; [| constructor]. eapply HP; [apply Hp' | done].
  - apply IH; [done |]. by apply handleNow_holds.
Qed.

End run_invariant.

Lemma Forall_False_nil {A} (l : list A) : Forall (fun _ => False) l -> l = [].
Proof. by destruct 1. Qed.

Lemma criticals_nil_Forall timers :
  criticals timers = [] -> Forall (fun dt => isCritical dt.2 = false) timers.
Proof.
  induction timers as [|[due t] rest IH]; [constructor |].
  rewrite criticals_cons. destruct (isCritical t) eqn:Ht; [done |].
  intros H. constructor; [done | by apply IH].
Qed.

(** *** What the callbacks and the handlers leave alone *)

Lemma tileText_withTile r c f g r' c' :
  tileText (withTile r c f g) r' c' =
    if decide ((r, c) = (r', c'))
    then from_option (fun t => textContent (f t)) "" (tiles g !! (r, c))
    else tileText g r' c'.
Proof.
  unfold tileText, withTile. cbn [tiles set_tiles].
  destruct (decide _) as [[= <- <-]|Hne].
  - rewrite lookup_alter_eq. by destruct (tiles g !! (r, c)).
  - by rewrite lookup_alter_ne.
Qed.

Lemma tileText_withTile_class r c f g r' c' :
  (forall t, textContent (f t) = textContent t) ->
  tileText (withTile r c f g) r' c' = tileText g r' c'.
Proof.
  intros Hf. rewrite tileText_withTile. destruct (decide _) as [[= <- <-]|]; [| done].
  unfold tileText. destruct (tiles g !! (r, c)); [apply Hf | done].
Qed.

(** No callback writes a letter. *)
Lemma fire_tileText t g r c : tileText (fire t g).1 r c = tileText g r c.
Proof.
  destruct t as [| i st letter | r' i st | guessWord | r' i | |]; cbn [fire fst]; try done.
  - unfold revealLetter, updateKey. cbn [fst].
    change (tileText (set_keys ?k ?g) r c) with (tileText g r c).
    by apply tileText_withTile_class.
  - by apply tileText_withTile_class.
  - unfold endAnimation; cbv zeta. by repeat case_bool_decide.
  - by apply tileText_withTile_class.
Qed.

Lemma fire_sessionWords t g : sessionWords (fire t g).1 = sessionWords g.
Proof.
  destruct t; cbn [fire fst]; try done.
  unfold endAnimation; cbv zeta. by repeat case_bool_decide.
Qed.

Lemma submitGuess_sessionWords g : sessionWords (submitGuess g).1 = sessionWords g.
Proof.
  unfold submitGuess. destruct (isAnimating g); [done |].
  destruct (negb _); [done |]. cbv zeta. destruct (negb _); [done |].
  by destruct (WORD g).
Qed.

Lemma handle_sessionWords g e : sessionWords (handle g e).1 = sessionWords g.
Proof.
  assert (forall letter, sessionWords (addLetter letter g) = sessionWords g) as Hadd.
  { intros letter. unfold addLetter. by destruct (_ && _). }
  assert (sessionWords (deleteLetter g) = sessionWords g) as Hdel.
  { unfold deleteLetter. by destruct (_ && _). }
  destruct e as [key | k | |]; cbn [handle]; try done;
    destruct (inputIgnored g); try done.
  - destruct (_ && _); [done |].
    destruct (bool_decide _); [apply submitGuess_sessionWords |].
    destruct (bool_decide _); [exact Hdel |].
    destruct (Js.isLetter key); [apply Hadd | done].
  - destruct (bool_decide _); [apply submitGuess_sessionWords |].
    destruct (bool_decide _); [exact Hdel | apply Hadd].
Qed.

(** X8. Within a session the word and the word list are fixed: the
    handlers of the keys, of the on-screen keys and of the help elements,
    and every timer callback, leave [WORD] and [validWords] as they are. On
    a sound page, after any such inputs at any times, both are what they
    were. (The handler of the play-again button is [resetGame], which draws
    a new word: it starts the next session.) *)
Theorem session_words_fixed (p : Page) (events : list (nat * Event)) (delay : nat) :
  sound p ->
  WORD (game (advance delay (run p events))) = WORD (game p) /\
  validWords (game (advance delay (run p events))) = validWords (game p).
Proof.
  intros _.
  enough (sessionWords (game (advance delay (run p events))) = sessionWords (game p))
    as [= H1 H2] by done.
  apply (advance_holds (fun g => sessionWords g = sessionWords (game p)) (fun _ => True)).
  - intros t g _ Hg. split; [by rewrite fire_sessionWords |].
    apply Forall_forall. done.
  - apply run_holds.
    + intros t g _ Hg. split; [by rewrite fire_sessionWords |]. by apply Forall_forall.
    + intros g e Hg. split; [by rewrite handle_sessionWords |]. by apply Forall_forall.
    + split; [done |]. by apply Forall_forall.
Qed.

Lemma session_words_fixed_witness :
  let p := quiet demoGame in
  let events := winOnLastRow in
  sound p /\
  WORD (game (advance 2000 (run p events))) = Some "CRANE" /\
  validWords (game (advance 2000 (run p events))) = ["CRANE"; "CRANK"; "REACT"].
Proof.
  assert (sound (quiet demoGame)) as Hsound.
  { split; [split; [vm_compute; reflexivity | vm_compute; lia] | constructor]. }
  split; [exact Hsound |].
  exact (session_words_fixed (quiet demoGame) winOnLastRow 2000 Hsound).
Defined.

(** *** The cases of a handler *)

Lemma handle_cases (P : Step -> Prop) (g : Game) (e : Event) :
  P (g, []) ->
  (inputIgnored g = false -> P (submitGuess g)) ->
  (inputIgnored g = false -> P (deleteLetter g, [])) ->
  (forall letter, inputIgnored g = false ->
     P (addLetter (Js.toUpperCase letter) g, [])) ->
  P (openHelpModal g, []) ->
  P (closeHelpModal g, []) ->
  P (handle g e).
Proof.
  intros Hno Hsub Hdel Hadd Hopen Hclose.
  destruct e as [key | k | |]; cbn [handle]; try done;
    destruct (inputIgnored g); try done.
  - destruct (_ && _); [done |].
    destruct (bool_decide _); [by apply Hsub |].
    destruct (bool_decide _); [by apply Hdel |].
    destruct (Js.isLetter key); [by apply Hadd | done].
  - destruct (bool_decide _); [by apply Hsub |].
    destruct (bool_decide _); [by apply Hdel | by apply Hadd].
Qed.

Lemma submitGuess_cases (P : Step -> Prop) (g : Game) :
  P (g, []) ->
  (forall text, P (showMessage text 1000 false g)) ->
  (forall word, WORD g = Some word -> isAnimating g = false ->
     currentTile g = WORD_LENGTH ->
     isValidWord (validWords g) (Js.join (readRow g)) = true ->
     P (set_isAnimating true g,
        startReveal (evaluate word (readRow g)) (readRow g)
        ++ [(WORD_LENGTH * 100 + 300, EndAnimation (Js.join (readRow g)))])) ->
  P (submitGuess g).
Proof.
  intros Hno Hmsg Hacc. unfold submitGuess.
  destruct (isAnimating g) eqn:Han; [done |].
  destruct (currentTile g =? WORD_LENGTH) eqn:Hfull; cbn [negb]; [| apply Hmsg].
  cbv zeta.
  destruct (isValidWord _ _) eqn:Hvalid; cbn [negb]; [| apply Hmsg].
  destruct (WORD g) as [word|] eqn:HW; [| done].
  apply Nat.eqb_eq in Hfull. by apply Hacc.
Qed.

Lemma fire_noncritical t g :
  isCritical t = false ->
  gameOver (fire t g).1 = gameOver g /\
  messageText (message (fire t g).1) = messageText (message g) /\
  currentRow (fire t g).1 = currentRow g /\
  currentTile (fire t g).1 = currentTile g /\
  Forall (fun dt => isCritical dt.2 = false) (fire t g).2.
Proof.
  destruct t as [| i st letter | r' i st | guessWord | r' i | |]; try done;
    intros _; cbn [fire fst snd]; repeat split; try done.
  unfold revealLetter. cbn [snd]. by repeat constructor.
Qed.

Lemma handle_gameOver g e : gameOver (handle g e).1 = gameOver g.
Proof.
  apply (handle_cases (fun s => gameOver s.1 = gameOver g)); try done.
  - intros _. by apply (submitGuess_cases (fun s => gameOver s.1 = gameOver g)).
  - intros _. unfold deleteLetter. by destruct (_ && _).
  - intros letter _. unfold addLetter. by destruct (_ && _).
Qed.

Lemma handle_currentRow g e : currentRow (handle g e).1 = currentRow g.
Proof.
  apply (handle_cases (fun s => currentRow s.1 = currentRow g)); try done.
  - intros _. by apply (submitGuess_cases (fun s => currentRow s.1 = currentRow g)).
  - intros _. unfold deleteLetter. by destruct (_ && _).
  - intros letter _. unfold addLetter. by destruct (_ && _).
Qed.

Lemma submitGuess_tileText g r c : tileText (submitGuess g).1 r c = tileText g r c.
Proof. by apply (submitGuess_cases (fun s => tileText s.1 r c = tileText g r c)). Qed.

(** *** The game that is over *)

Lemma handle_game_over g e :
  gameOver g = true ->
  (handle g e).2 = [] /\
  messageText (message (handle g e).1) = messageText (message g) /\
  (forall r c, tileText (handle g e).1 r c = tileText g r c) /\
  accepted g e = None.
Proof.
  intros Hover.
  assert (inputIgnored g = true) as Hign by (unfold inputIgnored; by rewrite Hover).
  split; [| split; [| split]].
  - apply (handle_cases (fun s => s.2 = [])); try done; congruence.
  - apply (handle_cases (fun s => messageText (message s.1) = messageText (message g)));
      try done; congruence.
  - intros r c.
    apply (handle_cases (fun s => tileText s.1 r c = tileText g r c));
      try done; congruence.
  - apply accepted_other. by right.
Qed.

(** X9. Once [gameOver] is set and no submission is on its way, the
    session is over for good (until the play-again button calls
    [resetGame]): on a sound page, whatever is typed or clicked afterwards,
    and whenever, the status stays what it is, no submission is accepted,
    and every tile keeps its letter. *)
Theorem game_over_is_final (p : Page) (events : list (nat * Event)) (delay : nat) :
  sound p ->
  gameOver (game p) = true ->
  settled p ->
  let g' := game (advance delay (run p events)) in
  status g' = status (game p) /\
  attempts p events = [] /\
  forall r c, tileText g' r c = tileText (game p) r c.
Proof.
  intros _ Hover Hset g'.
  set (I := fun g => gameOver g = true /\
                     messageText (message g) = messageText (message (game p)) /\
                     forall r c, tileText g r c = tileText (game p) r c).
  set (T := fun t => isCritical t = false).
  assert (forall t g, T t -> I g -> I (fire t g).1
                                   /\ Forall (fun dt => T dt.2) (fire t g).2) as Hfire.
  { intros t g Ht (Hg1 & Hg2 & Hg3).
    destruct (fire_noncritical t g Ht) as (H1 & H2 & _ & _ & H5).
    split; [| done]. split; [congruence |]. split; [congruence |].
    intros r c. by rewrite fire_tileText. }
  assert (forall g e, I g -> I (handle g e).1
                             /\ Forall (fun dt => T dt.2) (handle g e).2) as Hhandle.
  { intros g e (Hg1 & Hg2 & Hg3).
    destruct (handle_game_over g e Hg1) as (H1 & H2 & H3 & _).
    rewrite H1. split; [| constructor].
    split; [by rewrite handle_gameOver |]. split; [congruence |].
    intros r c. by rewrite H3. }
  assert (pageHolds I T p) as Hp.
  { split; [done |]. by apply criticals_nil_Forall. }
  split; [| split].
  - destruct (advance_holds I T Hfire delay _ (run_holds I T Hfire Hhandle events p Hp))
      as [(H1 & H2 & _) _].
    unfold status. fold g' in H1, H2. by rewrite H1, H2, Hover.
  - apply Forall_False_nil.
    apply (attempts_Forall I T Hfire Hhandle (fun _ => False)); [| done].
    intros g e w (Hg1 & _) Hacc.
    destruct (handle_game_over g e Hg1) as (_ & _ & _ & Hnone). congruence.
  - destruct (advance_holds I T Hfire delay _ (run_holds I T Hfire Hhandle events p Hp))
      as [(_ & _ & H3) _].
    exact H3.
Qed.

Lemma game_over_is_final_witness :
  let p := advance 2000 (run (quiet demoGame) winOnLastRow) in
  let events := guessAfter 500 "crank" in
  sound p /\ gameOver (game p) = true /\ settled p /\
  status (game (advance 2000 (run p events))) = status (game p) /\
  attempts p events = [].
Proof.
  assert (gameOver (game (advance 2000 (run (quiet demoGame) winOnLastRow))) = true)
    as Hover by (vm_compute; reflexivity).
  assert (settled (advance 2000 (run (quiet demoGame) winOnLastRow)))
    as Hset by (vm_compute; reflexivity).
  assert (sound (advance 2000 (run (quiet demoGame) winOnLastRow))) as Hsound.
  { split; [split; [vm_compute; reflexivity | vm_compute; lia] |].
    vm_compute. constructor. }
  split; [exact Hsound |]. split; [exact Hover |]. split; [exact Hset |].
  pose proof (game_over_is_final _ (guessAfter 500 "crank") 2000 Hsound Hover Hset)
    as (H1 & H2 & _).
  split; [exact H1 | exact H2].
Defined.

Lemma resetGame_fields idx g :
  validWords (resetGame idx g) = validWords g /\
  WORD (resetGame idx g) = validWords g !! idx /\
  currentRow (resetGame idx g) = 0 /\
  currentTile (resetGame idx g) = 0 /\
  gameOver (resetGame idx g) = false /\
  isAnimating (resetGame idx g) = false /\
  helpShown (resetGame idx g) = helpShown g /\
  message (resetGame idx g) =
    {| messageText := messageText (message g); messageShown := false;
       playAgainShown := false |}.
Proof.
  pose proof (resetGame_globals idx g) as H. unfold globals in H.
  repeat (apply pair_equal_spec in H as [H ?]). by repeat split.
Qed.

(** *** An empty word list *)

Lemma handle_empty_list g e :
  validWords g = [] ->
  Forall (fun dt => isCritical dt.2 = false) (handle g e).2 /\ accepted g e = None.
Proof.
  intros Hempty. split.
  - apply (handle_cases (fun s => Forall (fun dt => isCritical dt.2 = false) s.2));
      try by constructor.
    intros _.
    apply (submitGuess_cases (fun s => Forall (fun dt => isCritical dt.2 = false) s.2));
      try by constructor.
    intros word _ _ _ Hvalid. rewrite Hempty in Hvalid.
    apply isValidWord_spec in Hvalid. by apply elem_of_nil in Hvalid.
  - unfold accepted. rewrite Hempty.
    assert (isValidWord [] (Js.join (readRow g)) = false) as ->.
    { apply not_true_is_false. rewrite isValidWord_spec. apply not_elem_of_nil. }
    by rewrite andb_false_r.
Qed.

(** X10. A response that is ok but has no line of [WORD_LENGTH] characters is
    not treated as an error. The page starts with no message, the word of the
    session is [undefined], no submission is ever accepted, and the session
    stays in progress whatever is typed. *)
Theorem empty_word_list (res : Response) (keyboard : gmap string (gset string))
    (idx : nat) (events : list (nat * Event)) (delay : nat) :
  ok res = true ->
  parseWords (body res) = [] ->
  let p0 := start res keyboard idx in
  WORD (game p0) = None /\
  messageShown (message (game p0)) = false /\
  attempts p0 events = [] /\
  status (game (advance delay (run p0 events))) = InProgress.
Proof.
  intros Hok Hnone p0.
  assert (p0 = quiet (resetGame idx (pageLoaded [] keyboard))) as Hp0.
  { unfold p0, start, fetchWords. by rewrite Hok, Hnone. }
  destruct (resetGame_fields idx (pageLoaded [] keyboard))
    as (Hvw & HW & _ & _ & Hover & _ & _ & Hmsg).
  set (I := fun g => validWords g = [] /\ gameOver g = false).
  set (T := fun t => isCritical t = false).
  assert (forall t g, T t -> I g -> I (fire t g).1
                                   /\ Forall (fun dt => T dt.2) (fire t g).2) as Hfire.
  { intros t g Ht (Hg1 & Hg2).
    destruct (fire_noncritical t g Ht) as (H1 & _ & _ & _ & H5).
    split; [| done]. split; [| congruence].
    pose proof (fire_sessionWords t g) as [= Hw _]. congruence. }
  assert (forall g e, I g -> I (handle g e).1
                             /\ Forall (fun dt => T dt.2) (handle g e).2) as Hhandle.
  { intros g e (Hg1 & Hg2).
    destruct (handle_empty_list g e Hg1) as (H1 & _).
    split; [| done]. split; [| by rewrite handle_gameOver].
    pose proof (handle_sessionWords g e) as [= Hw _]. congruence. }
  assert (pageHolds I T p0) as Hp.
  { rewrite Hp0. split; [by split | constructor]. }
  split; [by rewrite Hp0 |]. split; [by rewrite Hp0; cbn [game quiet]; rewrite Hmsg |].
  split.
  - apply Forall_False_nil.
    apply (attempts_Forall I T Hfire Hhandle (fun _ => False)); [| done].
    intros g e w (Hg1 & _) Hacc.
    destruct (handle_empty_list g e Hg1) as (_ & Hn). congruence.
  - destruct (advance_holds I T Hfire delay _ (run_holds I T Hfire Hhandle events p0 Hp))
      as [(_ & H2) _].
    unfold status. by rewrite H2.
Qed.

Lemma empty_word_list_witness :
  let res := {| ok := true; body := "hi" +:+ LF +:+ "there!" |} in
  let p0 := start res demoKeyboard 0 in
  let events := guessAfter 0 "hello" in
  ok res = true /\ parseWords (body res) = [] /\
  WORD (game p0) = None /\
  attempts p0 events = [] /\
  status (game (advance 5000 (run p0 events))) = InProgress.
Proof.
  split; [reflexivity |]. split; [reflexivity |].
  pose proof (empty_word_list {| ok := true; body := "hi" +:+ LF +:+ "there!" |}
                demoKeyboard 0 (guessAfter 0 "hello") 5000 eq_refl eq_refl)
    as (H1 & _ & H3 & H4).
  split; [exact H1 |]. split; [exact H3 | exact H4].
Defined.

(** *** A new session *)

Lemma forLoop_S {A : Type} (n : nat) (body : A -> nat -> A) (s : A) :
  forLoop (S n) body s = body (forLoop n body s) n.
Proof. unfold forLoop. by rewrite seq_S, foldl_snoc. Qed.

Lemma tiles_clearRow (r0 n : nat) (g : Game) (r c : nat) :
  tiles (forLoop n (fun g c => withTile r0 c (fun _ => blankTile) g) g) !! (r, c) =
    if bool_decide (r = r0 /\ c < n) then (fun _ => blankTile) <$> tiles g !! (r, c)
    else tiles g !! (r, c).
Proof.
  induction n as [|n IH].
  - rewrite bool_decide_eq_false_2 by lia. done.
  - rewrite forLoop_S. unfold withTile at 1. cbn [tiles set_tiles].
    destruct (decide ((r0, n) = (r, c))) as [[= -> ->]|Hne].
    + rewrite lookup_alter_eq, IH.
      rewrite bool_decide_eq_false_2 by lia.
      rewrite bool_decide_eq_true_2 by lia. done.
    + rewrite lookup_alter_ne, IH by done.
      apply (f_equal (fun b : bool => if b then _ else _)).
      apply bool_decide_ext. split; [lia |].
      intros [-> Hc]. split; [done |].
      destruct (decide (c = n)) as [->|]; [done | lia].
Qed.

Lemma tiles_clearRows (n : nat) (g : Game) (r c : nat) :
  tiles (forLoop n (fun g r =>
           forLoop WORD_LENGTH (fun g c => withTile r c (fun _ => blankTile) g) g) g)
    !! (r, c) =
    if bool_decide (r < n /\ c < WORD_LENGTH)
    then (fun _ => blankTile) <$> tiles g !! (r, c)
    else tiles g !! (r, c).
Proof.
  induction n as [|n IH].
  - rewrite bool_decide_eq_false_2 by lia. done.
  - rewrite forLoop_S, tiles_clearRow, IH.
    destruct (decide (r = n)) as [->|Hne].
    + rewrite (bool_decide_eq_false_2 (n < n /\ _)) by lia.
      apply (f_equal (fun b : bool => if b then _ else _)).
      apply bool_decide_ext. lia.
    + rewrite (bool_decide_eq_false_2 (r = n /\ _)) by tauto.
      apply (f_equal (fun b : bool => if b then _ else _)).
      apply bool_decide_ext. lia.
Qed.

Lemma tiles_clearTiles (g : Game) (r c : nat) :
  tiles (clearTiles g) !! (r, c) =
    if bool_decide (r < MAX_GUESSES /\ c < WORD_LENGTH)
    then (fun _ => blankTile) <$> tiles g !! (r, c)
    else tiles g !! (r, c).
Proof. apply tiles_clearRows. Qed.

Lemma keys_clearTiles (g : Game) : keys (clearTiles g) = keys g.
Proof.
  unfold clearTiles. apply (forLoop_preserves keys). intros s r.
  by apply (forLoop_preserves keys).
Qed.

Lemma tiles_set_WORD v g : tiles (set_WORD v g) = tiles g.
Proof. reflexivity. Qed.
Lemma tiles_set_message v g : tiles (set_message v g) = tiles g.
Proof. reflexivity. Qed.
Lemma tiles_set_keys v g : tiles (set_keys v g) = tiles g.
Proof. reflexivity. Qed.
Lemma keys_set_WORD v g : keys (set_WORD v g) = keys g.
Proof. reflexivity. Qed.
Lemma keys_set_message v g : keys (set_message v g) = keys g.
Proof. reflexivity. Qed.
Lemma keys_set_keys v g : keys (set_keys v g) = v.
Proof. reflexivity. Qed.

Lemma tiles_resetGame idx g r c :
  tiles (resetGame idx g) !! (r, c) =
    if bool_decide (r < MAX_GUESSES /\ c < WORD_LENGTH)
    then (fun _ => blankTile) <$> tiles g !! (r, c)
    else tiles g !! (r, c).
Proof.
  unfold resetGame, chooseNewWord. cbv zeta.
  by rewrite tiles_set_WORD, tiles_set_message, tiles_set_keys, tiles_clearTiles.
Qed.

Lemma keys_resetGame idx g :
  keys (resetGame idx g) = (fun cl => cl ∖ stateClasses) <$> keys g.
Proof.
  unfold resetGame, chooseNewWord. cbv zeta.
  by rewrite keys_set_WORD, keys_set_message, keys_set_keys, keys_clearTiles.
Qed.

Lemma setupGrid_lookup r c :
  setupGrid !! (r, c) =
    if bool_decide (r < MAX_GUESSES /\ c < WORD_LENGTH) then Some blankTile else None.
Proof.
  case_bool_decide as H.
  - destruct H as [Hr Hc]. unfold MAX_GUESSES in Hr. unfold WORD_LENGTH in Hc.
    destruct r as [|[|[|[|[|[|r]]]]]]; try lia;
      destruct c as [|[|[|[|[|c]]]]]; try lia; by vm_compute.
  - apply not_elem_of_dom. fold gridIds. by rewrite gridIds_elem.
Qed.

Lemma keyStatus_no_state cl : keyStatus (cl ∖ stateClasses) = None.
Proof.
  unfold keyStatus, stateClasses. repeat case_bool_decide; try done; set_solver.
Qed.

(** X11. [resetGame] on a page that has its grid starts a fresh session on
    the same word list: the grid is again as [setupGrid] made it, every key
    has lost its state classes and kept its others, the counters are zero,
    nothing is animating, the message is hidden, the session is in progress,
    and the word is the entry of the list at the index drawn. *)
Theorem resetGame_fresh (idx : nat) (g : Game) :
  dom (tiles g) = gridIds ->
  let g' := resetGame idx g in
  tiles g' = setupGrid /\
  keys g' = (fun cl => cl ∖ stateClasses) <$> keys g /\
  (forall k cl, keys g' !! k = Some cl -> keyStatus cl = None) /\
  status g' = InProgress /\
  currentRow g' = 0 /\ currentTile g' = 0 /\ isAnimating g' = false /\
  messageShown (message g') = false /\
  validWords g' = validWords g /\
  WORD g' = validWords g !! idx.
Proof.
  intros Hdom g'.
  destruct (resetGame_fields idx g) as (Hvw & HW & Hrow & Htile & Hover & Han & _ & Hmsg).
  fold g' in Hvw, HW, Hrow, Htile, Hover, Han, Hmsg.
  split; [| split; [| split; [| split]]].
  - apply map_eq. intros [r c]. unfold g'.
    rewrite tiles_resetGame, setupGrid_lookup. case_bool_decide as Hin.
    + assert (is_Some (tiles g !! (r, c))) as [t ->]; [| done].
      apply elem_of_dom. rewrite Hdom. by apply gridIds_elem.
    + apply not_elem_of_dom. rewrite Hdom. by rewrite gridIds_elem.
  - apply keys_resetGame.
  - intros k cl. unfold g'. rewrite keys_resetGame, lookup_fmap.
    destruct (keys g !! k) as [cl0|]; [| done]. intros [= <-].
    apply keyStatus_no_state.
  - unfold status. by rewrite Hover.
  - rewrite Hmsg. done.
Qed.

Lemma resetGame_fresh_witness :
  let g := game (advance 2000 (run (quiet demoGame) winOnLastRow)) in
  dom (tiles g) = gridIds /\ status g = Won /\
  tiles (resetGame 1 g) = setupGrid /\
  status (resetGame 1 g) = InProgress /\
  WORD (resetGame 1 g) = Some "CRANK".
Proof.
  assert (dom (tiles (game (advance 2000 (run (quiet demoGame) winOnLastRow)))) = gridIds)
    as Hdom by (vm_compute; reflexivity).
  split; [exact Hdom |]. split; [vm_compute; reflexivity |].
  pose proof (resetGame_fresh 1 _ Hdom) as (H1 & _ & _ & H4 & _ & _ & _ & _ & _ & H10).
  split; [exact H1 |]. split; [exact H4 |]. rewrite H10. vm_compute. reflexivity.
Defined.

(** *** Rows and letters *)

Lemma addLetter_tileText letter g r c :
  tileText (addLetter letter g) r c =
    if bool_decide ((currentTile g < WORD_LENGTH /\ isAnimating g = false) /\
                    (r, c) = (currentRow g, currentTile g) /\
                    is_Some (tiles g !! (r, c)))
    then letter else tileText g r c.
Proof.
  unfold addLetter.
  destruct (currentTile g <? WORD_LENGTH) eqn:Hlt; cbn [andb].
  2: { apply Nat.ltb_ge in Hlt. rewrite bool_decide_eq_false_2; [done | lia]. }
  apply Nat.ltb_lt in Hlt.
  destruct (isAnimating g) eqn:Han; cbn [negb].
  { rewrite bool_decide_eq_false_2; [done |]. intros [[_ ?] _]. done. }
  change (tileText (set_currentTile ?v ?g') r c) with (tileText g' r c).
  rewrite tileText_withTile.
  destruct (decide ((currentRow g, currentTile g) = (r, c))) as [[= <- <-]|Hne].
  - unfold tileText. destruct (tiles g !! _) as [t|] eqn:Ht.
    + rewrite bool_decide_eq_true_2; [done |]. by repeat split.
    + rewrite bool_decide_eq_false_2; [done |]. intros (_ & _ & [? ?]). done.
  - rewrite bool_decide_eq_false_2; [done |]. intros (_ & ? & _). done.
Qed.

Lemma deleteLetter_tileText g r c :
  tileText (deleteLetter g) r c =
    if bool_decide ((0 < currentTile g /\ isAnimating g = false) /\
                    (r, c) = (currentRow g, currentTile g - 1))
    then "" else tileText g r c.
Proof.
  unfold deleteLetter.
  destruct (0 <? currentTile g) eqn:Hlt; cbn [andb].
  2: { apply Nat.ltb_ge in Hlt. rewrite bool_decide_eq_false_2; [done | lia]. }
  apply Nat.ltb_lt in Hlt.
  destruct (isAnimating g) eqn:Han; cbn [negb].
  { rewrite bool_decide_eq_false_2; [done |]. intros [[_ ?] _]. done. }
  cbv zeta. rewrite tileText_withTile.
  cbn [currentRow currentTile set_currentTile].
  destruct (decide ((currentRow g, currentTile g - 1) = (r, c))) as [[= <- <-]|Hne].
  - rewrite bool_decide_eq_true_2 by done.
    cbn [tiles set_currentTile]. by destruct (tiles g !! _).
  - rewrite bool_decide_eq_false_2; [done |]. intros (_ & ?). done.
Qed.

(** A handler writes letters on the current row only. *)
Lemma handle_tileText_other g e r c :
  r <> currentRow g -> tileText (handle g e).1 r c = tileText g r c.
Proof.
  intros Hr.
  apply (handle_cases (fun s => tileText s.1 r c = tileText g r c)); try done.
  - intros _. apply submitGuess_tileText.
  - intros _. cbn [fst]. rewrite deleteLetter_tileText.
    rewrite bool_decide_eq_false_2; [done |]. intros [_ [= ? _]]. done.
  - intros letter _. cbn [fst]. rewrite addLetter_tileText.
    rewrite bool_decide_eq_false_2; [done |]. intros (_ & [= ? _] & _). done.
Qed.

Lemma fire_currentRow t g : currentRow g <= currentRow (fire t g).1.
Proof.
  destruct t; cbn [fire fst]; try done.
  unfold endAnimation; cbv zeta. repeat case_bool_decide; cbn; lia.
Qed.

(** X12. A row the session has left is never written again: on a sound
    page the current row never goes back, and every tile of a row above it
    keeps its letter through any inputs and callbacks. *)
Theorem submitted_rows_fixed (p : Page) (events : list (nat * Event)) (delay : nat)
    (r c : nat) :
  sound p ->
  r < currentRow (game p) ->
  let g' := game (advance delay (run p events)) in
  currentRow (game p) <= currentRow g' /\
  tileText g' r c = tileText (game p) r c.
Proof.
  intros _ Hr g'.
  set (I := fun g => currentRow (game p) <= currentRow g /\
                     tileText g r c = tileText (game p) r c).
  set (T := fun _ : Timer => True).
  assert (forall t g, T t -> I g -> I (fire t g).1
                                   /\ Forall (fun dt => T dt.2) (fire t g).2) as Hfire.
  { intros t g _ (Hg1 & Hg2). split; [| by apply Forall_forall].
    split; [pose proof (fire_currentRow t g); lia | by rewrite fire_tileText]. }
  assert (forall g e, I g -> I (handle g e).1
                             /\ Forall (fun dt => T dt.2) (handle g e).2) as Hhandle.
  { intros g e (Hg1 & Hg2). split; [| by apply Forall_forall].
    split; [by rewrite handle_currentRow |].
    rewrite handle_tileText_other; [done | lia]. }
  assert (pageHolds I T p) as Hp by (split; [by split | by apply Forall_forall]).
  apply (advance_holds I T Hfire delay _ (run_holds I T Hfire Hhandle events p Hp)).
Qed.

Lemma submitted_rows_fixed_witness :
  let p := advance 2000 (run (quiet demoGame) (guessAfter 0 "react")) in
  let events := guessAfter 0 "crank" in
  sound p /\ 0 < currentRow (game p) /\
  tileText (game (advance 2000 (run p events))) 0 2 = tileText (game p) 0 2.
Proof.
  assert (0 < currentRow (game (advance 2000 (run (quiet demoGame) (guessAfter 0 "react")))))
    as Hrow by (vm_compute; lia).
  assert (sound (advance 2000 (run (quiet demoGame) (guessAfter 0 "react")))) as Hsound.
  { split; [split; [vm_compute; reflexivity | vm_compute; lia] |].
    vm_compute. constructor. }
  split; [exact Hsound |]. split; [exact Hrow |].
  apply (submitted_rows_fixed _ (guessAfter 0 "crank") 2000 0 2 Hsound Hrow).
Defined.

(** *** Upper case *)

Lemma toUpperCase_app s1 s2 :
  Js.toUpperCase (s1 +:+ s2) = Js.toUpperCase s1 +:+ Js.toUpperCase s2.
Proof. induction s1 as [|a s1 IH]; [done |]. simpl. rewrite IH. reflexivity. Qed.

Lemma readRow_eq g :
  readRow g = (fun i => tileText g (currentRow g) i) <$> seq 0 WORD_LENGTH.
Proof. reflexivity. Qed.

Lemma toUpperCase_join (l : list string) :
  Forall (fun s => Js.toUpperCase s = s) l -> Js.toUpperCase (Js.join l) = Js.join l.
Proof.
  induction 1 as [|s l Hs Hl IH]; [done |].
  cbn [Js.join foldr]. rewrite toUpperCase_app. fold (Js.join l). by rewrite Hs, IH.
Qed.

Lemma fire_upperTiles t g : upperTiles g -> upperTiles (fire t g).1.
Proof. intros H r c. by rewrite fire_tileText. Qed.

Lemma handle_upperTiles g e : upperTiles g -> upperTiles (handle g e).1.
Proof.
  intros H.
  apply (handle_cases (fun s => upperTiles s.1)); try done.
  - intros _ r c. by rewrite submitGuess_tileText.
  - intros _ r c. cbn [fst]. rewrite deleteLetter_tileText. by case_bool_decide.
  - intros letter _ r c. cbn [fst]. rewrite addLetter_tileText.
    case_bool_decide; [apply toUpperCase_idem | apply H].
Qed.

Lemma resetGame_tileText idx words keyboard r c :
  tileText (resetGame idx (pageLoaded words keyboard)) r c = "".
Proof.
  unfold tileText. rewrite tiles_resetGame.
  change (tiles (pageLoaded words keyboard)) with setupGrid.
  rewrite setupGrid_lookup. by case_bool_decide.
Qed.

(** X13. From the loaded page on, every tile holds its text in upper case,
    and so every guess word that is accepted is in upper case: the form in
    which the entries of the word list are stored and [isValidWord] compares. *)
Theorem guesses_upper_case (words : list string) (keyboard : gmap string (gset string))
    (idx : nat) (events : list (nat * Event)) (delay : nat) :
  let p0 := quiet (resetGame idx (pageLoaded words keyboard)) in
  upperTiles (game (advance delay (run p0 events))) /\
  Forall (fun w => Js.toUpperCase w = w) (attempts p0 events).
Proof.
  intros p0.
  set (T := fun _ : Timer => True).
  assert (forall t g, T t -> upperTiles g ->
            upperTiles (fire t g).1 /\ Forall (fun dt => T dt.2) (fire t g).2) as Hfire.
  { intros t g _ Hg. split; [by apply fire_upperTiles | by apply Forall_forall]. }
  assert (forall g e, upperTiles g ->
            upperTiles (handle g e).1 /\ Forall (fun dt => T dt.2) (handle g e).2)
    as Hhandle.
  { intros g e Hg. split; [by apply handle_upperTiles | by apply Forall_forall]. }
  assert (pageHolds upperTiles T p0) as Hp.
  { split; [| constructor]. intros r c. cbn [p0 quiet game].
    by rewrite resetGame_tileText. }
  split.
  - apply (advance_holds upperTiles T Hfire delay _
             (run_holds upperTiles T Hfire Hhandle events p0 Hp)).
  - apply (attempts_Forall upperTiles T Hfire Hhandle); [| done].
    intros g e w Hg Hacc. unfold accepted in Hacc.
    destruct (_ && _); [| done].
    assert (w = Js.join (readRow g)) as -> by congruence.
    apply toUpperCase_join. rewrite readRow_eq.
    apply Forall_fmap, Forall_forall. intros i _. apply Hg.
Qed.

(** *** The tiles behind the cursor *)

Lemma unusedBlank_same g g' :
  tiles g' = tiles g -> currentRow g' = currentRow g -> currentTile g' = currentTile g ->
  unusedBlank g -> unusedBlank g'.
Proof.
  intros Ht Hr Hc H r c t. unfold unusedTile. rewrite Ht, Hr, Hc. apply H.
Qed.

Lemma unusedBlank_addClass r0 c0 cls g :
  cls <> "filled" -> unusedBlank g -> unusedBlank (withTile r0 c0 (addClass cls) g).
Proof.
  intros Hcls H r c t. unfold withTile, unusedTile. cbn [tiles currentRow currentTile set_tiles].
  destruct (decide ((r0, c0) = (r, c))) as [[= <- <-]|Hne].
  - rewrite lookup_alter_eq. destruct (tiles g !! (r0, c0)) as [t0|] eqn:Ht0; [| done].
    intros [= <-] Hun. destruct (H r0 c0 t0 Ht0 Hun) as [H1 H2].
    split; [done |]. cbn. set_solver.
  - rewrite lookup_alter_ne by done. apply H.
Qed.

Lemma fire_unusedBlank t g : unusedBlank g -> unusedBlank (fire t g).1.
Proof.
  intros H. destruct t as [| i st letter | r' i st | guessWord | r' i | |];
    cbn [fire fst]; try done.
  - unfold revealLetter. cbn [fst].
    apply (unusedBlank_same (withTile (currentRow g) i (addClass "flip") g)); try done.
    by apply unusedBlank_addClass.
  - apply unusedBlank_addClass; [by destruct st | done].
  - unfold endAnimation; cbv zeta. repeat case_bool_decide; cbn [fst]; try done.
    intros r c t Ht Hun. apply (H r c t Ht).
    unfold unusedTile in *.
    cbn [currentRow currentTile set_currentTile set_currentRow set_isAnimating] in Hun.
    lia.
  - by apply unusedBlank_addClass.
Qed.

Lemma submitGuess_shape g : shape (submitGuess g).1 = shape g /\ tiles (submitGuess g).1 = tiles g.
Proof. by apply (submitGuess_cases (fun s => shape s.1 = shape g /\ tiles s.1 = tiles g)). Qed.

Lemma handle_unusedBlank g e : unusedBlank g -> unusedBlank (handle g e).1.
Proof.
  intros H.
  apply (handle_cases (fun s => unusedBlank s.1)); try done.
  - intros _. destruct (submitGuess_shape g) as [Hs Ht].
    apply shape_eq in Hs as (_ & Hr & Hc). by apply (unusedBlank_same g).
  - intros _. cbn [fst]. unfold deleteLetter.
    destruct (0 <? currentTile g) eqn:Hlt; cbn [andb]; [| done].
    apply Nat.ltb_lt in Hlt. destruct (negb _); [| done]. cbv zeta.
    intros r c t. unfold withTile, unusedTile.
    cbn [tiles currentRow currentTile set_tiles set_currentTile].
    destruct (decide ((currentRow g, currentTile g - 1) = (r, c))) as [[= <- <-]|Hne].
    + rewrite lookup_alter_eq. destruct (tiles g !! _) as [t0|]; [| done].
      intros [= <-] _. split; [done |]. cbn. set_solver.
    + rewrite lookup_alter_ne by done. intros Ht Hun. apply (H r c t Ht).
      unfold unusedTile. destruct Hun as [Hun | [-> Hun]]; [by left | right].
      split; [done |]. destruct (decide (c = currentTile g - 1)) as [->|]; [done | lia].
  - intros letter _. cbn [fst]. unfold addLetter.
    destruct (currentTile g <? WORD_LENGTH) eqn:Hlt; cbn [andb]; [| done].
    destruct (negb _); [| done].
    intros r c t. unfold withTile, unusedTile.
    cbn [tiles currentRow currentTile set_tiles set_currentTile].
    destruct (decide ((currentRow g, currentTile g) = (r, c))) as [[= <- <-]|Hne].
    + intros _ Hun. lia.
    + rewrite lookup_alter_ne by done. intros Ht Hun. apply (H r c t Ht).
      unfold unusedTile. lia.
Qed.

(** X14. From the loaded page on, through any inputs at any times, the tiles
    behind the cursor (on the rows below the current one, and on the current
    row from the current tile on) have no letter and do not carry the class
    [filled]. *)
Theorem unused_tiles_blank (words : list string) (keyboard : gmap string (gset string))
    (idx : nat) (events : list (nat * Event)) (delay : nat) (r c : nat) :
  let g := game (advance delay (run (quiet (resetGame idx (pageLoaded words keyboard)))
                                     events)) in
  unusedTile g r c ->
  tileText g r c = "" /\
  forall t, tiles g !! (r, c) = Some t -> "filled" ∉ classList t.
Proof.
  intros g Hun.
  set (T := fun _ : Timer => True).
  assert (forall t g, T t -> unusedBlank g ->
            unusedBlank (fire t g).1 /\ Forall (fun dt => T dt.2) (fire t g).2) as Hfire.
  { intros t g0 _ Hg. split; [by apply fire_unusedBlank | by apply Forall_forall]. }
  assert (forall g e, unusedBlank g ->
            unusedBlank (handle g e).1 /\ Forall (fun dt => T dt.2) (handle g e).2)
    as Hhandle.
  { intros g0 e Hg. split; [by apply handle_unusedBlank | by apply Forall_forall]. }
  assert (pageHolds unusedBlank T (quiet (resetGame idx (pageLoaded words keyboard))))
    as Hp.
  { split; [| constructor]. intros r' c' t. cbn [quiet game].
    rewrite tiles_resetGame.
    change (tiles (pageLoaded words keyboard)) with setupGrid.
    rewrite setupGrid_lookup. case_bool_decide; [| done].
    intros [= <-] _. split; [done |]. cbn. set_solver. }
  destruct (advance_holds unusedBlank T Hfire delay _
              (run_holds unusedBlank T Hfire Hhandle events _ Hp)) as [Hg _].
  fold g in Hg. split.
  - unfold tileText. destruct (tiles g !! (r, c)) as [t|] eqn:Ht; [| done].
    by destruct (Hg r c t Ht Hun).
  - intros t Ht. by destruct (Hg r c t Ht Hun).
Qed.

Lemma unused_tiles_blank_witness :
  let g := game (advance 0 (run (quiet (resetGame 0 (pageLoaded ["CRANE"] demoKeyboard)))
                                (keysAfter 0 ["c"; "r"; "Backspace"]))) in
  unusedTile g 0 1 /\ tileText g 0 0 = "C" /\ tileText g 0 1 = "".
Proof.
  assert (unusedTile
            (game (advance 0 (run (quiet (resetGame 0 (pageLoaded ["CRANE"] demoKeyboard)))
                                  (keysAfter 0 ["c"; "r"; "Backspace"])))) 0 1) as Hun.
  { right. vm_compute. split; [reflexivity | lia]. }
  split; [exact Hun |]. split; [vm_compute; reflexivity |].
  apply (unused_tiles_blank ["CRANE"] demoKeyboard 0
           (keysAfter 0 ["c"; "r"; "Backspace"]) 0 0 1 Hun).
Defined.

(** X15. Backspace undoes a letter: when nothing is animating, the row is
    not full and the tile at the cursor is there, empty and not [filled] (as
    it is along a session), [deleteLetter] after [addLetter] gives back the
    very state [addLetter] started from. *)
Theorem deleteLetter_addLetter (letter : string) (g : Game) :
  isAnimating g = false ->
  currentTile g < WORD_LENGTH ->
  (exists t, tiles g !! (currentRow g, currentTile g) = Some t /\
             textContent t = "" /\ "filled" ∉ classList t) ->
  deleteLetter (addLetter letter g) = g.
Proof.
  intros Han Hlt (t0 & Ht0 & Htext0 & Hfilled0).
  assert (forall t, tiles g !! (currentRow g, currentTile g) = Some t ->
                    textContent t = "" /\ "filled" ∉ classList t) as Hblank.
  { intros t Ht. assert (t = t0) as -> by congruence. done. }
  clear t0 Ht0 Htext0 Hfilled0. unfold addLetter.
  rewrite (proj2 (Nat.ltb_lt _ _) Hlt), Han. cbn [andb negb]. cbv zeta.
  unfold deleteLetter.
  cbn [currentTile currentRow isAnimating set_currentTile withTile set_tiles tiles].
  rewrite Han. cbn [Nat.ltb Nat.leb andb negb]. cbv zeta.
  replace (S (currentTile g) - 1) with (currentTile g) by lia.
  destruct g as [vw W row ct over an ts ks help msg].
  unfold withTile, set_currentTile, set_tiles; cbn in *. f_equal.
  apply map_eq. intros rc. destruct (decide ((row, ct) = rc)) as [<-|Hne].
  - rewrite !lookup_alter_eq. destruct (ts !! (row, ct)) as [t|] eqn:Ht; [| done].
    destruct (Hblank t eq_refl) as [Htext Hfilled]. cbn. f_equal.
    destruct t as [text cl]. cbn in *. subst text.
    unfold removeClass, setText, addClass. cbn [textContent classList]. f_equal.
    clear Hblank Ht. set_solver.
  - by rewrite !lookup_alter_ne.
Qed.

Lemma deleteLetter_addLetter_witness :
  isAnimating demoGame = false /\ currentTile demoGame < WORD_LENGTH /\
  deleteLetter (addLetter "A" demoGame) = demoGame.
Proof.
  split; [reflexivity |]. split; [vm_compute; lia |].
  apply (deleteLetter_addLetter "A" demoGame); [reflexivity | vm_compute; lia |].
  exists blankTile. split; [vm_compute; reflexivity |]. split; [reflexivity |].
  apply (bool_decide_unpack _). vm_compute. exact I.
Defined.

(** *** Keys *)

Lemma submitGuess_helpShown g : helpShown (submitGuess g).1 = helpShown g.
Proof. by apply (submitGuess_cases (fun s => helpShown s.1 = helpShown g)). Qed.

Lemma addLetter_helpShown letter g : helpShown (addLetter letter g) = helpShown g.
Proof. unfold addLetter. by destruct (_ && _). Qed.

Lemma deleteLetter_helpShown g : helpShown (deleteLetter g) = helpShown g.
Proof. unfold deleteLetter. by destruct (_ && _). Qed.

(** X16. The Escape key never does anything, and no key opens or closes the
    help modal: the key handler returns at once while the modal is shown, so
    the branch of line 67 that closes it on Escape is never taken. *)
Theorem escape_does_nothing (g : Game) (key : string) :
  handle g (KeyDown "Escape") = (g, []) /\
  helpShown (handle g (KeyDown key)).1 = helpShown g.
Proof.
  split.
  - cbn [handle]. destruct (inputIgnored g) eqn:Hign; [done |].
    unfold inputIgnored in Hign.
    apply orb_false_elim in Hign as [[_ Hhelp]%orb_false_elim _].
    rewrite Hhelp. reflexivity.
  - cbn [handle]. destruct (inputIgnored g) eqn:Hign; [done |].
    unfold inputIgnored in Hign.
    apply orb_false_elim in Hign as [[_ Hhelp]%orb_false_elim _].
    rewrite Hhelp, andb_false_r.
    destruct (bool_decide _); [by rewrite submitGuess_helpShown |].
    destruct (bool_decide _); [by rewrite <- Hhelp; apply deleteLetter_helpShown |].
    destruct (Js.isLetter key); [| done].
    rewrite <- Hhelp. apply addLetter_helpShown.
Qed.

(** A letter key that is not ignored is a call of [addLetter]. *)
Lemma handle_letter g k :
  Js.isLetter k = true -> inputIgnored g = false ->
  handle g (KeyDown k) = (addLetter (Js.toUpperCase k) g, []).
Proof.
  intros Hk Hign. cbn [handle]. rewrite Hign, Hk.
  destruct k as [|a [|b k]]; try done.
  rewrite !bool_decide_eq_false_2 by done. done.
Qed.

Lemma handle_submit g e :
  isSubmit e = true -> inputIgnored g = false -> handle g e = submitGuess g.
Proof.
  intros Hsub Hign.
  destruct e as [key | k | |]; cbn [isSubmit] in Hsub; try done;
    apply bool_decide_eq_true in Hsub as ->; cbn [handle]; rewrite Hign.
  - unfold inputIgnored in Hign.
    apply orb_false_elim in Hign as [[_ Hhelp]%orb_false_elim _].
    by rewrite Hhelp.
  - done.
Qed.

(** X17. A submission of a row that is not full is turned down: on a page
    with its grid the message is [Not enough letters], nothing else of the
    state changes, no attempt is counted, and (with nothing else pending)
    the message is still shown 999 ms later and hidden after 1000 ms. *)
Theorem submit_incomplete_row (p : Page) (e : Event) :
  wellFormed (game p) ->
  pending p = [] ->
  isSubmit e = true ->
  inputIgnored (game p) = false ->
  currentTile (game p) < WORD_LENGTH ->
  let shown b := set_message {| messageText := "Not enough letters";
                                messageShown := b; playAgainShown := false |} (game p) in
  accepted (game p) e = None /\
  game (handleNow p e) = shown true /\
  game (advance 999 (handleNow p e)) = shown true /\
  game (advance 1000 (handleNow p e)) = shown false.
Proof.
  intros _ Hpend Hsub Hign Hlt shown.
  assert (isAnimating (game p) = false) as Han.
  { unfold inputIgnored in Hign. by apply orb_false_elim in Hign as [_ ?]. }
  assert (submitGuess (game p) = (shown true, [(1000, HideMessage)])) as Hs.
  { unfold submitGuess. rewrite Han.
    rewrite (proj2 (Nat.eqb_neq _ _)) by lia. reflexivity. }
  assert (handleNow p e = {| game := shown true; clock := clock p;
                             pending := [(clock p + 1000, HideMessage)] |}) as ->.
  { unfold handleNow. rewrite (handle_submit _ _ Hsub Hign), Hs, Hpend. reflexivity. }
  split; [| split; [done | split]].
  - unfold accepted. rewrite (proj2 (Nat.eqb_neq _ _)) by lia.
    by rewrite andb_false_r.
  - unfold advance. cbn [pending clock totalWeight fmap list_fmap sum_list weight snd
                         Nat.add fireUntil game].
    rewrite (proj2 (Nat.leb_gt _ _)) by lia. done.
  - unfold advance. cbn [pending clock totalWeight fmap list_fmap sum_list weight snd
                         Nat.add fireUntil game].
    rewrite (proj2 (Nat.leb_le _ _)) by lia. reflexivity.
Qed.

Lemma submit_incomplete_row_witness :
  let p := run (quiet demoGame) (keysAfter 0 ["c"; "r"]) in
  wellFormed (game p) /\
  pending p = [] /\ inputIgnored (game p) = false /\ currentTile (game p) < WORD_LENGTH /\
  accepted (game p) (KeyDown "Enter") = None /\
  messageShown (message (game (advance 999 (handleNow p (KeyDown "Enter"))))) = true /\
  messageShown (message (game (advance 1000 (handleNow p (KeyDown "Enter"))))) = false.
Proof.
  assert (currentTile (game (run (quiet demoGame) (keysAfter 0 ["c"; "r"]))) < WORD_LENGTH)
    as Hlt by (vm_compute; lia).
  assert (wellFormed (game (run (quiet demoGame) (keysAfter 0 ["c"; "r"])))) as Hwf
    by (split; [vm_compute; reflexivity | vm_compute; lia]).
  split; [exact Hwf |].
  split; [reflexivity |]. split; [reflexivity |]. split; [exact Hlt |].
  pose proof (submit_incomplete_row (run (quiet demoGame) (keysAfter 0 ["c"; "r"]))
                (KeyDown "Enter") Hwf eq_refl eq_refl eq_refl Hlt) as (H1 & _ & H3 & H4).
  split; [exact H1 |]. rewrite H3, H4. split; reflexivity.
Defined.

(** *** The elements of the page *)

Lemma fire_sound t g :
  timerInGrid t -> wellFormed g ->
  wellFormed (fire t g).1 /\ Forall (fun dt => timerInGrid dt.2) (fire t g).2.
Proof.
  intros Ht Hwf. split; [by apply wellFormed_fire |].
  destruct Hwf as (_ & Hrow & _).
  destruct t as [| i st letter | r' i st | guessWord | r' i | |];
    cbn [fire].
  - constructor.
  - unfold revealLetter. cbn [snd]. constructor; [| constructor]. by split.
  - constructor.
  - unfold endAnimation; cbv zeta. repeat case_bool_decide; cbn [snd].
    + apply Forall_app. split; [| by repeat constructor].
      unfold bounceRow. apply Forall_fmap, Forall_forall. intros i Hi.
      apply elem_of_seq in Hi. cbn. split; [done | lia].
    + by repeat constructor.
    + constructor.
  - constructor.
  - constructor.
  - constructor.
Qed.

Lemma startReveal_inGrid states guessArr :
  length guessArr = WORD_LENGTH ->
  Forall (fun dt => timerInGrid dt.2) (startReveal states guessArr).
Proof.
  intros Hlen. apply Forall_lookup. intros j [d t] Hj.
  unfold startReveal in Hj. rewrite list_lookup_imap in Hj.
  destruct (zip states guessArr !! j) as [[st letter]|] eqn:Hz; [| done].
  cbn in Hj. injection Hj as <- <-. cbn.
  apply lookup_lt_Some in Hz. rewrite length_zip_with in Hz. lia.
Qed.

Lemma handle_sound g e :
  wellFormed g ->
  wellFormed (handle g e).1 /\ Forall (fun dt => timerInGrid dt.2) (handle g e).2.
Proof.
  intros Hwf. split; [by apply wellFormed_handle |].
  apply (handle_cases (fun s => Forall (fun dt => timerInGrid dt.2) s.2));
    try by constructor.
  intros _.
  apply (submitGuess_cases (fun s => Forall (fun dt => timerInGrid dt.2) s.2)).
  - constructor.
  - intros text. unfold showMessage. cbn [snd Nat.ltb Nat.leb andb negb].
    by repeat constructor.
  - intros word _ _ _ _. cbn [snd]. apply Forall_app. split.
    + apply startReveal_inGrid, readRow_length.
    + by repeat constructor.
Qed.

(** Every page of a session is sound. *)
Lemma run_sound (p : Page) (events : list (nat * Event)) (delay : nat) :
  sound p -> sound (advance delay (run p events)).
Proof.
  intros Hp.
  apply (advance_holds wellFormed timerInGrid fire_sound).
  by apply (run_holds wellFormed timerInGrid fire_sound handle_sound).
Qed.

(** X18. After a response that is ok, through any inputs of a session at
    any times, every lookup of a tile finds it: the row counter stays below
    [MAX_GUESSES], the tile counter stays at most [WORD_LENGTH], every tile
    of the grid is there, and every pending callback looks up a tile of the
    grid. (The other lookups, of the key of a letter and of the elements of
    the help modal, depend on the markup of the page.) *)
Theorem tile_lookups_succeed (res : Response) (keyboard : gmap string (gset string))
    (idx : nat) (events : list (nat * Event)) (delay : nat) :
  ok res = true ->
  let p := advance delay (run (start res keyboard idx) events) in
  sound p /\
  currentRow (game p) < MAX_GUESSES /\
  currentTile (game p) <= WORD_LENGTH /\
  forall r c, r < MAX_GUESSES -> c < WORD_LENGTH -> is_Some (tiles (game p) !! (r, c)).
Proof.
  intros Hok p.
  assert (sound p) as Hp.
  { apply run_sound. split; [by apply wellFormed_start |].
    unfold start, fetchWords. rewrite Hok. constructor. }
  split; [done |]. destruct Hp as [(Hdom & Hrow & Htile) _].
  split; [done |]. split; [done |]. intros r c Hr Hc.
  apply elem_of_dom. rewrite Hdom. by apply gridIds_elem.
Qed.

Lemma tile_lookups_succeed_witness :
  let res := {| ok := true; body := "crane" |} in
  let p := advance 500 (run (start res demoKeyboard 0) (guessAfter 0 "crane")) in
  ok res = true /\ sound p /\
  snd <$> pending p = [Colour 0 3 correct; Colour 0 4 correct; EndAnimation "CRANE"].
Proof.
  split; [reflexivity |].
  pose proof (tile_lookups_succeed {| ok := true; body := "crane" |} demoKeyboard 0
                (guessAfter 0 "crane") 500 eq_refl) as (H1 & _).
  split; [exact H1 | vm_compute; reflexivity].
Defined.

(** *** The number of attempts *)

Lemma accepted_needs_word g e w : accepted g e = Some w -> is_Some (WORD g).
Proof.
  unfold accepted. destruct (bool_decide (is_Some (WORD g))) eqn:H.
  - intros _. by apply bool_decide_eq_true in H.
  - by rewrite andb_false_r.
Qed.

(** X19. In a run from [resetGame] (on a page with its grid) whose events
    all arrive at settled pages, at most [MAX_GUESSES] submissions are
    accepted. (When an input arrives too early there can be more.) *)
Theorem settled_attempts_bound (g0 : Game) (idx : nat) (events : list (nat * Event)) :
  dom (tiles g0) = gridIds ->
  arrivesSettled (quiet (resetGame idx g0)) events ->
  length (attempts (quiet (resetGame idx g0)) events) <= MAX_GUESSES.
Proof.
  intros _ Harr. destruct (WORD (resetGame idx g0)) as [target|] eqn:HW.
  - pose proof (run_pageInv target events _ [] Harr (resetGame_pageInv idx g0 target HW))
      as [_ Hinv].
    cbn [app] in Hinv.
    destruct (criticals _) as [|t [|t' rest]]; [| destruct t; try done | by destruct t].
    + destruct Hinv as [_ [(_ & _ & H & _) | [(_ & _ & _ & H) | (_ & _ & H & _)]]]; lia.
    + destruct Hinv as (_ & _ & gs' & -> & _ & H & _). rewrite length_app. cbn. lia.
    + destruct Hinv as (_ & _ & _ & H). lia.
    + destruct Hinv as (_ & _ & H & _). lia.
  - set (I := fun g => WORD g = None).
    set (T := fun _ : Timer => True).
    assert (forall t g, T t -> I g -> I (fire t g).1
                                     /\ Forall (fun dt => T dt.2) (fire t g).2) as Hfire.
    { intros t g _ Hg. split; [| by apply Forall_forall].
      pose proof (fire_sessionWords t g) as [= _ Hw]. unfold I. congruence. }
    assert (forall g e, I g -> I (handle g e).1
                               /\ Forall (fun dt => T dt.2) (handle g e).2) as Hhandle.
    { intros g e Hg. split; [| by apply Forall_forall].
      pose proof (handle_sessionWords g e) as [= _ Hw]. unfold I. congruence. }
    rewrite (Forall_False_nil (attempts (quiet (resetGame idx g0)) events));
      [cbn; lia |].
    apply (attempts_Forall I T Hfire Hhandle (fun _ => False)).
    + intros g e w Hg Hacc. apply accepted_needs_word in Hacc as [? Hw].
      unfold I in Hg. congruence.
    + split; [done | constructor].
Qed.

Lemma settled_attempts_bound_witness :
  let events := concat (replicate 6 (guessAfter 2000 "react")) ++ guessAfter 2000 "crane" in
  dom (tiles (pageLoaded ["CRANE"; "CRANK"; "REACT"] demoKeyboard)) = gridIds /\
  arrivesSettled (quiet demoGame) events /\
  length (attempts (quiet demoGame) events) <= MAX_GUESSES.
Proof.
  assert (arrivesSettled (quiet (resetGame 0 (pageLoaded ["CRANE"; "CRANK"; "REACT"] demoKeyboard)))
            (concat (replicate 6 (guessAfter 2000 "react")) ++ guessAfter 2000 "crane"))
    as Harr by (vm_compute; repeat split).
  assert (dom (tiles (pageLoaded ["CRANE"; "CRANK"; "REACT"] demoKeyboard)) = gridIds)
    as Hdom by reflexivity.
  split; [exact Hdom |]. split; [exact Harr |].
  exact (settled_attempts_bound _ 0 _ Hdom Harr).
Defined.

(** *** The keyboard of a session *)

(** X20. During a session, from [resetGame] on (on a page with its grid), a
    key never carries two of the three state classes at once, and its other
    classes are those it had before the session. *)
Theorem keyboard_one_colour (g0 : Game) (idx : nat) (events : list (nat * Event))
    (delay : nat) (k : string) (cl : gset string) :
  dom (tiles g0) = gridIds ->
  keys (game (advance delay (run (quiet (resetGame idx g0)) events))) !! k = Some cl ->
  oneClass cl /\
  exists cl0, keys g0 !! k = Some cl0 /\ otherClasses cl = otherClasses cl0.
Proof.
  destruct (run_keys events (quiet (resetGame idx g0)) delay) as [obs ->].
  rewrite mergeAll_keys. cbn [quiet game]. rewrite keys_resetGame. intros _ Hk.
  assert (is_Some (((fun cl => cl ∖ stateClasses) <$> keys g0) !! k)) as [cl1 Hcl1].
  { apply elem_of_dom. rewrite <- (foldl_mergeStep_dom obs). apply elem_of_dom. by eexists. }
  destruct (foldl_mergeStep_lookup obs _ k cl1 Hcl1) as (cl' & Hl & _ & Ho & H1).
  assert (cl' = cl) as -> by congruence.
  rewrite lookup_fmap in Hcl1. destruct (keys g0 !! k) as [cl0|]; [| done].
  injection Hcl1 as <-. split.
  - apply H1. intros a b Ha _ Hin. set_solver.
  - exists cl0. split; [done |]. rewrite Ho. unfold otherClasses. set_solver.
Qed.

Lemma keyboard_one_colour_witness :
  let g := game (advance 2000 (run (quiet demoGame) (guessAfter 0 "react"))) in
  dom (tiles (pageLoaded ["CRANE"; "CRANK"; "REACT"] demoKeyboard)) = gridIds /\
  exists cl, keys g !! "a" = Some cl /\ oneClass cl.
Proof.
  assert (is_Some (keys (game (advance 2000 (run (quiet demoGame) (guessAfter 0 "react"))))
                     !! "a")) as [cl Hcl].
  { apply (bool_decide_unpack _). vm_compute. exact I. }
  assert (dom (tiles (pageLoaded ["CRANE"; "CRANK"; "REACT"] demoKeyboard)) = gridIds)
    as Hdom by reflexivity.
  split; [exact Hdom |].
  exists cl. split; [exact Hcl |].
  exact (proj1 (keyboard_one_colour _ 0 _ 2000 "a" cl Hdom Hcl)).
Defined.

(** *** Typing a word *)

Lemma addLetter_inputIgnored letter g :
  inputIgnored (addLetter letter g) = inputIgnored g.
Proof. unfold addLetter. by destruct (_ && _). Qed.

Lemma addLetter_counters letter g :
  isAnimating g = false -> currentTile g < WORD_LENGTH ->
  currentRow (addLetter letter g) = currentRow g /\
  currentTile (addLetter letter g) = S (currentTile g) /\
  dom (tiles (addLetter letter g)) = dom (tiles g) /\
  sessionWords (addLetter letter g) = sessionWords g.
Proof.
  intros Han Hlt. unfold addLetter.
  rewrite (proj2 (Nat.ltb_lt _ _) Hlt), Han. cbn [andb negb]. cbv zeta.
  repeat split. cbn. by rewrite dom_alter_L.
Qed.

(** What the row holds after the keys [ks], typed from the cursor on. *)
Lemma typeKeys_row (ks : list string) : forall (g : Game),
  Forall (fun k => Js.isLetter k = true) ks ->
  inputIgnored g = false ->
  currentTile g + length ks <= WORD_LENGTH ->
  (forall c, c < WORD_LENGTH -> is_Some (tiles g !! (currentRow g, c))) ->
  let g' := typeKeys ks g in
  inputIgnored g' = false /\
  currentRow g' = currentRow g /\
  currentTile g' = currentTile g + length ks /\
  sessionWords g' = sessionWords g /\
  (forall c, c < currentTile g -> tileText g' (currentRow g) c = tileText g (currentRow g) c) /\
  (forall j k, ks !! j = Some k ->
     tileText g' (currentRow g) (currentTile g + j) = Js.toUpperCase k).
Proof.
  induction ks as [|k ks IH]; intros g Hks Hign Hlen Htiles g'.
  - unfold g'. cbn. repeat split; try done; lia.
  - apply Forall_cons in Hks as [Hk Hks]. cbn [length] in Hlen.
    assert (isAnimating g = false) as Han.
    { unfold inputIgnored in Hign. by apply orb_false_elim in Hign as [_ ?]. }
    unfold g', typeKeys. cbn [foldl]. rewrite (handle_letter g k Hk Hign). cbn [fst].
    fold (typeKeys ks (addLetter (Js.toUpperCase k) g)).
    set (g1 := addLetter (Js.toUpperCase k) g).
    destruct (addLetter_counters (Js.toUpperCase k) g Han ltac:(lia))
      as (Hrow & Htile & Hdom & Hwords). fold g1 in Hrow, Htile, Hdom, Hwords.
    assert (inputIgnored g1 = false) as Hign1 by by (unfold g1; rewrite addLetter_inputIgnored).
    destruct (IH g1 Hks Hign1) as (H1 & H2 & H3 & H4 & H5 & H6).
    { rewrite Htile. lia. }
    { intros c Hc. rewrite Hrow. apply elem_of_dom. rewrite Hdom. apply elem_of_dom.
      by apply Htiles. }
    rewrite Hrow in H5, H6. rewrite Htile in H3, H5, H6.
    split; [done |]. split; [congruence |]. split; [cbn [length]; lia |].
    split; [congruence |]. split.
    + intros c Hc. rewrite H5 by lia. unfold g1. rewrite addLetter_tileText.
      rewrite bool_decide_eq_false_2; [done |]. intros (_ & [= ?] & _). lia.
    + intros [|j] k' Hj; cbn in Hj.
      * injection Hj as <-. rewrite Nat.add_0_r, H5 by lia.
        unfold g1. rewrite addLetter_tileText.
        rewrite bool_decide_eq_true_2; [done |].
        split; [split; [lia | done] |]. split; [done |]. apply Htiles. lia.
      * replace (currentTile g + S j) with (S (currentTile g) + j) by lia.
        by apply H6.
Qed.

Lemma toUpperCase_letters w :
  Js.toUpperCase <$> Js.letters w = Js.letters (Js.toUpperCase w).
Proof. induction w as [|a w IH]; [done |]. cbn. by rewrite IH. Qed.

(** X21. What is typed is what is submitted. After the [WORD_LENGTH] letter
    keys of a word, typed on an empty row of a page that takes input, the row
    is full and the guess word read from it is the word in upper case; Enter
    then submits exactly that word, and it is accepted if and only if it is
    in the word list and the session has a word. *)
Theorem typed_word_is_submitted (w : string) (g : Game) :
  Js.length w = WORD_LENGTH ->
  Forall (fun k => Js.isLetter k = true) (Js.letters w) ->
  inputIgnored g = false ->
  currentTile g = 0 ->
  (forall c, c < WORD_LENGTH -> is_Some (tiles g !! (currentRow g, c))) ->
  let g' := typeKeys (Js.letters w) g in
  currentTile g' = WORD_LENGTH /\
  Js.join (readRow g') = Js.toUpperCase w /\
  accepted g' (KeyDown "Enter") =
    if isValidWord (validWords g) (Js.toUpperCase w) && bool_decide (is_Some (WORD g))
    then Some (Js.toUpperCase w) else None.
Proof.
  intros Hw Hks Hign Hct Htiles g'.
  destruct (typeKeys_row (Js.letters w) g Hks Hign) as (H1 & H2 & H3 & H4 & _ & H6);
    [rewrite Hct, letters_length, Hw; lia | done |].
  fold g' in H1, H2, H3, H4, H6. rewrite Hct, letters_length, Hw in H3. cbn in H3.
  assert (readRow g' = Js.letters (Js.toUpperCase w)) as Hrow.
  { rewrite <- toUpperCase_letters.
    apply (list_eq_same_length _ _ WORD_LENGTH).
    - by rewrite length_fmap, letters_length.
    - apply readRow_length.
    - intros j x y Hj Hx Hy. rewrite readRow_eq in Hx.
      rewrite list_lookup_fmap in Hx. rewrite list_lookup_fmap in Hy.
      rewrite lookup_seq_lt in Hx by done. cbn in Hx. injection Hx as <-.
      destruct (Js.letters w !! j) as [k|] eqn:Hk; [| done]. injection Hy as <-.
      rewrite H2. specialize (H6 j k Hk). by rewrite Hct in H6. }
  split; [done |]. rewrite Hrow, join_letters. split; [done |].
  unfold accepted. rewrite H1, H3, Hrow, join_letters. cbn [isSubmit negb andb].
  rewrite bool_decide_eq_true_2 by done. rewrite Nat.eqb_refl. cbn [andb].
  injection H4 as -> ->. done.
Qed.

Lemma typed_word_is_submitted_witness :
  Js.length "crane" = WORD_LENGTH /\
  inputIgnored demoGame = false /\ currentTile demoGame = 0 /\
  Js.join (readRow (typeKeys (Js.letters "crane") demoGame)) = "CRANE" /\
  accepted (typeKeys (Js.letters "crane") demoGame) (KeyDown "Enter") = Some "CRANE".
Proof.
  split; [reflexivity |]. split; [reflexivity |]. split; [reflexivity |].
  assert (Forall (fun k => Js.isLetter k = true) (Js.letters "crane")) as Hks
    by (repeat constructor).
  assert (forall c, c < WORD_LENGTH -> is_Some (tiles demoGame !! (currentRow demoGame, c)))
    as Htiles.
  { intros c Hc. unfold WORD_LENGTH in Hc.
    destruct c as [|[|[|[|[|c]]]]]; try lia; apply (bool_decide_unpack _); vm_compute; exact I. }
  pose proof (typed_word_is_submitted "crane" demoGame eq_refl Hks eq_refl eq_refl Htiles)
    as (_ & H2 & H3).
  split; [exact H2 | exact H3].
Defined.

(** *** How long a submission is on its way *)

Lemma Forall_insertTimer_due (P : nat * Timer -> Prop) due t timers :
  P (due, t) -> Forall P timers -> Forall P (insertTimer due t timers).
Proof.
  intros Ht. induction timers as [|[due' t'] rest IH]; intros Hall; cbn [insertTimer].
  - by constructor.
  - destruct (due' <=? due).
    + apply Forall_cons in Hall as [H1 H2]. constructor; [done | by apply IH].
    + by constructor.
Qed.

Lemma Forall_schedule_due (P : nat * Timer -> Prop) now started timers :
  Forall (fun dt => P (now + dt.1, dt.2)) started -> Forall P timers ->
  Forall P (schedule now started timers).
Proof.
  unfold schedule. revert timers.
  induction started as [|[d t] started IH]; intros timers Hs Ht; [done |].
  apply Forall_cons in Hs as [H1 H2]. cbn [foldl]. apply IH; [done |].
  by apply Forall_insertTimer_due.
Qed.

Lemma noncritical_dueBy target (timers : list (nat * Timer)) now :
  Forall (fun dt => isCritical dt.2 = false) timers ->
  Forall (fun dt => dueBy target (now + dt.1, dt.2)) timers.
Proof.
  intros Hall. eapply Forall_impl; [exact Hall |].
  intros [d t] H. unfold dueBy. cbn [fst snd] in *.
  by destruct t.
Qed.

Lemma fire_dueBy target due t g :
  dueBy target (due, t) ->
  Forall (fun dt => dueBy target (due + dt.1, dt.2)) (fire t g).2.
Proof.
  intros Hdue. destruct t as [| i st letter | r' i st | guessWord | r' i | |];
    cbn [fire]; try by repeat constructor.
  unfold dueBy in Hdue. cbn [fst snd] in Hdue.
  unfold endAnimation; cbv zeta. repeat case_bool_decide; cbn [snd].
  - apply Forall_app. split; [apply noncritical_dueBy, bounceRow_others |].
    constructor; [| constructor]. unfold dueBy. cbn [fst snd]. lia.
  - constructor; [| constructor]. unfold dueBy. cbn [fst snd]. lia.
  - constructor.
Qed.

Lemma fireUntil_dueBy fuel target p :
  Forall (dueBy target) (pending p) ->
  Forall (dueBy target) (pending (fireUntil fuel target p)).
Proof.
  revert p. induction fuel as [|fuel IH]; intros p Hp; [done |].
  cbn [fireUntil]. destruct (pending p) as [|[due t] rest] eqn:Hpend; [done |].
  destruct (due <=? target); [| done].
  apply Forall_cons in Hp as [Ht Hrest].
  pose proof (fire_dueBy target due t (game p) Ht) as Hst.
  destruct (fire t (game p)) as [g started]. apply IH. cbn [pending snd] in *.
  by apply Forall_schedule_due.
Qed.

Lemma handle_timers g e :
  Forall (fun dt => match dt.2 with
                    | EndAnimation _ => dt.1 = 800
                    | DeclareWin | DeclareLoss => False
                    | _ => True
                    end) (handle g e).2.
Proof.
  apply (handle_cases (fun s => Forall _ s.2)); try by constructor.
  intros _. apply (submitGuess_cases (fun s => Forall _ s.2)).
  - constructor.
  - intros text. unfold showMessage. cbn [snd Nat.ltb Nat.leb andb negb].
    by repeat constructor.
  - intros word _ _ _ _. cbn [snd]. apply Forall_app. split.
    + eapply Forall_impl; [apply startReveal_others |].
      intros [d t] H. cbn [snd] in *. by destruct t.
    + by repeat constructor.
Qed.

Lemma late_criticals_nil target timers :
  Forall (dueBy target) timers -> Forall (fun dt => target < dt.1) timers ->
  criticals timers = [].
Proof.
  induction timers as [|[due t] rest IH]; [done |].
  intros [H1 H2]%Forall_cons [H3 H4]%Forall_cons.
  rewrite criticals_cons. unfold dueBy in H1. cbn [fst snd] in *.
  destruct t; cbn [isCritical]; try (by apply IH); lia.
Qed.

(** X22. No submission is on its way for more than 1400 ms: on a sound,
    settled page, 1400 ms or more after any input no end-of-animation or
    game-over timer is pending. So inputs that keep this distance from each
    accepted submission arrive at settled pages. *)
Theorem input_settles_in_1400 (p : Page) (e : Event) (d : nat) :
  sound p ->
  sortedFrom (clock p) (pending p) ->
  settled p ->
  1400 <= d ->
  settled (advance d (handleNow p e)).
Proof.
  intros _ Hsorted Hset Hd.
  pose proof (handleNow_sorted p e Hsorted) as Hsorted'.
  assert (clock (handleNow p e) = clock p) as Hclock.
  { unfold handleNow. by destruct (handle (game p) e). }
  assert (Forall (dueBy (clock p + d)) (pending (handleNow p e))) as Hdue.
  { unfold handleNow. pose proof (handle_timers (game p) e) as Hh.
    destruct (handle (game p) e) as [g started]. cbn [pending snd] in *.
    apply Forall_schedule_due.
    - eapply Forall_impl; [exact Hh |]. intros [d' t] H. unfold dueBy.
      cbn [fst snd] in *. destruct t; try done. lia.
    - rewrite <- (Nat.add_0_l (clock p + d)).
      eapply Forall_impl; [apply (noncritical_dueBy (clock p + d) _ 0),
                           criticals_nil_Forall, Hset |].
      intros [d' t] H. exact H. }
  unfold settled, advance. rewrite Hclock.
  apply (late_criticals_nil (clock p + d)).
  - by apply fireUntil_dueBy.
  - apply fireUntil_fires_all; [lia | done | lia].
Qed.

Lemma input_settles_in_1400_witness :
  let p := run (quiet demoGame) (keysAfter 0 (Js.letters "crane")) in
  sound p /\ sortedFrom (clock p) (pending p) /\ settled p /\
  settled (advance 1400 (handleNow p (KeyDown "Enter"))) /\
  status (game (advance 1400 (handleNow p (KeyDown "Enter")))) = Won.
Proof.
  assert (sortedFrom (clock (run (quiet demoGame) (keysAfter 0 (Js.letters "crane"))))
            (pending (run (quiet demoGame) (keysAfter 0 (Js.letters "crane"))))) as Hs
    by (vm_compute; exact I).
  assert (settled (run (quiet demoGame) (keysAfter 0 (Js.letters "crane")))) as Hset
    by (vm_compute; reflexivity).
  assert (sound (run (quiet demoGame) (keysAfter 0 (Js.letters "crane")))) as Hsound.
  { split; [split; [vm_compute; reflexivity | vm_compute; lia] |].
    vm_compute. constructor. }
  split; [exact Hsound |]. split; [exact Hs |]. split; [exact Hset |].
  split; [| vm_compute; reflexivity].
  apply (input_settles_in_1400 _ (KeyDown "Enter") 1400 Hsound Hs Hset). lia.
Defined.

(** *** The colours of an accepted guess *)

Lemma elem_of_insertTimer x due t timers :
  x ∈ insertTimer due t timers <-> x = (due, t) \/ x ∈ timers.
Proof.
  induction timers as [|[due' t'] rest IH]; cbn [insertTimer].
  - rewrite list_elem_of_singleton. split; [by left | intros [?|H]; [done |]].
    by apply elem_of_nil in H.
  - destruct (due' <=? due).
    + rewrite !elem_of_cons, IH. tauto.
    + rewrite !elem_of_cons. tauto.
Qed.

Lemma elem_of_schedule x now started timers :
  x ∈ schedule now started timers <->
  (exists dt, dt ∈ started /\ x = (now + dt.1, dt.2)) \/ x ∈ timers.
Proof.
  unfold schedule. revert timers.
  induction started as [|[d t] started IH]; intros timers; cbn [foldl].
  - split; [by right | intros [(dt & H & _)|H]; [by apply elem_of_nil in H | done]].
  - rewrite IH, elem_of_insertTimer. cbn [fst snd]. split.
    + intros [(dt & H & ->) | [-> | H]]; [left | left | by right].
      * exists dt. split; [by right | done].
      * exists (d, t). split; [by left | done].
    + intros [(dt & H & ->) | H]; [| by right; right].
      apply elem_of_cons in H as [-> | H]; [by right; left |].
      left. by exists dt.
Qed.

Lemma dom_fire t g : dom (tiles (fire t g).1) = dom (tiles g).
Proof.
  destruct t as [| i st letter | r' i st | guessWord | r' i | |]; cbn [fire fst]; try done.
  - unfold revealLetter, updateKey, withTile. cbn. by rewrite dom_alter_L.
  - unfold withTile. cbn. by rewrite dom_alter_L.
  - unfold endAnimation; cbv zeta. by repeat case_bool_decide.
  - unfold withTile. cbn. by rewrite dom_alter_L.
Qed.

Lemma hasClass_withTile cls r c r' c' cls' g :
  hasClass cls r c g -> hasClass cls r c (withTile r' c' (addClass cls') g).
Proof.
  intros (t & Ht & Hin). unfold hasClass, withTile. cbn [tiles set_tiles].
  destruct (decide ((r', c') = (r, c))) as [[= -> ->]|Hne].
  - exists (addClass cls' t). rewrite lookup_alter_eq, Ht. split; [done |].
    cbn. set_solver.
  - exists t. by rewrite lookup_alter_ne.
Qed.

Lemma hasClass_added cls r c g :
  (r, c) ∈ dom (tiles g) -> hasClass cls r c (withTile r c (addClass cls) g).
Proof.
  intros [t Ht]%elem_of_dom. exists (addClass cls t). unfold withTile.
  cbn [tiles set_tiles]. rewrite lookup_alter_eq, Ht. split; [done |].
  cbn. set_solver.
Qed.

(** A callback takes no class off a tile. *)
Lemma fire_hasClass t g cls r c : hasClass cls r c g -> hasClass cls r c (fire t g).1.
Proof.
  intros H. destruct t as [| i st letter | r' i st | guessWord | r' i | |];
    cbn [fire fst]; try done.
  - unfold revealLetter. cbn [fst]. by apply (hasClass_withTile cls r c).
  - by apply hasClass_withTile.
  - unfold endAnimation; cbv zeta. by repeat case_bool_decide.
  - by apply hasClass_withTile.
Qed.

Lemma fireUntil_hasClass fuel target p cls r c :
  hasClass cls r c (game p) -> hasClass cls r c (game (fireUntil fuel target p)).
Proof.
  revert p. induction fuel as [|fuel IH]; intros p H; [done |].
  cbn [fireUntil]. destruct (pending p) as [|[due t] rest]; [done |].
  destruct (due <=? target); [| done].
  pose proof (fire_hasClass t (game p) cls r c H) as Hf.
  destruct (fire t (game p)) as [g started]. by apply IH.
Qed.

(** Nor does it weaken what a key shows. *)
Lemma fireUntil_keyShows fuel target p st k :
  keyShows st k (game p) -> keyShows st k (game (fireUntil fuel target p)).
Proof.
  intros (cl & Hk & Hr).
  destruct (fireUntil_keys fuel target p) as [obs Hobs].
  rewrite mergeAll_keys in Hobs.
  destruct (foldl_mergeStep_lookup obs _ k cl Hk) as (cl' & Hl & Hr' & _).
  exists cl'. rewrite Hobs. split; [done | lia].
Qed.

(** The first pending timer fires when it is due. *)
Lemma fireUntil_head fuel target p due t rest :
  pending p = (due, t) :: rest -> due <= target ->
  fireUntil (S fuel) target p =
  fireUntil fuel target {| game := (fire t (game p)).1; clock := due;
                           pending := schedule due (fire t (game p)).2 rest |}.
Proof.
  intros Hp Hdue. cbn [fireUntil]. rewrite Hp.
  rewrite (proj2 (Nat.leb_le _ _) Hdue). by destruct (fire t (game p)).
Qed.

Lemma sorted_head_le c due t rest x :
  sortedFrom c ((due, t) :: rest) -> x ∈ (due, t) :: rest -> due <= x.1.
Proof.
  intros [_ Hs] [-> | Hin]%elem_of_cons; [done |].
  apply sortedFrom_Forall in Hs. rewrite Forall_forall in Hs. by apply Hs.
Qed.

(** A pending [Colour] callback that is due by [target] has put its class
    on its tile when the clock is at [target]. *)
Lemma colour_fires fuel target : forall p due r i st,
  sortedFrom (clock p) (pending p) ->
  totalWeight (pending p) < fuel ->
  (due, Colour r i st) ∈ pending p ->
  due <= target ->
  (r, i) ∈ dom (tiles (game p)) ->
  hasClass (className st) r i (game (fireUntil fuel target p)).
Proof.
  induction fuel as [|fuel IH]; intros p due r i st Hsorted Hfuel Hin Hdue Hdom; [lia |].
  destruct (pending p) as [|[d0 t0] rest] eqn:Hp; [by apply elem_of_nil in Hin |].
  pose proof (sorted_head_le _ _ _ _ _ Hsorted Hin) as Hle. cbn [fst] in Hle.
  rewrite (fireUntil_head fuel target p d0 t0 rest Hp) by lia.
  destruct Hsorted as [Hc Hrest].
  pose proof (fire_weight t0 (game p)) as Hw.
  change (totalWeight ((d0, t0) :: rest)) with (weight t0 + totalWeight rest) in Hfuel.
  apply elem_of_cons in Hin as [[= <- <-] | Hin].
  - apply fireUntil_hasClass. cbn [game fire fst]. by apply hasClass_added.
  - apply (IH _ due); cbn [game clock pending].
    + by apply sortedFrom_schedule.
    + rewrite totalWeight_schedule. lia.
    + apply elem_of_schedule. by right.
    + done.
    + by rewrite dom_fire.
Qed.

(** A pending [Reveal] callback that no critical timer comes before, and
    that is due 250 ms before [target], has flipped its tile and coloured it
    when the clock is at [target], and has recoloured the key of its letter
    when the letter leaves the selector intact. *)
Lemma reveal_fires fuel target : forall p due i st letter,
  sortedFrom (clock p) (pending p) ->
  totalWeight (pending p) < fuel ->
  (due, Reveal i st letter) ∈ pending p ->
  due + 250 <= target ->
  Forall (fun dt => isCritical dt.2 = true -> due < dt.1) (pending p) ->
  (currentRow (game p), i) ∈ dom (tiles (game p)) ->
  let g' := game (fireUntil fuel target p) in
  hasClass "flip" (currentRow (game p)) i g' /\
  hasClass (className st) (currentRow (game p)) i g' /\
  (Js.selectorSafe (Js.toLowerCase letter) = true ->
   Js.toLowerCase letter ∈ dom (keys (game p)) ->
   keyShows st (Js.toLowerCase letter) g').
Proof.
  induction fuel as [|fuel IH];
    intros p due i st letter Hsorted Hfuel Hin Hdue Hlate Hdom g'; [lia |].
  unfold g'. clear g'.
  destruct (pending p) as [|[d0 t0] rest] eqn:Hp; [by apply elem_of_nil in Hin |].
  pose proof (sorted_head_le _ _ _ _ _ Hsorted Hin) as Hle. cbn [fst] in Hle.
  rewrite (fireUntil_head fuel target p d0 t0 rest Hp) by lia.
  destruct Hsorted as [Hc Hrest].
  pose proof (fire_weight t0 (game p)) as Hw.
  change (totalWeight ((d0, t0) :: rest)) with (weight t0 + totalWeight rest) in Hfuel.
  apply Forall_cons in Hlate as [Hlate0 Hlate]. cbn [fst snd] in Hlate0.
  apply elem_of_cons in Hin as [[= <- <-] | Hin].
  - cbn [fire revealLetter fst snd]. split; [| split].
    + apply fireUntil_hasClass. cbn [game].
      apply (hasClass_added "flip") in Hdom. exact Hdom.
    + apply (colour_fires fuel target _ (due + 250)); cbn [game clock pending].
      * by apply sortedFrom_schedule.
      * rewrite totalWeight_schedule. unfold totalWeight in *. cbn in Hfuel |- *. lia.
      * apply elem_of_schedule. left.
        exists (250, Colour (currentRow (game p)) i st). split; [by left | done].
      * done.
      * unfold updateKey, withTile. cbn. by rewrite dom_alter_L.
    + intros Hsafe [cl Hcl]%elem_of_dom. apply fireUntil_keyShows. cbn [game].
      exists (mergeKey st cl). split.
      * rewrite updateKey_lookup, Hsafe.
        rewrite bool_decide_eq_true_2 by done. cbn [andb].
        change (keys (withTile ?r ?c ?f ?g)) with (keys g). by rewrite Hcl.
      * rewrite mergeKey_max. unfold maxStatus.
        destruct (rank (keyStatus cl) <? rank (Some st)) eqn:Hlt; [done |].
        apply Nat.ltb_ge in Hlt. done.
  - assert (isCritical t0 = false) as Hnc.
    { destruct (isCritical t0); [| done]. specialize (Hlate0 eq_refl). lia. }
    destruct (fire_noncritical t0 (game p) Hnc) as (_ & _ & Hrow & _ & Hstarted).
    pose proof (fire_keys t0 (game p)) as Hkeys.
    rewrite <- Hrow.
    destruct (IH {| game := (fire t0 (game p)).1; clock := d0;
                    pending := schedule d0 (fire t0 (game p)).2 rest |}
                due i st letter) as (H1 & H2 & H3); cbn [game clock pending].
    + by apply sortedFrom_schedule.
    + rewrite totalWeight_schedule. lia.
    + apply elem_of_schedule. by right.
    + done.
    + apply Forall_schedule_due; [| done].
      eapply Forall_impl; [exact Hstarted |]. intros [d t] H Hcrit.
      cbn [snd] in *. congruence.
    + rewrite dom_fire, Hrow. done.
    + split; [done |]. split; [done |]. intros Hsafe Hk. apply H3; [done |].
      cbn [game]. rewrite Hkeys. destruct t0; try done.
      unfold updateKey. cbn [keys set_keys].
      match goal with |- context [Js.selectorSafe ?x] => destruct (Js.selectorSafe x) end;
        [| done].
      by rewrite dom_alter_L.
Qed.

Lemma startReveal_lookup states guessArr i st letter :
  states !! i = Some st -> guessArr !! i = Some letter ->
  (i * 100, Reveal i st letter) ∈ startReveal states guessArr.
Proof.
  intros Hs Hg. apply list_elem_of_lookup. exists i.
  unfold startReveal. rewrite list_lookup_imap.
  assert (zip states guessArr !! i = Some (st, letter)) as ->; [| done].
  apply lookup_zip_with_Some. by exists st, letter.
Qed.

(** X23. The page shows what the evaluation found. When a submission is
    accepted on a sound, settled page, then from 650 ms later on every tile
    of the row has flipped and carries the class of the state that
    [evaluate] gave its position; and when the letter of the tile leaves the
    selector of line 248 intact (no double quote, backslash or line break in
    it) and the keyboard has a key for it, that key shows that state or a
    stronger one. *)
Theorem accepted_guess_is_shown (p : Page) (e : Event) (word w letter : string)
    (d i : nat) (st : LetterState) :
  sound p ->
  sortedFrom (clock p) (pending p) ->
  settled p ->
  WORD (game p) = Some word ->
  accepted (game p) e = Some w ->
  evaluate word (readRow (game p)) !! i = Some st ->
  readRow (game p) !! i = Some letter ->
  650 <= d ->
  let g' := game (advance d (handleNow p e)) in
  hasClass "flip" (currentRow (game p)) i g' /\
  hasClass (className st) (currentRow (game p)) i g' /\
  (Js.selectorSafe (Js.toLowerCase letter) = true ->
   Js.toLowerCase letter ∈ dom (keys (game p)) ->
   keyShows st (Js.toLowerCase letter) g').
Proof.
  intros [Hwf _] Hsorted Hset HW Hacc Hst Hletter Hd.
  assert (i < WORD_LENGTH) as Hi.
  { apply lookup_lt_Some in Hletter. by rewrite readRow_length in Hletter. }
  unfold accepted in Hacc.
  destruct (isSubmit e) eqn:Hsub; [| done].
  destruct (inputIgnored (game p)) eqn:Hign; [done |].
  destruct (currentTile (game p) =? WORD_LENGTH) eqn:Hfull; [| done].
  destruct (isValidWord _ _) eqn:Hvalid; [| done]. clear Hacc.
  assert (isAnimating (game p) = false) as Han.
  { unfold inputIgnored in Hign. by apply orb_false_elim in Hign as [_ ?]. }
  assert (handle (game p) e =
          (set_isAnimating true (game p),
           startReveal (evaluate word (readRow (game p))) (readRow (game p))
           ++ [(WORD_LENGTH * 100 + 300, EndAnimation (Js.join (readRow (game p))))]))
    as Hh.
  { rewrite (handle_submit _ _ Hsub Hign). unfold submitGuess.
    rewrite Han, Hfull. cbn [negb]. cbv zeta. rewrite Hvalid, HW. done. }
  pose proof (handleNow_sorted p e Hsorted) as Hsorted'.
  unfold handleNow in *. rewrite Hh in *. cbn [clock pending] in Hsorted'.
  unfold advance. cbn [clock pending game].
  set (timers := schedule _ _ _) in *.
  pose proof (reveal_fires (S (totalWeight timers)) (clock p + d)
                {| game := set_isAnimating true (game p); clock := clock p;
                   pending := timers |} (clock p + i * 100) i st letter) as Hfires.
  cbn [game clock pending] in Hfires. apply Hfires; clear Hfires.
  - done.
  - lia.
  - apply elem_of_schedule. left. exists (i * 100, Reveal i st letter).
    split; [| done]. apply elem_of_app. left. by apply startReveal_lookup.
  - unfold WORD_LENGTH in Hi. lia.
  - apply Forall_schedule_due.
    + apply Forall_app. split.
      * eapply Forall_impl; [apply startReveal_others |].
        intros [d' t] H Hcrit. cbn [snd] in *. congruence.
      * constructor; [| constructor]. intros _. cbn [fst].
        unfold WORD_LENGTH in *. lia.
    + eapply Forall_impl; [apply criticals_nil_Forall, Hset |].
      intros [d' t] H Hcrit. cbn [snd] in *. congruence.
  - destruct Hwf as (Hdom & Hrow & _).
    change (tiles (set_isAnimating true (game p))) with (tiles (game p)).
    rewrite Hdom. by apply gridIds_elem.
Qed.

Lemma accepted_guess_is_shown_witness :
  let p := run (quiet demoGame) (keysAfter 0 (Js.letters "react")) in
  let g' := game (advance 650 (handleNow p (KeyDown "Enter"))) in
  sound p /\ sortedFrom (clock p) (pending p) /\ settled p /\
  WORD (game p) = Some "CRANE" /\
  accepted (game p) (KeyDown "Enter") = Some "REACT" /\
  evaluate "CRANE" (readRow (game p)) !! 0 = Some present /\
  readRow (game p) !! 0 = Some "R" /\
  hasClass "flip" 0 0 g' /\ hasClass "present" 0 0 g' /\ keyShows present "r" g'.
Proof.
  assert (sound (run (quiet demoGame) (keysAfter 0 (Js.letters "react")))) as Hsound.
  { split; [split; [vm_compute; reflexivity | vm_compute; lia] |].
    vm_compute. constructor. }
  assert (sortedFrom (clock (run (quiet demoGame) (keysAfter 0 (Js.letters "react"))))
            (pending (run (quiet demoGame) (keysAfter 0 (Js.letters "react"))))) as Hs
    by (vm_compute; exact I).
  assert (settled (run (quiet demoGame) (keysAfter 0 (Js.letters "react")))) as Hset
    by (vm_compute; reflexivity).
  split; [exact Hsound |]. split; [exact Hs |]. split; [exact Hset |].
  split; [reflexivity |]. split; [reflexivity |].
  split; [reflexivity |]. split; [reflexivity |].
  destruct (accepted_guess_is_shown _ (KeyDown "Enter") "CRANE" "REACT" "R" 650 0 present
              Hsound Hs Hset eq_refl eq_refl eq_refl eq_refl (le_n 650))
    as (H1 & H2 & H3).
  split; [exact H1 |]. split; [exact H2 |]. apply H3; [reflexivity |].
  apply (bool_decide_unpack _). vm_compute. exact I.
Defined.
